(** * Distant reading of the synoptic Gospels: a model of [analyze_gospels.py]

    The development embeds [scripts/analyze_gospels.py] (class
    [GospelAnalyzer]) and settles the properties its specification states.

    Python values are modelled as follows.
    - A [str] is a list of Unicode code points ([N]).
    - An [int] is a [Z].
    - A [set] is a stdpp [gset]; a [dict] used as a record is a [Record];
      a [Counter], whose item order matters, is an association list.
    - The collaborators that are not part of the script (the Unicode
      character database behind [str.lower] and the regex classes, the NLTK
      stopword list, float arithmetic, TextBlob, the iteration order of a
      [set], the [json] encoder) are the fields of type classes.
    - Exceptions and the file system are threaded by a state-and-error
      monad. *)

From Stdlib Require Import ZArith Floats Uint63 DecimalString DecimalPos DecimalZ.
From stdpp Require Import gmap strings list sorting.

Local Open Scope Z_scope.

(** ** Python strings *)

Abbreviation char := N (only parsing).
Abbreviation str := (list N) (only parsing).

(** The code points of an ASCII literal. *)
Definition py (s : string) : str :=
  Ascii.N_of_ascii <$> String.list_ascii_of_string s.

Definition NEWLINE : char := 10%N.
Definition COLON : char := 58%N.
Definition UNDERSCORE : char := 95%N.

(** [s.startswith(sub)] *)
Fixpoint startswith (sub s : str) : bool :=
  match sub, s with
  | [], _ => true
  | _ :: _, [] => false
  | a :: sub', b :: s' => (a =? b)%N && startswith sub' s'
  end.

(** [s.find(sub)], searching from offset [i]: the lowest index at which
    [sub] occurs, or [-1]. *)
Fixpoint find_from (sub s : str) (i : Z) : Z :=
  if startswith sub s then i
  else match s with
       | [] => -1
       | _ :: s' => find_from sub s' (i + 1)
       end.

Definition find (s sub : str) : Z := find_from sub s 0.

(** The text [s] contains [sub]. *)
Definition occurs (sub s : str) : Prop := ∃ a b, s = a ++ sub ++ b.

(** [s[i:]] and [s[:i]] for an index [i >= 0]. *)
Definition slice_from (s : str) (i : Z) : str := drop (Z.to_nat i) s.
Definition slice_to (s : str) (i : Z) : str := take (Z.to_nat i) s.

(** [s[i:j]] for offsets [i <= j]. *)
Definition substr (s : str) (i j : nat) : str := take (j - i) (drop i s).

(** [s.split(sep)] for a one-character separator: never the empty list. *)
Fixpoint split (sep : char) (s : str) : list str :=
  match s with
  | [] => [[]]
  | c :: s' =>
      if (c =? sep)%N then [] :: split sep s'
      else match split sep s' with
           | l :: ls => (c :: l) :: ls
           | [] => [[c]]
           end
  end.

(** [sep.join(ls)] *)
Fixpoint join (sep : str) (ls : list str) : str :=
  match ls with
  | [] => []
  | [l] => l
  | l :: ls' => l ++ sep ++ join sep ls'
  end.

(** [l.count(x)] *)
Definition list_count (x : str) (l : list str) : Z :=
  Z.of_nat (length (filter (x =.) l)).

(** ** The Unicode character database

    [str.lower], and the classes [\d] and [\w] of a [str] pattern, are
    defined by the Unicode tables of the interpreter.  [str.lower] is taken
    on whole strings: it is context sensitive and may change the length.
    The development fixes the tables on ASCII only, where [\d] is [0-9],
    the alphanumerics are the digits and the letters, and [lower] maps
    [A-Z] to [a-z] character by character. *)

Definition is_az (c : char) : bool := (97 <=? c)%N && (c <=? 122)%N.

Definition is_ascii (c : char) : Prop := (c < 128)%N.

Definition ascii_isdecimal (c : char) : bool := (48 <=? c)%N && (c <=? 57)%N.
Definition ascii_isupper (c : char) : bool := (65 <=? c)%N && (c <=? 90)%N.
Definition ascii_isalnum (c : char) : bool :=
  ascii_isdecimal c || ascii_isupper c || is_az c.
Definition ascii_lower (s : str) : str :=
  (λ c, if ascii_isupper c then (c + 32)%N else c) <$> s.

Class Unicode := {
  isdecimal : char → bool;
  isalnum : char → bool;
  lower : str → str;
  isdecimal_ascii : ∀ c, is_ascii c → isdecimal c = ascii_isdecimal c;
  isalnum_ascii : ∀ c, is_ascii c → isalnum c = ascii_isalnum c;
  lower_ascii : ∀ s, Forall is_ascii s → lower s = ascii_lower s
}.

(** ** Regular expressions

    A pattern is modelled by its matcher at one position: given the
    character before the position ([None] at the start of the text) and the
    text from the position on, the length of the match, if any. *)

Definition matcher := option char → str → option nat.

(** [re.findall]: the position moves left to right; after a match the scan
    resumes where the match ended ([skip] counts the characters of the last
    match still to pass), otherwise at the next character. *)
Fixpoint scan (m : matcher) (skip : nat) (prev : option char) (s : str)
  : list str :=
  match skip with
  | S k =>
      match s with
      | [] => []
      | c :: s' => scan m k (Some c) s'
      end
  | O =>
      match m prev s with
      | Some j =>
          take j s ::
          match s with
          | [] => []
          | c :: s' => scan m (Nat.pred j) (Some c) s'
          end
      | None =>
          match s with
          | [] => []
          | c :: s' => scan m 0 (Some c) s'
          end
      end
  end.

Definition findall (m : matcher) (s : str) : list str := scan m 0 None s.

(** [re.match]: the pattern is tried at the start of the text only. *)
Definition re_match (m : matcher) (s : str) : option str :=
  (λ j, take j s) <$> m None s.

Section Patterns.
Context `{Unicode}.

(** The class [\w]. *)
Definition is_word (c : char) : bool := isalnum c || (c =? UNDERSCORE)%N.

Definition is_word_opt (c : option char) : bool :=
  match c with
  | Some c => is_word c
  | None => false
  end.

(** [\b]: exactly one of the two neighbours is a word character; the
    outside of the text counts as a non-word character. *)
Definition word_boundary (prev next : option char) : bool :=
  xorb (is_word_opt prev) (is_word_opt next).

(** The longest prefix of [a]-[z] letters: what the greedy [[a-z]+] takes
    first. *)
Fixpoint az_run (s : str) : nat :=
  match s with
  | c :: s' => if is_az c then S (az_run s') else O
  | [] => O
  end.

(** [\b[a-z]+\b]: a boundary, then the greedy run of [j] letters, given
    back one letter at a time until a boundary follows. *)
Fixpoint backtrack (s : str) (j : nat) : option nat :=
  match j with
  | O => None
  | S i =>
      if word_boundary (s !! i) (s !! j) then Some j
      else backtrack s i
  end.

Definition word_re : matcher := λ prev s,
  if word_boundary prev (head s) then backtrack s (az_run s)
  else None.

(** [^]: the start of the text and, with [re.MULTILINE], after each
    newline. *)
Definition at_line_start (multiline : bool) (prev : option char) : bool :=
  match prev with
  | None => true
  | Some c => multiline && (c =? NEWLINE)%N
  end.

(** [^\d{3}:\d{3}] *)
Definition verse_re (multiline : bool) : matcher := λ prev s,
  if at_line_start multiline prev then
    match s with
    | d1 :: d2 :: d3 :: c :: d4 :: d5 :: d6 :: _ =>
        if isdecimal d1 && isdecimal d2 && isdecimal d3 && (c =? COLON)%N
           && isdecimal d4 && isdecimal d5 && isdecimal d6
        then Some 7%nat else None
    | _ => None
    end
  else None.

(** The line starts with a verse marker: [re.match(r'^\d{3}:\d{3}', line)]
    is not [None]. *)
Definition verse_line (line : str) : Prop :=
  is_Some (re_match (verse_re false) line).

(** In a text [s] that follows the character [prev], the letters from
    offset [i] up to offset [j] form a word of their own: no word
    character stands directly before or after them. *)
Definition run_at (prev : option char) (s : str) (i j : nat) : Prop :=
  (i < j ≤ length s)%nat ∧
  (∀ k, (i ≤ k < j)%nat → ∃ c, s !! k = Some c ∧ is_az c = true) ∧
  is_word_opt (match i with O => prev | S i' => s !! i' end) = false ∧
  is_word_opt (s !! j) = false.

(** The same in a whole text. *)
Definition bounded_run (s : str) (i j : nat) : Prop := run_at None s i j.

(** A span of offsets, one character further into the text. *)
Definition shift (span : nat * nat) : nat * nat := (S span.1, S span.2).

(** While the scan passes the rest of a match, word characters lie behind
    every position it passes. *)
Definition passing (prev : option char) (s : str) (skip : nat) : Prop :=
  skip = O ∨
  (is_word_opt prev = true ∧
   ∀ k, (S k < skip)%nat → is_word_opt (s !! k) = true).

End Patterns.

(** The tokens in the words of the specification: the maximal runs of
    letters of [s]; [run] holds the letters of the run being read. *)
Fixpoint letter_runs (run s : str) : list str :=
  match s with
  | [] => match run with [] => [] | _ => [run] end
  | c :: s' =>
      if is_az c then letter_runs (run ++ [c]) s'
      else match run with [] => [] | _ => [run] end ++ letter_runs [] s'
  end.

(** ** Floats, and the other collaborators of the script *)

(** Float arithmetic: [a / b] on two [int]s with [b != 0], and
    [round(x, ndigits)]. *)
Class Floats := {
  float : Type;
  truediv : Z → Z → float;
  round : float → Z → float
}.

(** [TextBlob(text).sentiment] *)
Class TextBlob `{Floats} := {
  blob_polarity : str → float;
  blob_subjectivity : str → float
}.

(** [stopwords.words('english')] *)
Class Stopwords := {
  english : list str
}.

(** The order in which iterating over a [set] of strings yields its
    elements.  It is a function of the hashes of the strings, which the
    interpreter salts anew in every process, so it belongs to the run. *)
Class SetOrder := {
  iter : gset str → list str;
  iter_elements : ∀ s, iter s ≡ₚ elements s
}.

(** ** Exceptions *)

Inductive exn :=
  | FileNotFoundError
  | FileExistsError
  | IsADirectoryError
  | ZeroDivisionError
  | KeyError.

Inductive result (A : Type) :=
  | Ok (a : A)
  | Raise (e : exn).
Arguments Ok {A} a.
Arguments Raise {A} e.

#[export] Instance result_ret : MRet result := λ A a, Ok a.
#[export] Instance result_bind : MBind result := λ A B f r,
  match r with
  | Ok a => f a
  | Raise e => Raise e
  end.

(** A number that is an [int] on one path and a [float] on another. *)
Inductive number `{Floats} :=
  | Int (z : Z)
  | Float (x : float).

(** [a / b] on two [int]s. *)
Definition int_truediv `{Floats} (a b : Z) : result float :=
  if decide (b = 0) then Raise ZeroDivisionError else Ok (truediv a b).

(** ** The data model

    The dicts the script builds with literal keys are records whose fields
    carry the keys. *)

(** [{'word': ..., 'count': ...}] *)
Module Freq.
Record entry := { word : str; count : Z }.
End Freq.

(** [{'word': ..., 'matthew': ..., 'mark': ..., 'luke': ..., 'total': ...}] *)
Module Overlap.
Record entry := {
  word : str;
  matthew : Z;
  mark : Z;
  luke : Z;
  total : Z
}.
End Overlap.

Record SentimentScore `{Floats} := {
  polarity : float;
  subjectivity : float
}.

Record StyleMetrics `{Floats} := {
  total_words : Z;
  unique_words : Z;
  lexical_diversity : number;
  vocabulary_size : Z;
  verse_count : Z;
  avg_words_per_verse : number
}.

(** The value [analyze_gospel] returns.  [all_words] is [None] once
    [run_analysis] has deleted the key. *)
Record Document `{Floats} := {
  name : str;
  sentiment : SentimentScore;
  style_metrics : StyleMetrics;
  top_words : list Freq.entry;
  word_cloud : list Freq.entry;
  all_words : option (list str)
}.

Record Metadata := {
  total_overlapping_words : Z;
  analysis_type : str;
  sentiment_tool : str;
  source : str
}.

Record AnalysisReport `{Floats} := {
  gospels : list (str * Document);
  overlapping_words : list Overlap.entry;
  metadata : Metadata
}.

(** ** The analyzer and the file system

    A path is the list of its components.  [files] maps every path that
    [open(..., 'r', encoding='utf-8-sig')] can read to the text [read()]
    returns for it; opening any other path for reading raises.  [dirs] are
    the directories.  [results] is the attribute [self.results], a dict in
    insertion order.  Output on the terminal is not modelled. *)

Abbreviation path := (list (list N)) (only parsing).

Record state `{Floats} := {
  files : gmap path str;
  dirs : gset path;
  results : list (str * Document)
}.

Definition M `{Floats} (A : Type) : Type := state → result A * state.

#[export] Instance M_ret `{Floats} : MRet M := λ A a st, (Ok a, st).
#[export] Instance M_bind `{Floats} : MBind M := λ A B f c st,
  match c st with
  | (Ok a, st') => f a st'
  | (Raise e, st') => (Raise e, st')
  end.

(** A computation that touches neither the analyzer nor the files. *)
Definition lift `{Floats} {A} (r : result A) : M A := λ st, (r, st).

Section FileSystem.
Context `{Floats}.

(** [open(p, 'r', encoding='utf-8-sig')] followed by [read()]. *)
Definition read_text (p : path) : M str := λ st,
  match files st !! p with
  | Some text => (Ok text, st)
  | None => (Raise FileNotFoundError, st)
  end.

(** The path itself and the paths above it. *)
Definition ancestors (p : path) : list path :=
  (λ n, take n p) <$> seq 0 (S (length p)).

(** [p.mkdir(parents=True, exist_ok=True)]: a file in the way raises, the
    directories that exist already are kept. *)
Definition mkdir_parents (p : path) : M () := λ st,
  if decide (Exists (λ q, is_Some (files st !! q)) (ancestors p))
  then (Raise FileExistsError, st)
  else (Ok (), {| files := files st;
                  dirs := dirs st ∪ list_to_set (ancestors p);
                  results := results st |}).

(** [open(p, 'w', encoding='utf-8')] followed by writing [text]. *)
Definition write_text (p : path) (text : str) : M () := λ st,
  if decide (p ∈ dirs st) then (Raise IsADirectoryError, st)
  else (Ok (), {| files := <[p := text]> (files st);
                  dirs := dirs st;
                  results := results st |}).

(** [p.parent] *)
Definition parent (p : path) : path := take (Nat.pred (length p)) p.

(** ** Dicts in insertion order *)

(** [d[k]] *)
Fixpoint dict_get {V} (d : list (str * V)) (k : str) : result V :=
  match d with
  | [] => Raise KeyError
  | (k', v) :: d' => if decide (k' = k) then Ok v else dict_get d' k
  end.

(** [d[k] = v] *)
Fixpoint dict_set {V} (d : list (str * V)) (k : str) (v : V)
  : list (str * V) :=
  match d with
  | [] => [(k, v)]
  | (k', v') :: d' =>
      if decide (k' = k) then (k, v) :: d' else (k', v') :: dict_set d' k v
  end.

Definition get_results : M (list (str * Document)) := λ st, (Ok (results st), st).

Definition set_results (r : list (str * Document)) : M () := λ st,
  (Ok (), {| files := files st; dirs := dirs st; results := r |}).

End FileSystem.

(** ** Sorting and counting *)

(** One step of a stable sort by decreasing key: [x], which came before
    every element of the sorted [l], goes in front of the first element
    whose key is not greater. *)
Fixpoint insert_desc {A} (key : A → Z) (x : A) (l : list A) : list A :=
  match l with
  | [] => [x]
  | y :: l' =>
      if decide (key x < key y) then y :: insert_desc key x l'
      else x :: y :: l'
  end.

(** [sorted(l, key=key, reverse=True)] and [l.sort(key=key, reverse=True)]:
    the sort is stable, also when reversed. *)
Definition sorted_desc {A} (key : A → Z) (l : list A) : list A :=
  foldr (insert_desc key) [] l.

(** The order of a list sorted by decreasing key whose ties are in the
    order [R]. *)
Definition desc_then {A} (key : A → Z) (R : relation A) : relation A :=
  λ a b, key b < key a ∨ (key a = key b ∧ R a b).

(** The offset at which [w] first appears in [l]. *)
Fixpoint first_index (w : str) (l : list str) : nat :=
  match l with
  | [] => O
  | x :: l' => if decide (x = w) then O else S (first_index w l')
  end.

(** [a] appears in [l], and [b] does not appear before it. *)
Definition appears_first (l : list str) : relation str :=
  λ a b, (first_index a l < first_index b l)%nat.

(** [d.get(k, default)] *)
Fixpoint dict_get_default {V} (d : list (str * V)) (k : str) (default : V)
  : V :=
  match d with
  | [] => default
  | (k', v) :: d' => if decide (k' = k) then v else dict_get_default d' k default
  end.

(** [Counter(words)]: every element does
    [mapping[elem] = mapping.get(elem, 0) + 1]. *)
Definition counter_add (c : list (str * Z)) (w : str) : list (str * Z) :=
  dict_set c w (dict_get_default c w 0 + 1).

Definition Counter (words : list str) : list (str * Z) :=
  foldl counter_add [] words.

(** [c] holds the words of [ws], each once and with the number of its
    occurrences, in the order in which they first appear. *)
Definition counts_of (ws : list str) (c : list (str * Z)) : Prop :=
  c = (λ k, (k, list_count k ws)) <$> c.*1 ∧
  NoDup c.*1 ∧
  (∀ k, k ∈ c.*1 ↔ k ∈ ws) ∧
  StronglySorted (appears_first ws) c.*1.

(** [c.most_common(n)] is [heapq.nlargest(n, c.items(), key=itemgetter(1))],
    that is [sorted(c.items(), key=itemgetter(1), reverse=True)[:n]], and
    the empty list for a negative [n]. *)
Definition most_common (c : list (str * Z)) (n : Z) : list (str * Z) :=
  take (Z.to_nat n) (sorted_desc snd c).

(** ** GospelAnalyzer *)

Definition start_marker : str := py "*** START OF".
Definition end_marker : str := py "*** END OF".

(** The loop over the lines in [load_gospel]; the state is
    [(skip_header, clean_lines)]. *)
Definition header_step `{Unicode} (st : bool * list str) (line : str)
  : bool * list str :=
  let '(skip_header, clean_lines) := st in
  let skip_header :=
    if skip_header && bool_decide (verse_line line)
    then false else skip_header in
  (skip_header,
   if negb skip_header then clean_lines ++ [line] else clean_lines).

(** The lines the loop of [load_gospel] keeps: those from the first verse
    line on. *)
Fixpoint drop_header `{Unicode} (lines : list str) : list str :=
  match lines with
  | [] => []
  | line :: lines' =>
      if bool_decide (verse_line line) then lines else drop_header lines'
  end.

(** [load_gospel] from the text read on. *)
Definition clean_gospel `{Unicode} (text : str) : str :=
  let start_idx := find text start_marker in
  let end_idx := find text end_marker in
  let text := if decide (start_idx ≠ -1) then slice_from text start_idx
              else text in
  let text := if decide (end_idx ≠ -1) then slice_to text end_idx
              else text in
  let lines := split NEWLINE text in
  let '(_, clean_lines) := foldl header_step (true, []) lines in
  join [NEWLINE] clean_lines.

(** The value of [self.gospels.items()]. *)
Definition gospel_files : list (str * path) :=
  [ (py "Matthew", [py "pg8828.txt"]);
    (py "Mark", [py "pg8829.txt"]);
    (py "Luke", [py "pg8830.txt"]) ].

(** The words [re.findall(r'\b[a-z]+\b', text.lower())] finds. *)
Definition lower_words `{Unicode} (text : str) : list str :=
  findall word_re (lower text).

(** The order of the ranking: more occurrences first, and among words
    with the same count the one that appears first in [words]. *)
Definition ranks_before (words : list str) : relation Freq.entry :=
  desc_then Freq.count
    (λ a b, appears_first words (Freq.word a) (Freq.word b)).

Definition get_top_words (words : list str) (n : Z) : list Freq.entry :=
  (λ '(word, count), {| Freq.word := word; Freq.count := count |})
    <$> most_common (Counter words) n.

Section GospelAnalyzer.
Context {F : Floats} {U : Unicode} {B : TextBlob} {SW : Stopwords} {SO : SetOrder}.
Variable base_path : path.

(** [self.stop_words] *)
Definition stop_words : gset str := list_to_set english.

Definition load_gospel (filename : path) : M str :=
  text ← read_text (base_path ++ filename);
  mret (clean_gospel text).

Definition tokenize_and_clean (text : str) : list str :=
  let words := lower_words text in
  filter (λ w, (w ∉ stop_words) ∧ (2 < length w)%nat) words.

Definition analyze_sentiment (text : str) : SentimentScore :=
  {| polarity := round (blob_polarity text) 4;
     subjectivity := round (blob_subjectivity text) 4 |}.

Definition calculate_style_metrics (text : str) (filtered_words : list str)
  : result StyleMetrics :=
  let all_words := lower_words text in
  let verses := Z.of_nat (length (findall (verse_re true) text)) in
  let total_words := Z.of_nat (length all_words) in
  let unique_words :=
    Z.of_nat (size (list_to_set all_words : gset str)) in
  lexical_diversity ←
    (if decide (total_words > 0)
     then q ← int_truediv unique_words total_words; mret (Float (round q 4))
     else mret (Int 0));
  avg_words_per_verse ←
    (if decide (verses > 0)
     then q ← int_truediv total_words verses; mret (Float (round q 2))
     else mret (Int 0));
  mret {| total_words := total_words;
          unique_words := unique_words;
          lexical_diversity := lexical_diversity;
          vocabulary_size := unique_words;
          verse_count := verses;
          avg_words_per_verse := avg_words_per_verse |}.

Definition analyze_gospel (name : str) (filename : path) : M Document :=
  text ← load_gospel filename;
  let filtered_words := tokenize_and_clean text in
  let sentiment := analyze_sentiment text in
  style_metrics ← lift (calculate_style_metrics text filtered_words);
  let top_words := get_top_words filtered_words 20 in
  let word_cloud_data := get_top_words filtered_words 50 in
  mret {| name := name;
          sentiment := sentiment;
          style_metrics := style_metrics;
          top_words := top_words;
          word_cloud := word_cloud_data;
          all_words := Some filtered_words |}.

(** [results[name]['all_words']] *)
Definition all_words_of (results : list (str * Document)) (name : str)
  : result (list str) :=
  doc ← dict_get results name;
  match all_words doc with
  | Some words => Ok words
  | None => Raise KeyError
  end.

Definition overlap_entry (matthew mark luke : list str) (word : str)
  : Overlap.entry :=
  let matthew_count := list_count word matthew in
  let mark_count := list_count word mark in
  let luke_count := list_count word luke in
  {| Overlap.word := word;
     Overlap.matthew := matthew_count;
     Overlap.mark := mark_count;
     Overlap.luke := luke_count;
     Overlap.total := matthew_count + mark_count + luke_count |}.

(** [find_overlapping_words] from the three token lists it reads in
    [self.results]. *)
Definition overlap (matthew mark luke : list str) : list Overlap.entry :=
  let matthew_words : gset str := list_to_set matthew in
  let mark_words : gset str := list_to_set mark in
  let luke_words : gset str := list_to_set luke in
  let common_words := matthew_words ∩ mark_words ∩ luke_words in
  let overlap_data := overlap_entry matthew mark luke <$> iter common_words in
  sorted_desc Overlap.total overlap_data.

Definition find_overlapping_words : M (list Overlap.entry) :=
  results ← get_results;
  matthew ← lift (all_words_of results (py "Matthew"));
  mark ← lift (all_words_of results (py "Mark"));
  luke ← lift (all_words_of results (py "Luke"));
  mret (overlap matthew mark luke).

(** [for name, filename in self.gospels.items():
       self.results[name] = self.analyze_gospel(name, filename)] *)
Fixpoint analyze_each (gospels : list (str * path)) : M () :=
  match gospels with
  | [] => mret ()
  | (name, filename) :: gospels' =>
      doc ← analyze_gospel name filename;
      results ← get_results;
      set_results (dict_set results name doc);;
      analyze_each gospels'
  end.

Definition without_all_words (doc : Document) : Document :=
  {| name := name doc;
     sentiment := sentiment doc;
     style_metrics := style_metrics doc;
     top_words := top_words doc;
     word_cloud := word_cloud doc;
     all_words := None |}.

(** [for name in self.results: del self.results[name]['all_words']] *)
Fixpoint delete_all_words (names : list str) : M () :=
  match names with
  | [] => mret ()
  | name :: names' =>
      results ← get_results;
      doc ← lift (dict_get results name);
      match all_words doc with
      | Some _ =>
          set_results (dict_set results name (without_all_words doc));;
          delete_all_words names'
      | None => lift (Raise KeyError)
      end
  end.

Definition run_analysis : M AnalysisReport :=
  analyze_each gospel_files;;
  overlapping_words ← find_overlapping_words;
  results ← get_results;
  delete_all_words results.*1;;
  results ← get_results;
  mret {| gospels := results;
          overlapping_words := overlapping_words;
          metadata :=
            {| total_overlapping_words := Z.of_nat (length overlapping_words);
               analysis_type := py "whole_gospel_level";
               sentiment_tool := py "TextBlob";
               source := py "Weymouth New Testament in Modern Speech (1913)" |}
       |}.

End GospelAnalyzer.

(** ** JSON *)

(** The values [json.dump] writes for the report: a [dict] is an object
    with its items in insertion order. *)
#[warnings="-register-all"]
Inductive json `{Floats} :=
  | JInt (z : Z)
  | JFloat (x : float)
  | JStr (s : str)
  | JList (l : list json)
  | JObject (o : list (str * json)).

(** A value that comes from Python data: no object repeats a key. *)
Fixpoint json_wf `{Floats} (v : json) : bool :=
  match v with
  | JList l => forallb json_wf l
  | JObject o =>
      bool_decide (NoDup o.*1) && forallb (λ kv, json_wf kv.2) o
  | _ => true
  end.

(** Two values that are the same but for the floats in them. *)
Inductive json_alike `{Floats} : json → json → Prop :=
  | alike_int (z : Z) : json_alike (JInt z) (JInt z)
  | alike_float (x y : float) : json_alike (JFloat x) (JFloat y)
  | alike_str (s : str) : json_alike (JStr s) (JStr s)
  | alike_list (l k : list json) :
      Forall2 json_alike l k → json_alike (JList l) (JList k)
  | alike_object (o p : list (str * json)) :
      Forall2 (λ a b, a.1 = b.1 ∧ json_alike a.2 b.2) o p →
      json_alike (JObject o) (JObject p).

(** [json.dump(v, f, indent=2, ensure_ascii=False)] as the text written. *)
Class JsonEncoder `{Floats} := {
  dump : json → str
}.

(** The encoder together with [json.load] on a text. *)
Class JsonCodec `{Floats} := {
  codec_encoder :: JsonEncoder;
  load : str → option json
}.

(** Writing a value with a codec and parsing the text again. *)
Definition reload `{Floats} (codec : JsonCodec) (v : json) : option json :=
  @load _ codec (@dump _ (@codec_encoder _ codec) v).

(** Parsing what was written gives the value back.  Nothing is asked of
    the floats but that they come back as floats: the law holds also of
    an encoder that writes a float with fewer digits than it has. *)
Definition round_trips `{Floats} (codec : JsonCodec) : Prop :=
  ∀ v, json_wf v = true →
       ∃ v', reload codec v = Some v' ∧ json_alike v v'.

(** [v[k]] on a parsed object. *)
Definition json_get `{Floats} (v : json) (k : str) : option json :=
  match v with
  | JObject o =>
      match dict_get o k with
      | Ok x => Some x
      | Raise _ => None
      end
  | _ => None
  end.

Section Report.
Context `{Floats}.

Definition number_json (x : number) : json :=
  match x with
  | Int z => JInt z
  | Float x => JFloat x
  end.

Definition freq_json (e : Freq.entry) : json :=
  JObject [ (py "word", JStr (Freq.word e));
            (py "count", JInt (Freq.count e)) ].

Definition overlap_json (e : Overlap.entry) : json :=
  JObject [ (py "word", JStr (Overlap.word e));
            (py "matthew", JInt (Overlap.matthew e));
            (py "mark", JInt (Overlap.mark e));
            (py "luke", JInt (Overlap.luke e));
            (py "total", JInt (Overlap.total e)) ].

Definition sentiment_json (s : SentimentScore) : json :=
  JObject [ (py "polarity", JFloat (polarity s));
            (py "subjectivity", JFloat (subjectivity s)) ].

Definition style_json (m : StyleMetrics) : json :=
  JObject [ (py "total_words", JInt (total_words m));
            (py "unique_words", JInt (unique_words m));
            (py "lexical_diversity", number_json (lexical_diversity m));
            (py "vocabulary_size", JInt (vocabulary_size m));
            (py "verse_count", JInt (verse_count m));
            (py "avg_words_per_verse", number_json (avg_words_per_verse m)) ].

Definition document_json (d : Document) : json :=
  JObject ([ (py "name", JStr (name d));
             (py "sentiment", sentiment_json (sentiment d));
             (py "style_metrics", style_json (style_metrics d));
             (py "top_words", JList (freq_json <$> top_words d));
             (py "word_cloud", JList (freq_json <$> word_cloud d)) ]
           ++ match all_words d with
              | Some words => [ (py "all_words", JList (JStr <$> words)) ]
              | None => []
              end).

Definition metadata_json (m : Metadata) : json :=
  JObject [ (py "total_overlapping_words", JInt (total_overlapping_words m));
            (py "analysis_type", JStr (analysis_type m));
            (py "sentiment_tool", JStr (sentiment_tool m));
            (py "source", JStr (source m)) ].

Definition report_json (r : AnalysisReport) : json :=
  JObject [ (py "gospels", JObject (prod_map id document_json <$> gospels r));
            (py "overlapping_words",
             JList (overlap_json <$> overlapping_words r));
            (py "metadata", metadata_json (metadata r)) ].

End Report.

Section SaveResults.
Context {F : Floats} {U : Unicode} {B : TextBlob} {SW : Stopwords} {SO : SetOrder}
  {E : JsonEncoder}.
Variable base_path : path.

Definition save_results (output_path : path) : M AnalysisReport :=
  let output_file := base_path ++ output_path in
  mkdir_parents (parent output_file);;
  results ← run_analysis base_path;
  write_text output_file (dump (report_json results));;
  mret results.

End SaveResults.

(** The default of [output_path]. *)
Definition default_output_path : path :=
  [py "data"; py "analysis_results.json"].

(** ** A concrete setting for running the model

    Instances of the collaborators on which the definitions above
    evaluate: the ASCII tables for every character, binary64 arithmetic, a
    short stopword list, a scorer that finds every text neutral, the
    iteration order of [elements], and an encoder for the reports. *)

#[export] Instance ascii_text : Unicode := {|
  isdecimal := ascii_isdecimal;
  isalnum := ascii_isalnum;
  lower := ascii_lower;
  isdecimal_ascii _ _ := eq_refl;
  isalnum_ascii _ _ := eq_refl;
  lower_ascii _ _ := eq_refl
|}.

(** The float nearest to an [int] below [2^53] in magnitude. *)
Definition float_of_Z (z : Z) : PrimFloat.float :=
  if decide (z < 0) then PrimFloat.opp (PrimFloat.of_uint63 (Uint63.of_Z (- z)))
  else PrimFloat.of_uint63 (Uint63.of_Z z).

(** The integer nearest to [n / d], the even one on a tie. *)
Definition div_half_even (n d : Z) : Z :=
  let q := n / d in
  let r := n mod d in
  if decide (2 * r < d) then q
  else if decide (d < 2 * r) then q + 1
  else if Z.even q then q else q + 1.

(** [round(x, ndigits)]: the exact value of [x] is rounded to a multiple of
    [10^-ndigits], and the float nearest to that decimal is returned. *)
Definition binary64_round (x : PrimFloat.float) (ndigits : Z)
  : PrimFloat.float :=
  match FloatOps.Prim2SF x with
  | SpecFloat.S754_finite s m e =>
      let p := 10 ^ ndigits in
      let k := if decide (0 ≤ e) then Z.pos m * 2 ^ e * p
               else div_half_even (Z.pos m * p) (2 ^ (- e)) in
      let r := PrimFloat.div (float_of_Z k) (float_of_Z p) in
      if s then PrimFloat.opp r else r
  | _ => x
  end.

#[export] Instance binary64 : Floats := {|
  float := PrimFloat.float;
  truediv a b := PrimFloat.div (float_of_Z a) (float_of_Z b);
  round := binary64_round
|}.

#[export] Instance neutral_blob : TextBlob := {|
  blob_polarity _ := 0%float;
  blob_subjectivity _ := 0%float
|}.

#[export] Instance few_stopwords : Stopwords := {|
  english := py <$> ["the"; "on"; "and"; "was"]%string
|}.

#[export] Instance elements_order : SetOrder := {|
  iter := elements;
  iter_elements s := reflexivity (elements s)
|}.

(** The same elements the other way round: the order of another run. *)
Definition reversed_order : SetOrder := {|
  iter s := reverse (elements s);
  iter_elements s := reverse_Permutation (elements s)
|}.

(** The encoder.  [str(z)] for an [int]: *)
Definition str_of_int (z : Z) : str :=
  py (NilZero.string_of_int (Z.to_int z)).

(** The decimals of a fraction without the zeros at the end. *)
Fixpoint strip_zeros (digits : str) : str :=
  match digits with
  | [] => []
  | d :: digits' =>
      match strip_zeros digits' with
      | [] => if (d =? 48)%N then [] else [d]
      | rest => d :: rest
      end
  end.

(** [repr(x)] for a float that [round(x, 4)] or [round(x, 2)] returned:
    at most four decimals, and fewer than sixteen digits before the
    point. *)
Definition repr_rounded (x : PrimFloat.float) : str :=
  match FloatOps.Prim2SF x with
  | SpecFloat.S754_zero s => py (if s then "-0.0" else "0.0")
  | SpecFloat.S754_infinity s => py (if s then "-Infinity" else "Infinity")
  | SpecFloat.S754_nan => py "NaN"
  | SpecFloat.S754_finite s m e =>
      let k := if decide (0 ≤ e) then Z.pos m * 2 ^ e * 10000
               else div_half_even (Z.pos m * 10000) (2 ^ (- e)) in
      let decimals :=
        match strip_zeros (drop 1 (str_of_int (10000 + k mod 10000))) with
        | [] => py "0"
        | ds => ds
        end in
      (if s then py "-" else []) ++ str_of_int (k / 10000) ++ py "."
      ++ decimals
  end.

Definition BACKSLASH : char := 92%N.

Definition hex_digit (d : N) : char :=
  if (d <? 10)%N then (48 + d)%N else (87 + d)%N.

(** A character inside a JSON string, with [ensure_ascii=False]. *)
Definition escape_char (c : char) : str :=
  if (c =? 34)%N then [BACKSLASH; 34%N]
  else if (c =? BACKSLASH)%N then [BACKSLASH; BACKSLASH]
  else if (c =? 8)%N then BACKSLASH :: py "b"
  else if (c =? 12)%N then BACKSLASH :: py "f"
  else if (c =? 10)%N then BACKSLASH :: py "n"
  else if (c =? 13)%N then BACKSLASH :: py "r"
  else if (c =? 9)%N then BACKSLASH :: py "t"
  else if (c <? 32)%N
       then BACKSLASH :: py "u00" ++ [hex_digit (c / 16)%N; hex_digit (c mod 16)%N]
  else [c].

Definition quote (s : str) : str := [34%N] ++ (s ≫= escape_char) ++ [34%N].

Definition newline_indent (level : nat) : str :=
  NEWLINE :: replicate (2 * level) 32%N.

(** [json.dumps(v, indent=2, ensure_ascii=False)] at a nesting level. *)
Fixpoint encode (level : nat) (v : @json binary64) : str :=
  match v with
  | JInt z => str_of_int z
  | JFloat x => repr_rounded x
  | JStr s => quote s
  | JList [] => py "[]"
  | JList l =>
      py "[" ++ newline_indent (S level)
      ++ join (py "," ++ newline_indent (S level)) (encode (S level) <$> l)
      ++ newline_indent level ++ py "]"
  | JObject [] => py "{}"
  | JObject o =>
      py "{" ++ newline_indent (S level)
      ++ join (py "," ++ newline_indent (S level))
           ((λ kv, quote kv.1 ++ py ": " ++ encode (S level) kv.2) <$> o)
      ++ newline_indent level ++ py "}"
  end.

#[export] Instance indented_json : JsonEncoder := {|
  dump := encode 0
|}.

(** The parser: [json.load] on the texts that the encoder writes.  Of what
    [json.load] reads besides, it has the other escapes and any white
    space between the tokens; it does not read exponents, [true], [false]
    and [null] (the values above have no constructor for them), nor a pair
    of surrogates as one character, and it takes digits after a leading
    zero.  The characters of the JSON syntax: *)
Definition QUOTE : char := 34%N.
Definition COMMA : char := 44%N.
Definition MINUS : char := 45%N.
Definition DOT : char := 46%N.
Definition LBRACKET : char := 91%N.
Definition RBRACKET : char := 93%N.
Definition LBRACE : char := 123%N.
Definition RBRACE : char := 125%N.

Definition is_ws (c : char) : bool :=
  (c =? 32)%N || (c =? NEWLINE)%N || (c =? 13)%N || (c =? 9)%N.

Fixpoint skip_ws (s : str) : str :=
  match s with
  | c :: s' => if is_ws c then skip_ws s' else s
  | [] => []
  end.

(** The inverse of [py] on ASCII texts. *)
Definition to_string (s : str) : string :=
  String.string_of_list_ascii (Ascii.ascii_of_N <$> s).

Definition unhex (c : char) : option N :=
  if ascii_isdecimal c then Some (c - 48)%N
  else if (97 <=? c)%N && (c <=? 102)%N then Some (c - 87)%N
  else if (65 <=? c)%N && (c <=? 70)%N then Some (c - 55)%N
  else None.

(** The character after a backslash, [u] apart. *)
Definition unescape (c : char) : option char :=
  if (c =? QUOTE)%N then Some QUOTE
  else if (c =? BACKSLASH)%N then Some BACKSLASH
  else if (c =? 47)%N then Some 47%N
  else if (c =? 98)%N then Some 8%N
  else if (c =? 102)%N then Some 12%N
  else if (c =? 110)%N then Some NEWLINE
  else if (c =? 114)%N then Some 13%N
  else if (c =? 116)%N then Some 9%N
  else None.

(** A string from behind its opening quote on: the text of the string and
    what follows the closing quote.  A control character must be
    escaped. *)
Fixpoint parse_string (s : str) : option (str * str) :=
  match s with
  | [] => None
  | c :: s' =>
      if (c =? QUOTE)%N then Some ([], s')
      else if (c =? BACKSLASH)%N then
        match s' with
        | [] => None
        | e :: s'' =>
            if (e =? 117)%N then
              match s'' with
              | h1 :: h2 :: h3 :: h4 :: s3 =>
                  d1 ← unhex h1; d2 ← unhex h2; d3 ← unhex h3; d4 ← unhex h4;
                  '(t, rest) ← parse_string s3;
                  Some ((((d1 * 16 + d2) * 16 + d3) * 16 + d4)%N :: t, rest)
              | _ => None
              end
            else
              c' ← unescape e;
              '(t, rest) ← parse_string s'';
              Some (c' :: t, rest)
        end
      else if (c <? 32)%N then None
      else
        '(t, rest) ← parse_string s';
        Some (c :: t, rest)
  end.

(** The digits at the start of a text, and the rest. *)
Fixpoint span_digits (s : str) : str * str :=
  match s with
  | c :: s' =>
      if ascii_isdecimal c
      then let '(ds, rest) := span_digits s' in (c :: ds, rest)
      else ([], s)
  | [] => ([], [])
  end.

(** [int(text)] on an optional sign and digits. *)
Definition int_of_digits (text : str) : option Z :=
  Z.of_int <$> NilZero.int_of_string (to_string text).

(** [float(text)] on digits, a point and digits, fifteen digits at most
    in all: the float nearest to the decimal. *)
Definition float_of_digits (negative : bool) (whole fraction : str)
  : option PrimFloat.float :=
  i ← int_of_digits whole;
  f ← int_of_digits fraction;
  let p := 10 ^ Z.of_nat (length fraction) in
  let x := PrimFloat.div (float_of_Z (i * p + f)) (float_of_Z p) in
  Some (if negative then PrimFloat.opp x else x).

(** A number without its sign: digits, and a fraction or none. *)
Definition parse_decimal (negative : bool) (s : str)
  : option (@json binary64 * str) :=
  let '(whole, s1) := span_digits s in
  let integer :=
    match int_of_digits ((if negative then [MINUS] else []) ++ whole) with
    | Some z => Some (JInt z, s1)
    | None => None
    end in
  match s1 with
  | c :: s2 =>
      if (c =? DOT)%N then
        let '(fraction, s3) := span_digits s2 in
        match float_of_digits negative whole fraction with
        | Some x => Some (JFloat x, s3)
        | None => None
        end
      else integer
  | [] => integer
  end.

(** A number, or one of the three constants that [json.dump] writes for
    the floats that are no numbers. *)
Definition parse_number (s : str) : option (@json binary64 * str) :=
  if startswith (py "NaN") s then Some (JFloat PrimFloat.nan, drop 3 s)
  else if startswith (py "Infinity") s
       then Some (JFloat PrimFloat.infinity, drop 8 s)
  else if startswith (py "-Infinity") s
       then Some (JFloat PrimFloat.neg_infinity, drop 9 s)
  else match s with
       | c :: s' =>
           if (c =? MINUS)%N then parse_decimal true s'
           else parse_decimal false s
       | [] => None
       end.

(** [dict(pairs)]: a key that comes again takes the later value. *)
Definition dict_of {V} (pairs : list (str * V)) : list (str * V) :=
  foldl (λ d kv, dict_set d kv.1 kv.2) [] pairs.

(** A value at the start of a text, and the rest of the text.  [fuel]
    bounds the calls. *)
Fixpoint parse_value (fuel : nat) (s : str) : option (@json binary64 * str) :=
  match fuel with
  | O => None
  | S fuel =>
      match s with
      | [] => None
      | c :: s' =>
          if (c =? QUOTE)%N then
            '(t, rest) ← parse_string s';
            Some (JStr t, rest)
          else if (c =? LBRACKET)%N then
            match skip_ws s' with
            | [] => None
            | c' :: s'' =>
                if (c' =? RBRACKET)%N then Some (JList [], s'')
                else
                  '(l, rest) ← parse_items fuel (c' :: s'');
                  Some (JList l, rest)
            end
          else if (c =? LBRACE)%N then
            match skip_ws s' with
            | [] => None
            | c' :: s'' =>
                if (c' =? RBRACE)%N then Some (JObject [], s'')
                else
                  '(o, rest) ← parse_members fuel (c' :: s'');
                  Some (JObject (dict_of o), rest)
            end
          else parse_number s
      end
  end
with parse_items (fuel : nat) (s : str)
  : option (list (@json binary64) * str) :=
  match fuel with
  | O => None
  | S fuel =>
      '(v, s1) ← parse_value fuel s;
      match skip_ws s1 with
      | [] => None
      | c :: s2 =>
          if (c =? COMMA)%N then
            '(l, rest) ← parse_items fuel (skip_ws s2);
            Some (v :: l, rest)
          else if (c =? RBRACKET)%N then Some ([v], s2)
          else None
      end
  end
with parse_members (fuel : nat) (s : str)
  : option (list (str * @json binary64) * str) :=
  match fuel with
  | O => None
  | S fuel =>
      match s with
      | [] => None
      | q :: s0 =>
          if (q =? QUOTE)%N then
            '(k, s1) ← parse_string s0;
            match skip_ws s1 with
            | [] => None
            | c1 :: s2 =>
                if (c1 =? COLON)%N then
                  '(v, s3) ← parse_value fuel (skip_ws s2);
                  match skip_ws s3 with
                  | [] => None
                  | c3 :: s4 =>
                      if (c3 =? COMMA)%N then
                        '(o, rest) ← parse_members fuel (skip_ws s4);
                        Some ((k, v) :: o, rest)
                      else if (c3 =? RBRACE)%N then Some ([(k, v)], s4)
                      else None
                  end
                else None
            end
          else None
      end
  end.

(** [json.load] on a text: one value, with nothing but white space before
    and after it. *)
Definition json_load (text : str) : option (@json binary64) :=
  match parse_value (2 * length text + 2) (skip_ws text) with
  | Some (v, rest) =>
      match skip_ws rest with
      | [] => Some v
      | _ => None
      end
  | None => None
  end.

(** The encoder and the parser of the [json] module. *)
Definition python_json : JsonCodec := {|
  codec_encoder := indented_json;
  load := json_load
|}.

(** An analyzer fresh from [__init__] over the given files. *)
Definition fresh (texts : list (path * str)) : state :=
  {| files := list_to_map texts; dirs := ∅; results := [] |}.

Definition sample_text : str :=
  py "The Gospel
001:001 The cat sat on the mat.
001:002 The cat ran far away.".

(** The style metrics of the sample text. *)
Definition sample_metrics : StyleMetrics :=
  {| total_words := 11;
     unique_words := 8;
     lexical_diversity := Float 0x1.7460aa64c2f83p-1%float;
     vocabulary_size := 8;
     verse_count := 2;
     avg_words_per_verse := Float 5.5%float |}.

Definition mark_text : str :=
  py "001:001 The dog sat far away.
001:002 The cat ran.".

Definition luke_text : str :=
  py "Preface
001:001 A cat sat.
001:002 The mat was far away and the cat ran.".

Definition sample_files : list (path * str) :=
  [ ([py "home"; py "pg8828.txt"], sample_text);
    ([py "home"; py "pg8829.txt"], mark_text);
    ([py "home"; py "pg8830.txt"], luke_text) ].

(** A file in the layout of Project Gutenberg: a preamble, the text between
    the two markers, and a licence after the end marker. *)
Definition gutenberg_preamble : str := py "Title: Luke
".
Definition gutenberg_body : str := py "*** START OF THE PROJECT
001:001 The cat sat.
".
Definition gutenberg_licence : str := py " THE PROJECT
Licence".
Definition gutenberg_text : str :=
  gutenberg_preamble ++ gutenberg_body ++ end_marker ++ gutenberg_licence.

(** A file without any verse marker. *)
Definition preface_text : str := py "The Gospel
according to Luke".

(** The same files without the text of Mark. *)
Definition missing_files : list (path * str) :=
  [ ([py "home"; py "pg8828.txt"], sample_text);
    ([py "home"; py "pg8830.txt"], luke_text) ].

(** What [run_analysis] returns on the sample files, and the analyzer it
    leaves. *)
Definition sample_run : result AnalysisReport * state :=
  Eval vm_compute in run_analysis [py "home"] (fresh sample_files).

(** The analyzer once [run_analysis] has analyzed the three files. *)
Definition analyzed : state :=
  (analyze_each [py "home"] gospel_files (fresh sample_files)).2.

(** The filtered tokens of the three sample texts. *)
Definition matthew_tokens : list str :=
  py <$> ["cat"; "sat"; "mat"; "cat"; "ran"; "far"; "away"]%string.
Definition mark_tokens : list str :=
  py <$> ["dog"; "sat"; "far"; "away"; "cat"; "ran"]%string.
Definition luke_tokens : list str :=
  py <$> ["cat"; "sat"; "mat"; "far"; "away"; "cat"; "ran"]%string.

(** ** Auxiliary notions for the further properties *)

(** The verse lines from the text [s] on: the line that [s] starts counts
    only when [start] says that [s] begins a line. *)
Fixpoint count_verses `{Unicode} (start : bool) (s : str) : nat :=
  match s with
  | [] => O
  | c :: s' =>
      ((if start && bool_decide (verse_line s) then 1 else 0)
       + count_verses (c =? NEWLINE)%N s')%nat
  end.

(** The part of the text that [load_gospel] keeps when it has cut at the
    markers, before it drops the header. *)
Definition cut_at_markers (text : str) : str :=
  let start_idx := find text start_marker in
  let end_idx := find text end_marker in
  let text := if decide (start_idx ≠ -1) then slice_from text start_idx
              else text in
  if decide (end_idx ≠ -1) then slice_to text end_idx else text.

(** A line of the text [s] starts with a verse marker: the text itself
    does, or what follows one of its newlines. *)
Definition has_verse `{Unicode} (s : str) : Prop :=
  verse_line s ∨ ∃ i, s !! i = Some NEWLINE ∧ verse_line (drop (S i) s).

(** [sum(e['count'] for e in entries)] *)
Definition total_count (entries : list Freq.entry) : Z :=
  foldr (λ e acc, Freq.count e + acc) 0 entries.

(** What may follow a number: no digit and no point. *)
Definition delimited (rest : str) : Prop :=
  match rest with
  | [] => True
  | c :: _ => ascii_isdecimal c = false ∧ c ≠ DOT
  end.

(** The characters a value may start with: a digit, a quote, a bracket, a
    brace, a sign, and the [N] and [I] of the constants. *)
Definition starts_value (c : char) : bool :=
  ascii_isdecimal c
  || bool_decide (c ∈ [QUOTE; LBRACKET; LBRACE; MINUS; 78%N; 73%N]).

(** What the encoder writes for one key of an object and its value. *)
Definition encode_member (level : nat) (kv : str * @json binary64) : str :=
  QUOTE :: (kv.1 ≫= escape_char)
  ++ QUOTE :: COLON :: 32%N :: encode level kv.2.

(** The parser reads the text of [v], at any nesting level and before any
    rest that can follow a value, as a value like [v]. *)
Definition parses_back (v : @json binary64) : Prop :=
  json_wf v = true →
  ∀ level fuel rest,
    delimited rest →
    (2 * length (encode level v ++ rest) < fuel)%nat →
    ∃ v', parse_value fuel (encode level v ++ rest) = Some (v', rest) ∧
          json_alike v v'.

(** * Properties *)

(** ** Strings *)

Lemma startswith_prefix (sub s : str) :
  startswith sub s = true ↔ sub `prefix_of` s.
Proof.
  revert s. induction sub as [|a sub IH]; intros s; simpl.
  - split; [intros _; apply prefix_nil | done].
  - destruct s as [|b s].
    + split; [done | intros [k Hk]; discriminate].
    + rewrite andb_true_iff, N.eqb_eq, IH. split.
      * intros [-> Hp]. by apply prefix_cons.
      * intros Hp. split; [by eapply prefix_cons_inv_1 | by eapply prefix_cons_inv_2].
Qed.

Lemma find_from_absent (sub s : str) (i : Z) :
  0 ≤ i → find_from sub s i = -1 ↔ ¬ occurs sub s.
Proof.
  revert i. induction s as [|c s IH]; intros i Hi; simpl.
  - destruct (startswith sub []) eqn:Hs.
    + apply startswith_prefix in Hs as [k Hk]. split; [lia |].
      intros Hn. destruct Hn. exists [], k. done.
    + split; [intros _ | done]. intros (a & b & Hab).
      destruct a; [|done]. destruct sub; [|done]. done.
  - destruct (startswith sub (c :: s)) eqn:Hs.
    + apply startswith_prefix in Hs as [k Hk]. split; [lia |].
      intros Hn. destruct Hn. exists [], k. done.
    + rewrite IH by lia. split.
      * intros Hn (a & b & Hab). destruct a as [|a0 a].
        -- assert (startswith sub (c :: s) = true) as Ht; [|congruence].
           apply startswith_prefix. exists b. done.
        -- apply Hn. exists a, b. by simplify_eq/=.
      * intros Hn (a & b & Hab). apply Hn. exists (c :: a), b.
        by rewrite Hab.
Qed.

Lemma find_absent (s sub : str) : find s sub = -1 ↔ ¬ occurs sub s.
Proof. by apply find_from_absent. Qed.

Lemma split_not_nil (sep : char) (s : str) : split sep s ≠ [].
Proof.
  induction s as [|c s IH]; simpl; [done |].
  destruct (c =? sep)%N; [done |]. by destruct (split sep s).
Qed.

Lemma join_cons (sep l : str) (ls : list str) :
  ls ≠ [] → join sep (l :: ls) = l ++ sep ++ join sep ls.
Proof. by destruct ls. Qed.

(** Joining the lines of a text with the separator gives the text back. *)
Lemma join_split (sep : char) (s : str) : join [sep] (split sep s) = s.
Proof.
  induction s as [|c s IH]; simpl; [done |].
  destruct (c =? sep)%N eqn:Hc.
  - apply N.eqb_eq in Hc as ->.
    rewrite join_cons by apply split_not_nil. by rewrite IH.
  - pose proof (split_not_nil sep s) as Hne.
    destruct (split sep s) as [|l ls]; [done |].
    destruct ls as [|l' ls]; simpl in *; by rewrite <-IH.
Qed.

(** ** The loader *)

Section Loader.
Context `{Unicode}.

(** What [re.match] accepts as the start of a verse. *)
Lemma verse_line_spec (line : str) :
  verse_line line ↔
  ∃ d1 d2 d3 d4 d5 d6 rest,
    line = d1 :: d2 :: d3 :: COLON :: d4 :: d5 :: d6 :: rest ∧
    Forall (λ d, isdecimal d = true) [d1; d2; d3; d4; d5; d6].
Proof.
  unfold verse_line, re_match, verse_re. simpl. split.
  - destruct line as [|d1 [|d2 [|d3 [|c [|d4 [|d5 [|d6 rest]]]]]]];
      simpl; try by intros [? ?].
    match goal with |- context [if ?b then Some _ else None] =>
      destruct b eqn:Hd end; [|by intros [? ?]].
    intros _. rewrite !andb_true_iff, N.eqb_eq in Hd.
    destruct Hd as [[[[[[? ?] ?] ->] ?] ?] ?].
    exists d1, d2, d3, d4, d5, d6, rest.
    split; [done |]. repeat constructor; done.
  - intros (d1 & d2 & d3 & d4 & d5 & d6 & rest & -> & Hd).
    repeat (apply Forall_cons in Hd as [-> Hd]). simpl. by eexists.
Qed.

Lemma foldl_header_step_kept (clean lines : list str) :
  foldl header_step (false, clean) lines = (false, clean ++ lines).
Proof.
  revert clean. induction lines as [|l ls IH]; intros clean; simpl.
  - by rewrite app_nil_r.
  - rewrite IH. by rewrite <-app_assoc.
Qed.

Lemma foldl_header_step_skipping (lines : list str) :
  (foldl header_step (true, []) lines).2 = drop_header lines.
Proof.
  induction lines as [|l ls IH]; simpl; [done |].
  destruct (bool_decide (verse_line l)); simpl.
  - by rewrite foldl_header_step_kept.
  - done.
Qed.

Lemma drop_header_split (lines : list str) :
  ∃ header,
    lines = header ++ drop_header lines ∧
    Forall (λ l, ¬ verse_line l) header ∧
    match drop_header lines with
    | [] => True
    | line :: _ => verse_line line
    end.
Proof.
  induction lines as [|l ls (header & Hls & Hh & Hb)]; simpl.
  - by exists [].
  - destruct (bool_decide (verse_line l)) eqn:Hl.
    + exists []. split_and!; [done | constructor |].
      by apply bool_decide_eq_true in Hl.
    + exists (l :: header). split_and!; [simpl; by f_equal | | done].
      constructor; [|done]. by apply bool_decide_eq_false in Hl.
Qed.

Lemma drop_header_none (lines : list str) :
  Forall (λ l, ¬ verse_line l) lines → drop_header lines = [].
Proof.
  induction 1 as [|l ls Hl _ IH]; simpl; [done |].
  by rewrite bool_decide_eq_false_2.
Qed.

Lemma clean_gospel_without_markers (text : str) :
  ¬ occurs start_marker text → ¬ occurs end_marker text →
  clean_gospel text = join [NEWLINE] (drop_header (split NEWLINE text)).
Proof.
  intros Hs He. unfold clean_gospel.
  apply find_absent in Hs, He. rewrite Hs, He.
  rewrite !decide_False by (intros Hn; by apply Hn).
  rewrite <-foldl_header_step_skipping.
  by destruct (foldl header_step _ _).
Qed.

End Loader.

(** C1 (as amended).  On a text with neither marker, [load_gospel] cuts the
    text into its lines, a header without verse line followed by a body
    that is empty or starts with a verse line, and returns the body joined
    again, the file system and the analyzer untouched.  When no line is a
    verse line the header is the whole text and the result is the empty
    string. *)
Theorem load_gospel_strips_header `{Unicode} `{Floats}
    (base_path filename : path) (text : str) (st : state) :
  files st !! (base_path ++ filename) = Some text →
  ¬ occurs start_marker text →
  ¬ occurs end_marker text →
  ∃ header body,
    split NEWLINE text = header ++ body ∧
    text = join [NEWLINE] (header ++ body) ∧
    Forall (λ l, ¬ verse_line l) header ∧
    match body with [] => True | line :: _ => verse_line line end ∧
    load_gospel base_path filename st = (Ok (join [NEWLINE] body), st) ∧
    (Forall (λ l, ¬ verse_line l) (split NEWLINE text) →
     load_gospel base_path filename st = (Ok [], st)).
Proof.
  intros Hfile Hs He.
  destruct (drop_header_split (split NEWLINE text)) as (header & Hl & Hh & Hb).
  assert (load_gospel base_path filename st
          = (Ok (join [NEWLINE] (drop_header (split NEWLINE text))), st)) as Hload.
  { unfold load_gospel, read_text, mbind, M_bind, mret, M_ret.
    rewrite Hfile. by rewrite clean_gospel_without_markers. }
  exists header, (drop_header (split NEWLINE text)).
  split_and!; [done | | done | done | done |].
  - rewrite <-Hl. by rewrite join_split.
  - intros Hnone. by rewrite Hload, drop_header_none.
Qed.

Lemma load_gospel_strips_header_witness :
  ∃ header body,
    split NEWLINE sample_text = header ++ body ∧
    sample_text = join [NEWLINE] (header ++ body) ∧
    Forall (λ l, ¬ verse_line l) header ∧
    match body with [] => True | line :: _ => verse_line line end ∧
    load_gospel [py "home"] [py "pg8828.txt"] (fresh sample_files)
    = (Ok (join [NEWLINE] body), fresh sample_files) ∧
    (Forall (λ l, ¬ verse_line l) (split NEWLINE sample_text) →
     load_gospel [py "home"] [py "pg8828.txt"] (fresh sample_files)
     = (Ok [], fresh sample_files)).
Proof.
  apply (load_gospel_strips_header [py "home"] [py "pg8828.txt"] sample_text
           (fresh sample_files)).
  - vm_compute. reflexivity.
  - apply find_absent. vm_compute. reflexivity.
  - apply find_absent. vm_compute. reflexivity.
Defined.

(** C1 as stated fails: a text with no marker and no verse line is not
    returned unchanged, the loader returns the empty string. *)
Lemma load_gospel_unchanged_counterexample :
  let st := fresh [([py "home"; py "pg8828.txt"], py "Preface")] in
  ¬ occurs start_marker (py "Preface") ∧
  ¬ occurs end_marker (py "Preface") ∧
  Forall (λ l, ¬ verse_line l) (split NEWLINE (py "Preface")) ∧
  load_gospel [py "home"] [py "pg8828.txt"] st = (Ok [], st) ∧
  load_gospel [py "home"] [py "pg8828.txt"] st ≠ (Ok (py "Preface"), st).
Proof.
  assert (Forall (λ l, ¬ verse_line l) (split NEWLINE (py "Preface"))) as Hn.
  { repeat constructor. vm_compute. by intros [? ?]. }
  assert (¬ occurs start_marker (py "Preface")) as Hs
    by (apply find_absent; vm_compute; reflexivity).
  assert (¬ occurs end_marker (py "Preface")) as He
    by (apply find_absent; vm_compute; reflexivity).
  intros st. split_and!; [done | done | done | |].
  - unfold load_gospel, read_text, mbind, M_bind, mret, M_ret.
    replace (files st !! ([py "home"] ++ [py "pg8828.txt"]))
      with (Some (py "Preface")) by (vm_compute; reflexivity).
    rewrite clean_gospel_without_markers by done. by rewrite drop_header_none.
  - unfold load_gospel, read_text, mbind, M_bind, mret, M_ret.
    replace (files st !! ([py "home"] ++ [py "pg8828.txt"]))
      with (Some (py "Preface")) by (vm_compute; reflexivity).
    rewrite clean_gospel_without_markers by done. rewrite drop_header_none by done.
    simpl. intros Heq. inversion Heq.
Qed.

(** ** The tokenizer *)

Section Words.
Context `{Unicode}.

Lemma is_az_ascii (c : char) : is_az c = true → is_ascii c.
Proof.
  unfold is_az, is_ascii. rewrite andb_true_iff, !N.leb_le. lia.
Qed.

Lemma az_is_word (c : char) : is_az c = true → is_word c = true.
Proof.
  intros Hc. unfold is_word.
  rewrite isalnum_ascii by by apply is_az_ascii.
  unfold ascii_isalnum. rewrite Hc. by rewrite orb_true_r.
Qed.

(** The letters the greedy run takes, and the character that stops it. *)
Lemma az_run_letters (s : str) (k : nat) :
  (k < az_run s)%nat → ∃ c, s !! k = Some c ∧ is_az c = true.
Proof.
  revert k. induction s as [|c s IH]; intros k; simpl; [lia |].
  destruct (is_az c) eqn:Hc; [|lia].
  destruct k as [|k]; simpl; [eauto |]. intros Hk. apply IH. lia.
Qed.

Lemma az_run_length (s : str) : (az_run s ≤ length s)%nat.
Proof.
  induction s as [|c s IH]; simpl; [lia |]. destruct (is_az c); simpl; lia.
Qed.

(** A stretch of letters from the start is within the greedy run. *)
Lemma az_run_ge (s : str) (j : nat) :
  (∀ k, (k < j)%nat → ∃ c, s !! k = Some c ∧ is_az c = true) →
  (j ≤ az_run s)%nat.
Proof.
  revert s. induction j as [|j IH]; intros s Hj; [lia |].
  destruct (Hj 0%nat) as (c & Hc & Haz); [lia |].
  destruct s as [|c' s]; [done |]. simpl in Hc. injection Hc as ->.
  simpl. rewrite Haz. apply le_n_S, IH. intros k Hk.
  apply (Hj (S k)). lia.
Qed.

Lemma backtrack_Some (s : str) (n j : nat) :
  backtrack s n = Some j →
  (0 < j ≤ n)%nat ∧ word_boundary (s !! Nat.pred j) (s !! j) = true.
Proof.
  induction n as [|n IH]; simpl; [done |].
  destruct (word_boundary (s !! n) (s !! S n)) eqn:Hb.
  - intros [= <-]. split; [lia | done].
  - intros Hj. destruct (IH Hj). split; [lia | done].
Qed.

(** [\b[a-z]+\b] matches at a position exactly when a run of letters
    starts there with no word character before it and none after it; the
    match is the whole run. *)
Lemma word_re_Some (prev : option char) (s : str) (j : nat) :
  word_re prev s = Some j ↔
  j = az_run s ∧ (0 < j)%nat ∧
  is_word_opt prev = false ∧ is_word_opt (s !! j) = false.
Proof.
  unfold word_re. split.
  - destruct (word_boundary prev (head s)) eqn:Hb; [|done].
    intros Hj. apply backtrack_Some in Hj as [[Hj0 Hjn] Hbj].
    destruct (az_run_letters s (Nat.pred j)) as (c & Hc & Haz); [lia |].
    unfold word_boundary in Hbj. rewrite Hc in Hbj. simpl in Hbj.
    rewrite (az_is_word _ Haz) in Hbj. simpl in Hbj.
    apply negb_true_iff in Hbj.
    assert (j = az_run s) as Hjeq.
    { destruct (decide (j = az_run s)) as [|Hne]; [done |].
      destruct (az_run_letters s j) as (c' & Hc' & Haz'); [lia |].
      rewrite Hc' in Hbj. simpl in Hbj.
      by rewrite (az_is_word _ Haz') in Hbj. }
    split_and!; [done | done | | done].
    destruct (az_run_letters s 0) as (c0 & Hc0 & Haz0); [lia |].
    unfold word_boundary in Hb. rewrite head_lookup, Hc0 in Hb. simpl in Hb.
    rewrite (az_is_word _ Haz0) in Hb. rewrite xorb_true_r in Hb.
    by apply negb_true_iff in Hb.
  - intros (-> & Hpos & Hprev & Hnext).
    destruct (az_run_letters s 0) as (c0 & Hc0 & Haz0); [lia |].
    unfold word_boundary at 1. rewrite head_lookup, Hc0. simpl.
    rewrite Hprev, (az_is_word _ Haz0). simpl.
    destruct (az_run s) as [|n] eqn:Hn; [lia |]. simpl.
    destruct (az_run_letters s n) as (c & Hc & Haz); [lia |].
    unfold word_boundary. rewrite Hc, Hnext. simpl.
    by rewrite (az_is_word _ Haz).
Qed.

Lemma word_re_nil (prev : option char) : word_re prev [] = None.
Proof. unfold word_re. simpl. by destruct (word_boundary prev None). Qed.


Lemma scan_word_re_nil (skip : nat) (prev : option char) :
  scan word_re skip prev [] = [].
Proof.
  destruct skip; [|done]. pose proof (word_re_nil prev) as Hn.
  simpl. by rewrite Hn.
Qed.

Lemma run_at_shift (prev : option char) (c : char) (s : str) (i j : nat) :
  run_at prev (c :: s) (S i) (S j) ↔ run_at (Some c) s i j.
Proof.
  unfold run_at. simpl. split.
  - intros (Hij & Hl & Hb & He).
    split; [lia | split; [| split; [by destruct i | done]]].
    intros k Hk. apply (Hl (S k)). lia.
  - intros (Hij & Hl & Hb & He).
    split; [lia | split; [| split; [by destruct i | done]]].
    intros [|k] Hk; [lia |]. apply Hl. lia.
Qed.

Lemma run_at_start (prev : option char) (s : str) (j : nat) :
  run_at prev s 0 j ↔ word_re prev s = Some j.
Proof.
  rewrite word_re_Some. unfold run_at. split.
  - intros (Hij & Hl & Hb & He).
    assert (j ≤ az_run s)%nat as Hle.
    { apply az_run_ge. intros k Hk. apply Hl. lia. }
    split; [| split; [lia | done]].
    destruct (decide (j = az_run s)) as [|Hne]; [done |].
    destruct (az_run_letters s j) as (c & Hc & Haz); [lia |].
    rewrite Hc in He. simpl in He. by rewrite (az_is_word _ Haz) in He.
  - intros (-> & Hpos & Hb & He).
    pose proof (az_run_length s).
    split; [lia | split; [| done]].
    intros k Hk. apply az_run_letters. lia.
Qed.

Lemma passing_no_run (prev : option char) (s : str) (skip i j : nat) :
  passing prev s skip → run_at prev s i j → (skip ≤ i)%nat.
Proof.
  intros [-> | [Hp Hs]] (_ & _ & Hb & _); [lia |].
  destruct (decide (skip ≤ i)%nat); [done |].
  destruct i as [|i]; [congruence |].
  rewrite Hs in Hb by lia. done.
Qed.

Lemma passing_next (prev : option char) (c : char) (s : str) (skip : nat) :
  passing prev (c :: s) (S skip) → passing (Some c) s skip.
Proof.
  intros [|[_ Hs]]; [done |].
  destruct skip as [|skip]; [by left | right]. split.
  - apply (Hs 0%nat). lia.
  - intros k Hk. apply (Hs (S k)). lia.
Qed.

Lemma passing_match (prev : option char) (c : char) (s : str) (j : nat) :
  word_re prev (c :: s) = Some j → passing (Some c) s (Nat.pred j).
Proof.
  intros Hm. apply word_re_Some in Hm as (-> & Hpos & _ & _).
  destruct (Nat.pred (az_run (c :: s))) as [|n] eqn:Hn; [by left | right].
  assert (∀ k, (k < az_run (c :: s))%nat →
               is_word_opt ((c :: s) !! k) = true) as Hw.
  { intros k Hk. destruct (az_run_letters _ _ Hk) as (c' & -> & Haz).
    by apply az_is_word. }
  split.
  - apply (Hw 0%nat). lia.
  - intros k Hk. apply (Hw (S k)). lia.
Qed.


Lemma substr_0 (s : str) (j : nat) : substr s 0 j = take j s.
Proof. unfold substr. by rewrite Nat.sub_0_r. Qed.

Lemma substr_shift (c : char) (s : str) (spans : list (nat * nat)) :
  (λ '(i, j), substr (c :: s) i j) <$> (shift <$> spans)
  = (λ '(i, j), substr s i j) <$> spans.
Proof.
  rewrite <-list_fmap_compose. apply list_fmap_ext. by intros _ [i j] _.
Qed.

(** The runs that start after the first character are those of the rest
    of the text. *)
Lemma shift_runs (prev : option char) (c : char) (s : str)
    (spans : list (nat * nat)) :
  (∀ i j, (i, j) ∈ spans ↔ run_at (Some c) s i j) →
  ∀ i j, (i, j) ∈ shift <$> spans ↔ i ≠ 0%nat ∧ run_at prev (c :: s) i j.
Proof.
  intros Hspans i j. rewrite list_elem_of_fmap. split.
  - intros ([i' j'] & [= -> ->] & Hin). split; [done |].
    apply run_at_shift. by apply Hspans.
  - intros [Hi Hrun]. destruct i as [|i]; [done |].
    destruct j as [|j]; [destruct Hrun; lia |].
    exists (i, j). split; [done |]. apply Hspans. by eapply run_at_shift.
Qed.

Lemma scan_word_re_spans (s : str) (skip : nat) (prev : option char) :
  passing prev s skip →
  ∃ spans,
    scan word_re skip prev s = (λ '(i, j), substr s i j) <$> spans ∧
    StronglySorted (λ a b, (a.2 ≤ b.1)%nat) spans ∧
    ∀ i j, (i, j) ∈ spans ↔ run_at prev s i j.
Proof.
  revert skip prev. induction s as [|c s IH]; intros skip prev Hpass.
  { exists []. split_and!.
    - by rewrite scan_word_re_nil.
    - constructor.
    - intros i j. split; [by intros ?%elem_of_nil |].
      intros ([? ?] & _). simpl in *. lia. }
  destruct skip as [|skip]; simpl.
  - destruct (word_re prev (c :: s)) as [j0|] eqn:Hm.
    + destruct (IH (Nat.pred j0) (Some c)) as (spans & Hscan & Hsorted & Hspans);
        [by eapply passing_match |].
      exists ((0%nat, j0) :: (shift <$> spans)). split_and!.
      * by rewrite Hscan, fmap_cons, substr_shift, substr_0.
      * constructor.
        -- eapply StronglySorted_fmap; [|done]. intros [??] [??]; simpl; lia.
        -- apply Forall_fmap, Forall_forall. intros [i j] Hin. simpl.
           apply Hspans in Hin.
           pose proof (passing_no_run _ _ _ _ _ (passing_match _ _ _ _ Hm) Hin).
           lia.
      * intros i j. rewrite elem_of_cons, (shift_runs prev) by done. split.
        -- intros [[= -> ->] | [_ Hrun]]; [by apply run_at_start | done].
        -- intros Hrun. destruct i as [|i]; [left | by right].
           apply run_at_start in Hrun. congruence.
    + destruct (IH 0%nat (Some c)) as (spans & Hscan & Hsorted & Hspans);
        [by left |].
      exists (shift <$> spans). split_and!.
      * by rewrite Hscan, substr_shift.
      * eapply StronglySorted_fmap; [|done]. intros [??] [??]; simpl; lia.
      * intros i j. rewrite (shift_runs prev) by done. split; [by intros [_ ?] |].
        intros Hrun. split; [|done]. intros ->.
        apply run_at_start in Hrun. congruence.
  - destruct (IH skip (Some c)) as (spans & Hscan & Hsorted & Hspans);
      [by eapply passing_next |].
    exists (shift <$> spans). split_and!.
    + by rewrite Hscan, substr_shift.
    + eapply StronglySorted_fmap; [|done]. intros [??] [??]; simpl; lia.
    + intros i j. rewrite (shift_runs prev) by done. split; [by intros [_ ?] |].
      intros Hrun. split; [|done].
      pose proof (passing_no_run _ _ _ _ _ Hpass Hrun). lia.
Qed.


End Words.

(** *** ASCII text: the tables of the interpreter do not matter *)

Section Ascii.
Context `{Unicode}.

Lemma is_word_ascii (c : char) :
  is_ascii c → is_word c = @is_word ascii_text c.
Proof. intros Hc. unfold is_word. by rewrite isalnum_ascii. Qed.

Lemma is_word_opt_ascii (c : option char) :
  from_option is_ascii True c → is_word_opt c = @is_word_opt ascii_text c.
Proof. destruct c; simpl; [apply is_word_ascii | done]. Qed.

Lemma lookup_ascii (s : str) (i : nat) :
  Forall is_ascii s → from_option is_ascii True (s !! i).
Proof.
  intros Hs. destruct (s !! i) as [c|] eqn:Hc; simpl; [|done].
  by eapply Forall_lookup_1.
Qed.

Lemma word_re_ascii (prev : option char) (s : str) :
  from_option is_ascii True prev → Forall is_ascii s →
  word_re prev s = @word_re ascii_text prev s.
Proof.
  intros Hp Hs. unfold word_re, word_boundary.
  rewrite (is_word_opt_ascii prev) by done.
  rewrite (is_word_opt_ascii (head s)) by (rewrite head_lookup; by apply lookup_ascii).
  destruct (xorb _ _); [|done].
  induction (az_run s) as [|n IH]; simpl; [done |].
  unfold word_boundary.
  rewrite (is_word_opt_ascii (s !! n)), (is_word_opt_ascii (s !! S n))
    by by apply lookup_ascii.
  by rewrite IH.
Qed.

Lemma scan_word_re_ascii (s : str) (skip : nat) (prev : option char) :
  from_option is_ascii True prev → Forall is_ascii s →
  scan word_re skip prev s = scan (@word_re ascii_text) skip prev s.
Proof.
  revert skip prev. induction s as [|c s IH]; intros skip prev Hp Hs.
  - by rewrite !scan_word_re_nil.
  - pose proof (Forall_inv Hs) as Hc. pose proof (Forall_inv_tail Hs) as Hs'.
    destruct skip; simpl.
    + rewrite word_re_ascii by done.
      destruct (@word_re ascii_text prev (c :: s)); by rewrite IH.
    + by rewrite IH.
Qed.

Lemma ascii_lower_ascii (s : str) :
  Forall is_ascii s → Forall is_ascii (ascii_lower s).
Proof.
  unfold ascii_lower. intros Hs. apply Forall_fmap. eapply Forall_impl; [done |].
  intros c Hc. simpl. destruct (ascii_isupper c) eqn:Hu; [|done].
  unfold ascii_isupper in Hu. unfold is_ascii in *.
  rewrite andb_true_iff, !N.leb_le in Hu. lia.
Qed.

(** On ASCII text the words are those found with the ASCII tables. *)
Lemma lower_words_ascii (text : str) :
  Forall is_ascii text → lower_words text = @lower_words ascii_text text.
Proof.
  intros Ht. unfold lower_words, findall. rewrite lower_ascii by done. simpl.
  apply scan_word_re_ascii; [done |]. by apply ascii_lower_ascii.
Qed.

Lemma py_ascii (s : string) :
  Forall (λ a, Ascii.N_of_ascii a < 128)%N (String.list_ascii_of_string s) →
  Forall is_ascii (py s).
Proof. intros Hs. unfold py. by apply Forall_fmap. Qed.

End Ascii.

Section Tokens.
Context `{Unicode}.

Lemma run_at_letters (prev : option char) (s : str) (i j : nat) :
  run_at prev s i j →
  substr s i j ≠ [] ∧ Forall (λ c, is_az c = true) (substr s i j).
Proof.
  intros (Hij & Hl & _). unfold substr. split.
  - intros Hnil. apply (f_equal length) in Hnil.
    rewrite length_take, length_drop in Hnil. simpl in Hnil. lia.
  - apply Forall_lookup. intros k c Hk.
    apply lookup_take_Some in Hk as [Hk Hlt]. rewrite lookup_drop in Hk.
    destruct (Hl (i + k)%nat) as (c' & Hc' & Haz); [lia |]. congruence.
Qed.

End Tokens.


(** C2 (as amended).  The candidate tokens of [tokenize_and_clean] are, in
    text order, exactly the runs of letters [a]-[z] of the lowercased text
    that have no word character (letter, digit or underscore) directly
    before or after them.  So a token holds letters only and is never
    empty.  In particular "don't" yields "don" and "t". *)
Theorem lower_words_bounded_runs `{Unicode} `{Stopwords} :
  (∀ text : str,
     tokenize_and_clean text
     = filter (λ w, (w ∉ stop_words) ∧ (2 < length w)%nat) (lower_words text) ∧
     (∃ spans,
        lower_words text = (λ '(i, j), substr (lower text) i j) <$> spans ∧
        StronglySorted (λ a b, (a.2 ≤ b.1)%nat) spans ∧
        ∀ i j, (i, j) ∈ spans ↔ bounded_run (lower text) i j) ∧
     Forall (λ w, w ≠ [] ∧ Forall (λ c, is_az c = true) w) (lower_words text)) ∧
  lower_words (py "don't") = [py "don"; py "t"].
Proof.
  split.
  - intros text. split; [done |].
    destruct (scan_word_re_spans (lower text) 0 None) as (spans & Hw & Hs & Hr);
      [by left |].
    split; [by exists spans |].
    unfold lower_words, findall. rewrite Hw.
    apply Forall_fmap, Forall_forall. intros [i j] Hin. simpl.
    eapply run_at_letters. by apply Hr.
  - rewrite lower_words_ascii; [by vm_compute |].
    apply py_ascii. vm_compute. repeat constructor.
Qed.

(** C2 as stated fails: the run "abc" of "abc123" is a maximal run of
    letters, and it is not a candidate token, the digit after it leaves no
    word boundary. *)
Lemma lower_words_letter_runs_counterexample :
  letter_runs [] (lower (py "abc123")) = [py "abc"] ∧
  lower_words (py "abc123") = [] ∧
  tokenize_and_clean (py "abc123") = [].
Proof. by vm_compute. Qed.

Lemma list_count_filter (P : str → Prop) `{∀ x, Decision (P x)}
    (w : str) (l : list str) :
  P w → list_count w (filter P l) = list_count w l.
Proof.
  intros Hw. unfold list_count. f_equal. f_equal.
  rewrite list_filter_filter. apply list_filter_iff.
  intros x. split; [by intros [? ?] |]. by intros <-.
Qed.

(** C3.  No token that [tokenize_and_clean] returns has two characters or
    fewer, none is a stopword; the tokens returned are the candidate
    tokens with some left out, in the same order.  What is left out is
    nothing but the stopwords and the tokens of two characters or fewer:
    a token is returned exactly when it is a candidate of more than two
    characters that is no stopword, and every such token is returned as
    often as it is a candidate. *)
Theorem tokenize_and_clean_keeps_order `{Unicode} `{Stopwords} (text : str) :
  Forall (λ w, ¬ (length w ≤ 2)%nat ∧ (w ∉ stop_words) ∧ (w ∉ english))
    (tokenize_and_clean text) ∧
  tokenize_and_clean text `sublist_of` lower_words text ∧
  (∀ w, w ∈ tokenize_and_clean text →
        list_count w (tokenize_and_clean text)
        = list_count w (lower_words text)) ∧
  (∀ w, w ∈ tokenize_and_clean text ↔
        w ∈ lower_words text ∧ (w ∉ stop_words) ∧ (2 < length w)%nat) ∧
  (∀ w, w ∉ stop_words → (2 < length w)%nat →
        list_count w (tokenize_and_clean text)
        = list_count w (lower_words text)).
Proof.
  assert (∀ w, w ∉ stop_words ↔ w ∉ english) as Hstop.
  { intros w. unfold stop_words. by rewrite elem_of_list_to_set. }
  unfold tokenize_and_clean. split_and!.
  - apply Forall_forall. intros w [[Hs Hl] _]%list_elem_of_filter.
    split_and!; [lia | done | by apply Hstop].
  - apply sublist_filter.
  - intros w [Hw _]%list_elem_of_filter. by apply list_count_filter.
  - intros w. rewrite list_elem_of_filter. tauto.
  - intros w Hw Hlen. by apply list_count_filter.
Qed.

(** ** Style metrics *)

Lemma size_list_to_set_le (l : list str) :
  (size (list_to_set l : gset str) ≤ length l)%nat.
Proof.
  induction l as [|x l IH].
  - by rewrite list_to_set_nil, size_empty.
  - rewrite list_to_set_cons, size_union_alt, size_singleton.
    assert (size (list_to_set l ∖ {[x]} : gset str)
            ≤ size (list_to_set l : gset str))%nat as Hle
      by (apply subseteq_size, subseteq_difference_l; done).
    simpl. lia.
Qed.

(** C4.  [calculate_style_metrics] never raises.  [lexical_diversity] is
    the [int] 0 when there is no word and otherwise the quotient of
    [unique_words] by [total_words] rounded to 4 decimals;
    [avg_words_per_verse] is the [int] 0 when there is no verse and
    otherwise the quotient of [total_words] by [verse_count] rounded to 2
    decimals.  Both counts are natural numbers, so "not zero" is
    "positive". *)
Theorem calculate_style_metrics_guarded `{Unicode} `{Floats}
    (text : str) (filtered_words : list str) :
  ∃ m, calculate_style_metrics text filtered_words = Ok m ∧
       0 ≤ total_words m ∧ 0 ≤ verse_count m ∧
       lexical_diversity m
       = (if decide (total_words m = 0) then Int 0
          else Float (round (truediv (unique_words m) (total_words m)) 4)) ∧
       avg_words_per_verse m
       = (if decide (verse_count m = 0) then Int 0
          else Float (round (truediv (total_words m) (verse_count m)) 2)).
Proof.
  unfold calculate_style_metrics, int_truediv.
  repeat case_decide; try lia; simpl; eexists; (split; [done |]); simpl;
    repeat case_decide; try lia; split_and!; try done; lia.
Qed.

(** C10.  In a record that [calculate_style_metrics] returns,
    [vocabulary_size] is [unique_words], and [unique_words] is at most
    [total_words]. *)
Theorem style_metrics_vocabulary `{Unicode} `{Floats}
    (text : str) (filtered_words : list str) (m : StyleMetrics) :
  calculate_style_metrics text filtered_words = Ok m →
  vocabulary_size m = unique_words m ∧ unique_words m ≤ total_words m.
Proof.
  unfold calculate_style_metrics, int_truediv.
  repeat case_decide; try lia; simpl; intros [= <-]; simpl;
    (split; [done |]); apply inj_le, size_list_to_set_le.
Qed.

Lemma style_metrics_vocabulary_witness :
  vocabulary_size sample_metrics = unique_words sample_metrics ∧
  unique_words sample_metrics ≤ total_words sample_metrics.
Proof.
  apply (style_metrics_vocabulary (clean_gospel sample_text) [] sample_metrics).
  reflexivity.
Defined.

(** ** Sorting by decreasing key *)

Section Sorting.
Context {A : Type} (key : A → Z).

Lemma insert_desc_perm (x : A) (l : list A) : insert_desc key x l ≡ₚ x :: l.
Proof.
  induction l as [|y l IH]; simpl; [done |].
  case_decide; [|done]. rewrite IH. apply Permutation_swap.
Qed.

Lemma sorted_desc_perm (l : list A) : sorted_desc key l ≡ₚ l.
Proof.
  induction l as [|x l IH]; simpl; [done |].
  by rewrite insert_desc_perm, IH.
Qed.

Lemma insert_desc_sorted (R : relation A) (x : A) (l : list A) :
  StronglySorted (desc_then key R) l → Forall (R x) l →
  StronglySorted (desc_then key R) (insert_desc key x l).
Proof.
  induction 1 as [|y l Hl IH Hy]; intros Hx; simpl.
  { repeat constructor. }
  apply Forall_cons in Hx as [Hxy Hx]. case_decide as Hlt.
  - constructor; [by apply IH |].
    rewrite insert_desc_perm. constructor; [by left | done].
  - constructor; [by constructor |]. constructor.
    + unfold desc_then. destruct (decide (key y < key x)); [by left | right].
      split; [lia | done].
    + rewrite Forall_forall in Hy, Hx. apply Forall_forall. intros z Hz.
      specialize (Hy z Hz). specialize (Hx z Hz). unfold desc_then in *.
      destruct (decide (key z < key x)); [by left | right].
      split; [lia | done].
Qed.

(** The sort is stable: it sorts by decreasing key, and elements with the
    same key stay in the order they had. *)
Lemma sorted_desc_stable (R : relation A) (l : list A) :
  StronglySorted R l → StronglySorted (desc_then key R) (sorted_desc key l).
Proof.
  induction 1 as [|x l Hl IH Hx]; simpl; [constructor |].
  apply insert_desc_sorted; [done |]. by rewrite sorted_desc_perm.
Qed.

Lemma StronglySorted_True (l : list A) : StronglySorted (λ _ _, True) l.
Proof.
  induction l; constructor; [done |]. by apply Forall_forall.
Qed.

Lemma sorted_desc_sorted (l : list A) :
  StronglySorted (λ a b, key b ≤ key a) (sorted_desc key l).
Proof.
  pose proof (sorted_desc_stable _ _ (StronglySorted_True l)) as Hs.
  clear -Hs. induction Hs as [|x l' _ IH Hx]; constructor; [done |].
  eapply Forall_impl; [done |]. unfold desc_then. simpl. intros; lia.
Qed.

End Sorting.

(** ** Counting words *)

Lemma list_count_snoc (k w : str) (ws : list str) :
  list_count k (ws ++ [w])
  = list_count k ws + (if decide (k = w) then 1 else 0).
Proof.
  unfold list_count. rewrite filter_app, length_app, Nat2Z.inj_add. f_equal.
  rewrite filter_cons, filter_nil. by case_decide.
Qed.

Lemma list_count_absent (k : str) (ws : list str) :
  k ∉ ws → list_count k ws = 0.
Proof.
  unfold list_count. induction ws as [|x ws IH]; [done |].
  intros [Hne Hk]%not_elem_of_cons.
  rewrite filter_cons, decide_False by done. by apply IH.
Qed.

Lemma first_index_app_l (a : str) (ws x : list str) :
  a ∈ ws → first_index a (ws ++ x) = first_index a ws.
Proof.
  induction ws as [|y ws IH]; simpl; [by intros ?%elem_of_nil |].
  intros Ha. case_decide; [done |]. f_equal. apply IH.
  apply elem_of_cons in Ha as [->|]; done.
Qed.

Lemma first_index_lt (a : str) (ws : list str) :
  a ∈ ws → (first_index a ws < length ws)%nat.
Proof.
  induction ws as [|y ws IH]; simpl; [by intros ?%elem_of_nil |].
  intros Ha. case_decide; [lia |]. apply ->Nat.succ_lt_mono. apply IH.
  apply elem_of_cons in Ha as [->|]; done.
Qed.

Lemma first_index_app_r (a : str) (ws x : list str) :
  a ∉ ws → first_index a (ws ++ x) = (length ws + first_index a x)%nat.
Proof.
  induction ws as [|y ws IH]; simpl; [done |].
  intros Ha. apply not_elem_of_cons in Ha as [Hne Ha].
  rewrite decide_False by done. by rewrite IH.
Qed.

Lemma first_index_here (a : str) (x : list str) :
  first_index a (a :: x) = 0%nat.
Proof. simpl. by rewrite decide_True. Qed.

Lemma StronglySorted_weaken {A} (R R' : relation A) (l : list A) :
  (∀ a b, a ∈ l → b ∈ l → R a b → R' a b) →
  StronglySorted R l → StronglySorted R' l.
Proof.
  intros HR Hs. induction Hs as [|x l Hs IH Hx]; constructor.
  - apply IH. intros a b Ha Hb. apply HR; by right.
  - rewrite Forall_forall in Hx. apply Forall_forall. intros b Hb.
    apply HR; [by left | by right | by apply Hx].
Qed.

Lemma StronglySorted_fmap_inv {A B} (f : A → B) (R : relation B) (l : list A) :
  StronglySorted R (f <$> l) → StronglySorted (λ a b, R (f a) (f b)) l.
Proof.
  induction l as [|x l IH]; simpl; [constructor |].
  intros [Hx Hs]%StronglySorted_cons. constructor; [by apply IH |].
  apply Forall_forall. intros b Hb. rewrite Forall_forall in Hx.
  apply Hx, list_elem_of_fmap. by exists b.
Qed.

Lemma dict_get_default_counts (f : str → Z) (ks : list str)
    (w : str) (d : Z) :
  dict_get_default ((λ k, (k, f k)) <$> ks) w d
  = if decide (w ∈ ks) then f w else d.
Proof.
  induction ks as [|k ks IH]; csimpl; [done |].
  destruct (decide (k = w)) as [->|Hne].
  - by rewrite decide_True by left.
  - rewrite IH. destruct (decide (w ∈ ks)) as [Hin|Hin].
    + by rewrite decide_True by by right.
    + rewrite decide_False; [done |].
      intros [?|?]%elem_of_cons; done.
Qed.

Lemma dict_set_counts (f g : str → Z) (ks : list str)
    (w : str) (v : Z) :
  NoDup ks → (∀ k, k ∈ ks → k ≠ w → g k = f k) → g w = v →
  dict_set ((λ k, (k, f k)) <$> ks) w v
  = (λ k, (k, g k)) <$> (if decide (w ∈ ks) then ks else ks ++ [w]).
Proof.
  intros Hnd Hg Hw. induction ks as [|k ks IH]; csimpl.
  { by rewrite Hw. }
  apply NoDup_cons in Hnd as [Hk Hnd].
  destruct (decide (k = w)) as [->|Hne].
  - rewrite decide_True by left. csimpl. rewrite Hw. f_equal.
    apply list_fmap_ext. intros _ k Hk'%list_elem_of_lookup_2.
    f_equal. symmetry. apply Hg; [by right |]. by intros ->.
  - rewrite IH; [| done | intros k' ? ?; apply Hg; [by right | done]].
    rewrite <-(Hg k) by (done || by left).
    destruct (decide (w ∈ ks)) as [Hin|Hin].
    + by rewrite decide_True by by right.
    + rewrite decide_False; [done |]. intros [?|?]%elem_of_cons; done.
Qed.

Lemma fmap_fst_counts (f : str → Z) (ks : list str) :
  ((λ k, (k, f k)) <$> ks).*1 = ks.
Proof. rewrite <-list_fmap_compose. apply list_fmap_id. Qed.

Lemma counts_of_add (ws : list str) (c : list (str * Z)) (w : str) :
  counts_of ws c → counts_of (ws ++ [w]) (counter_add c w).
Proof.
  intros (Hc & Hnd & Hin & Hs). unfold counter_add.
  set (ks := if decide (w ∈ c.*1) then c.*1 else c.*1 ++ [w]).
  assert (dict_set c w (dict_get_default c w 0 + 1)
          = (λ k, (k, list_count k (ws ++ [w]))) <$> ks) as Hset.
  { rewrite Hc at 1 2. rewrite dict_get_default_counts.
    apply dict_set_counts; [done | |].
    - intros k _ Hne. rewrite list_count_snoc. rewrite decide_False by done. lia.
    - rewrite list_count_snoc, decide_True by done.
      case_decide as Hw; [done |]. rewrite list_count_absent; [done |].
      by rewrite <-Hin. }
  assert ((dict_set c w (dict_get_default c w 0 + 1)).*1 = ks) as Hks
    by by rewrite Hset, fmap_fst_counts.
  unfold counts_of. rewrite Hks. split_and!; [done | | |].
  - unfold ks. case_decide; [done |].
    apply NoDup_app. split_and!; [done | | apply NoDup_singleton].
    intros k Hk ->%list_elem_of_singleton. done.
  - intros k. rewrite elem_of_app, list_elem_of_singleton, <-Hin.
    unfold ks. case_decide; [|by rewrite elem_of_app, list_elem_of_singleton].
    split; [by left |]. intros [?| ->]; done.
  - assert (StronglySorted (appears_first (ws ++ [w])) c.*1) as Hs'.
    { eapply StronglySorted_weaken; [|done].
      intros a b Ha Hb. unfold appears_first.
      rewrite !first_index_app_l by by apply Hin. done. }
    unfold ks. case_decide as Hw; [done |].
    apply StronglySorted_app_2; [| done | repeat constructor].
    intros a b Ha ->%list_elem_of_singleton. unfold appears_first.
    rewrite first_index_app_l by by apply Hin.
    rewrite first_index_app_r by by rewrite <-Hin.
    rewrite first_index_here. apply Hin, first_index_lt in Ha. lia.
Qed.

Lemma Counter_counts_of (words : list str) : counts_of words (Counter words).
Proof.
  induction words as [|w ws IH] using rev_ind.
  - split_and!; [done | constructor | done | constructor].
  - unfold Counter. rewrite foldl_app. simpl. by apply counts_of_add.
Qed.

Lemma size_list_to_set_NoDup (ks ws : list str) :
  NoDup ks → (∀ k, k ∈ ks ↔ k ∈ ws) →
  length ks = size (list_to_set ws : gset str).
Proof.
  intros Hnd Hin. rewrite <-(size_list_to_set (C:=gset str)) by done.
  f_equal. apply set_eq. intros k. by rewrite !elem_of_list_to_set.
Qed.

(** C5.  [get_top_words] returns the first [n] entries (none for a
    negative [n]) of a ranking that holds every distinct token once, with
    the number of its occurrences, ordered by decreasing count and, among
    equal counts, by first appearance in the input.  The ranking has as
    many entries as there are distinct tokens, so the result has
    [min n distinct] entries: all of them when [n] is no smaller. *)
Theorem get_top_words_ranking (words : list str) (n : Z) :
  ∃ ranking : list Freq.entry,
    (∀ e, e ∈ ranking ↔
          Freq.word e ∈ words ∧
          Freq.count e = list_count (Freq.word e) words) ∧
    NoDup (Freq.word <$> ranking) ∧
    StronglySorted (ranks_before words) ranking ∧
    length ranking = size (list_to_set words : gset str) ∧
    get_top_words words n = take (Z.to_nat n) ranking ∧
    length (get_top_words words n)
    = (Z.to_nat n `min` size (list_to_set words : gset str))%nat.
Proof.
  destruct (Counter_counts_of words) as (Hc & Hnd & Hin & Hs).
  set (c := Counter words) in *.
  set (ranking := (λ '(word, count), {| Freq.word := word; Freq.count := count |})
                    <$> sorted_desc snd c).
  assert (Freq.word <$> ranking = (sorted_desc snd c).*1) as Hwords.
  { unfold ranking. rewrite <-list_fmap_compose. apply list_fmap_ext.
    by intros _ [??] _. }
  assert (length ranking = size (list_to_set words : gset str)) as Hlen.
  { unfold ranking. rewrite length_fmap, sorted_desc_perm.
    rewrite <-(length_fmap fst). by apply size_list_to_set_NoDup. }
  assert (get_top_words words n = take (Z.to_nat n) ranking) as Htop.
  { unfold get_top_words, most_common, ranking. by rewrite fmap_take. }
  exists ranking. split_and!; [| | | done | done |].
  - intros [w k]. unfold ranking. rewrite list_elem_of_fmap. simpl. split.
    + intros ([w' k'] & [= -> ->] & Hp). rewrite sorted_desc_perm in Hp.
      rewrite Hc in Hp. apply list_elem_of_fmap in Hp as (k0 & [= -> ->] & Hk0).
      split; [by apply Hin | done].
    + intros [Hw ->]. exists (w, list_count w words). split; [done |].
      rewrite sorted_desc_perm, Hc. apply list_elem_of_fmap.
      exists w. split; [done |]. by apply Hin.
  - rewrite Hwords. by rewrite sorted_desc_perm.
  - pose proof (sorted_desc_stable snd _ _ (StronglySorted_fmap_inv fst _ _ Hs))
      as Hsorted.
    unfold ranking. eapply StronglySorted_fmap; [|exact Hsorted].
    intros [w1 k1] [w2 k2]. unfold ranks_before, desc_then. simpl. done.
  - by rewrite Htop, length_take, Hlen.
Qed.

(** ** The overlap *)

Lemma NoDup_appears_first (ks : list str) :
  NoDup ks → StronglySorted (appears_first ks) ks.
Proof.
  induction 1 as [|k ks Hk Hnd IH]; constructor.
  - eapply StronglySorted_weaken; [|done].
    intros a b Ha Hb. unfold appears_first. simpl.
    rewrite !decide_False by (intros ->; done). lia.
  - apply Forall_forall. intros b Hb. unfold appears_first. simpl.
    rewrite decide_True by done. rewrite decide_False by (intros ->; done). lia.
Qed.

Lemma StronglySorted_strict {A} (key : A → Z) (l : list A) :
  StronglySorted (λ a b, key b ≤ key a) l → NoDup (key <$> l) →
  StronglySorted (λ a b, key b < key a) l.
Proof.
  induction 1 as [|x l Hs IH Hx]; csimpl; [constructor |].
  intros [Hn Hnd]%NoDup_cons. constructor; [by apply IH |].
  rewrite Forall_forall in Hx. apply Forall_forall. intros b Hb.
  specialize (Hx b Hb). simpl in Hx.
  assert (key b ≠ key x); [|lia].
  intros Heq. apply Hn. rewrite <-Heq. apply list_elem_of_fmap. by exists b.
Qed.

Section Overlap.
Context `{SetOrder}.

Lemma iter_NoDup (s : gset str) : NoDup (iter s).
Proof. rewrite iter_elements. apply NoDup_elements. Qed.

Lemma elem_of_iter (s : gset str) (w : str) : w ∈ iter s ↔ w ∈ s.
Proof. rewrite iter_elements. apply elem_of_elements. Qed.

Lemma overlap_words (matthew mark luke : list str) :
  Overlap.word <$> overlap matthew mark luke
  ≡ₚ iter (list_to_set matthew ∩ list_to_set mark ∩ list_to_set luke).
Proof.
  unfold overlap. rewrite sorted_desc_perm, <-list_fmap_compose.
  by rewrite list_fmap_id.
Qed.

End Overlap.

Lemma overlap_order_of_ties (run1 run2 : SetOrder)
    (matthew mark luke : list str) :
  let common : gset str :=
    list_to_set matthew ∩ list_to_set mark ∩ list_to_set luke in
  let ties (run : SetOrder) : relation Overlap.entry :=
    λ a b, appears_first (@iter run common) (Overlap.word a) (Overlap.word b) in
  @overlap run1 matthew mark luke ≡ₚ @overlap run2 matthew mark luke ∧
  StronglySorted (desc_then Overlap.total (ties run1))
    (@overlap run1 matthew mark luke) ∧
  StronglySorted (desc_then Overlap.total (ties run2))
    (@overlap run2 matthew mark luke) ∧
  (@iter run1 common = @iter run2 common →
   @overlap run1 matthew mark luke = @overlap run2 matthew mark luke) ∧
  (NoDup (Overlap.total <$> @overlap run1 matthew mark luke) →
   @overlap run1 matthew mark luke = @overlap run2 matthew mark luke).
Proof.
  intros common ties.
  assert (∀ run : SetOrder,
            StronglySorted (desc_then Overlap.total (ties run))
              (@overlap run matthew mark luke)) as Hstable.
  { intros run. unfold overlap. apply sorted_desc_stable.
    eapply StronglySorted_fmap; [|apply NoDup_appears_first, iter_NoDup].
    by intros a b. }
  assert (@overlap run1 matthew mark luke ≡ₚ @overlap run2 matthew mark luke)
    as Hperm.
  { unfold overlap. rewrite !sorted_desc_perm. apply fmap_Permutation.
    by rewrite !iter_elements. }
  split_and!; [done | apply Hstable | apply Hstable | |].
  - intros Hiter. unfold overlap. fold common. by rewrite Hiter.
  - intros Hnd.
    assert (AntiSymm eq (λ a b, Overlap.total b < Overlap.total a)) as Hanti
      by (intros a b ? ?; lia).
    apply (StronglySorted_unique (λ a b, Overlap.total b < Overlap.total a)).
    + apply StronglySorted_strict; [apply sorted_desc_sorted | done].
    + apply StronglySorted_strict; [apply sorted_desc_sorted |].
      by rewrite <-Hperm.
    + done.
Qed.

Lemma find_overlapping_words_overlap `{SetOrder} `{Floats}
    (st : state) (matthew mark luke : list str) :
  all_words_of (results st) (py "Matthew") = Ok matthew →
  all_words_of (results st) (py "Mark") = Ok mark →
  all_words_of (results st) (py "Luke") = Ok luke →
  find_overlapping_words st = (Ok (overlap matthew mark luke), st).
Proof.
  intros Hm Hk Hl.
  unfold find_overlapping_words, get_results, lift, mbind, M_bind, mret, M_ret.
  by rewrite Hm, Hk, Hl.
Qed.

(** C6.  When [self.results] holds the three token lists,
    [find_overlapping_words] returns, without touching the analyzer, a list
    whose words are exactly the members of the intersection of the three
    sets of tokens, each once; in every entry the three counts are the
    numbers of occurrences of the word in the three lists and the total is
    their sum; the list is sorted by non-increasing total. *)
Theorem find_overlapping_words_intersection `{SetOrder} `{Floats}
    (st : state) (matthew mark luke : list str) :
  all_words_of (results st) (py "Matthew") = Ok matthew →
  all_words_of (results st) (py "Mark") = Ok mark →
  all_words_of (results st) (py "Luke") = Ok luke →
  ∃ overlap_data,
    find_overlapping_words st = (Ok overlap_data, st) ∧
    (∀ w, w ∈ Overlap.word <$> overlap_data ↔
          w ∈ (list_to_set matthew ∩ list_to_set mark ∩ list_to_set luke
               : gset str)) ∧
    NoDup (Overlap.word <$> overlap_data) ∧
    Forall (λ e,
      Overlap.matthew e = list_count (Overlap.word e) matthew ∧
      Overlap.mark e = list_count (Overlap.word e) mark ∧
      Overlap.luke e = list_count (Overlap.word e) luke ∧
      Overlap.total e = Overlap.matthew e + Overlap.mark e + Overlap.luke e)
      overlap_data ∧
    StronglySorted (λ a b, Overlap.total b ≤ Overlap.total a) overlap_data.
Proof.
  intros Hm Hk Hl. exists (overlap matthew mark luke). split_and!.
  - by apply find_overlapping_words_overlap.
  - intros w. rewrite overlap_words. apply elem_of_iter.
  - rewrite overlap_words. apply iter_NoDup.
  - unfold overlap. rewrite sorted_desc_perm.
    apply Forall_fmap, Forall_forall. by intros w _.
  - apply sorted_desc_sorted.
Qed.


Lemma find_overlapping_words_intersection_witness :
  ∃ overlap_data,
    find_overlapping_words analyzed = (Ok overlap_data, analyzed) ∧
    (∀ w, w ∈ Overlap.word <$> overlap_data ↔
          w ∈ (list_to_set matthew_tokens ∩ list_to_set mark_tokens
               ∩ list_to_set luke_tokens : gset str)) ∧
    NoDup (Overlap.word <$> overlap_data) ∧
    Forall (λ e,
      Overlap.matthew e = list_count (Overlap.word e) matthew_tokens ∧
      Overlap.mark e = list_count (Overlap.word e) mark_tokens ∧
      Overlap.luke e = list_count (Overlap.word e) luke_tokens ∧
      Overlap.total e = Overlap.matthew e + Overlap.mark e + Overlap.luke e)
      overlap_data ∧
    StronglySorted (λ a b, Overlap.total b ≤ Overlap.total a) overlap_data.
Proof.
  apply (find_overlapping_words_intersection analyzed
           matthew_tokens mark_tokens luke_tokens).
  - vm_compute. reflexivity.
  - vm_compute. reflexivity.
  - vm_compute. reflexivity.
Defined.

(** C9 (as amended).  Two runs, each with its own iteration order of sets,
    return the same entries, sorted by decreasing total with ties in the
    order in which the run iterates the common words.  They return the same
    list when they iterate the common words in the same order, and when no
    two totals tie. *)
Theorem find_overlapping_words_order_of_ties (run1 run2 : SetOrder) `{Floats}
    (st : state) (matthew mark luke : list str) :
  all_words_of (results st) (py "Matthew") = Ok matthew →
  all_words_of (results st) (py "Mark") = Ok mark →
  all_words_of (results st) (py "Luke") = Ok luke →
  let common : gset str :=
    list_to_set matthew ∩ list_to_set mark ∩ list_to_set luke in
  let ties (run : SetOrder) : relation Overlap.entry :=
    λ a b, appears_first (@iter run common) (Overlap.word a) (Overlap.word b) in
  ∃ data1 data2,
    find_overlapping_words (SO:=run1) st = (Ok data1, st) ∧
    find_overlapping_words (SO:=run2) st = (Ok data2, st) ∧
    data1 ≡ₚ data2 ∧
    StronglySorted (desc_then Overlap.total (ties run1)) data1 ∧
    StronglySorted (desc_then Overlap.total (ties run2)) data2 ∧
    (@iter run1 common = @iter run2 common → data1 = data2) ∧
    (NoDup (Overlap.total <$> data1) → data1 = data2).
Proof.
  intros Hm Hk Hl common ties.
  exists (@overlap run1 matthew mark luke), (@overlap run2 matthew mark luke).
  split; [by apply find_overlapping_words_overlap |].
  split; [by apply find_overlapping_words_overlap |].
  apply overlap_order_of_ties.
Qed.

Lemma find_overlapping_words_order_of_ties_witness :
  let common : gset str :=
    list_to_set matthew_tokens ∩ list_to_set mark_tokens
    ∩ list_to_set luke_tokens in
  let ties (run : SetOrder) : relation Overlap.entry :=
    λ a b, appears_first (@iter run common) (Overlap.word a) (Overlap.word b) in
  ∃ data1 data2,
    find_overlapping_words (SO:=elements_order) analyzed = (Ok data1, analyzed) ∧
    find_overlapping_words (SO:=reversed_order) analyzed = (Ok data2, analyzed) ∧
    data1 ≡ₚ data2 ∧
    StronglySorted (desc_then Overlap.total (ties elements_order)) data1 ∧
    StronglySorted (desc_then Overlap.total (ties reversed_order)) data2 ∧
    (@iter elements_order common = @iter reversed_order common →
     data1 = data2) ∧
    (NoDup (Overlap.total <$> data1) → data1 = data2).
Proof.
  apply (find_overlapping_words_order_of_ties elements_order reversed_order
           analyzed matthew_tokens mark_tokens luke_tokens).
  - vm_compute. reflexivity.
  - vm_compute. reflexivity.
  - vm_compute. reflexivity.
Defined.

(** C9 as stated fails: on the same three token lists, a run that iterates
    the common words in another order returns the tied entries in another
    order. *)
Lemma find_overlapping_words_order_counterexample :
  (find_overlapping_words (SO:=elements_order) analyzed).1
  ≠ (find_overlapping_words (SO:=reversed_order) analyzed).1.
Proof. vm_compute. intros Heq. discriminate Heq. Qed.

(** ** Runs of the analyzer *)

Section Runs.
Context {F : Floats} {U : Unicode} {B : TextBlob} {SW : Stopwords}
  {SO : SetOrder}.
Variable base_path : path.

(** A computation that is bound either hands its value on or raises. *)
Lemma bind_Ok {A C} (c : M A) (f : A → M C) (st st' : state) (a : A) :
  c st = (Ok a, st') → (a ← c; f a) st = f a st'.
Proof. intros Hc. unfold mbind, M_bind. by rewrite Hc. Qed.

Lemma bind_Raise {A C} (c : M A) (f : A → M C) (st st' : state) (e : exn) :
  c st = (Raise e, st') → (a ← c; f a) st = (Raise e, st').
Proof. intros Hc. unfold mbind, M_bind. by rewrite Hc. Qed.

Lemma bind_inv {A C} (c : M A) (f : A → M C) (st st' : state) (r : result C) :
  (a ← c; f a) st = (r, st') →
  (∃ a st1, c st = (Ok a, st1) ∧ f a st1 = (r, st')) ∨
  (∃ e, c st = (Raise e, st') ∧ r = Raise e).
Proof.
  unfold mbind, M_bind. destruct (c st) as [[a|e] st1].
  - intros Hf. left. by exists a, st1.
  - intros [= <- <-]. right. by exists e.
Qed.

(** [analyze_gospel] reads one file and changes nothing. *)
Lemma analyze_gospel_state (name : str) (filename : path) (st : state) :
  (analyze_gospel base_path name filename st).2 = st.
Proof.
  unfold analyze_gospel, load_gospel, read_text, lift, mbind, M_bind, mret, M_ret.
  destruct (files st !! (base_path ++ filename)); [|done].
  by destruct (calculate_style_metrics _ _).
Qed.

Lemma analyze_gospel_missing (name : str) (filename : path) (st : state) :
  files st !! (base_path ++ filename) = None →
  analyze_gospel base_path name filename st = (Raise FileNotFoundError, st).
Proof.
  intros Hf.
  unfold analyze_gospel, load_gospel, read_text, lift, mbind, M_bind, mret, M_ret.
  by rewrite Hf.
Qed.

(** The loop over the files writes to [self.results] only. *)
Lemma analyze_each_files (gospels : list (str * path))
    (st st' : state) (r : result ()) :
  analyze_each base_path gospels st = (r, st') →
  files st' = files st ∧ dirs st' = dirs st.
Proof.
  revert st. induction gospels as [|[name filename] gospels IH]; intros st; simpl.
  { by intros [= _ <-]. }
  pose proof (analyze_gospel_state name filename st) as Hst.
  intros [(doc & st1 & Hdoc & Hrest) | (e & Hdoc & _)]%bind_inv.
  - rewrite Hdoc in Hst. simpl in Hst. subst st1.
    unfold get_results, set_results, mbind, M_bind in Hrest. simpl in Hrest.
    by apply IH in Hrest.
  - rewrite Hdoc in Hst. simpl in Hst. by subst.
Qed.

(** The loop raises at the first file that cannot be read. *)
Lemma analyze_each_missing (gospels : list (str * path)) (st : state) :
  Exists (λ g, files st !! (base_path ++ g.2) = None) gospels →
  ∃ e st', analyze_each base_path gospels st = (Raise e, st').
Proof.
  revert st. induction gospels as [|[name filename] gospels IH]; intros st Hex.
  { by apply Exists_nil in Hex. }
  simpl. pose proof (analyze_gospel_state name filename st) as Hst.
  destruct (analyze_gospel base_path name filename st) as [[doc|e] st1] eqn:Hdoc.
  - simpl in Hst. subst st1. erewrite bind_Ok by done.
    unfold get_results, set_results, mbind, M_bind. simpl.
    apply IH. apply Exists_cons in Hex as [Hhd | Htl]; [|done].
    simpl in Hhd. rewrite analyze_gospel_missing in Hdoc by done. done.
  - erewrite bind_Raise by done. eauto.
Qed.

Lemma run_analysis_missing (st : state) :
  Exists (λ g, files st !! (base_path ++ g.2) = None) gospel_files →
  ∃ e st', run_analysis base_path st = (Raise e, st') ∧
           files st' = files st ∧ dirs st' = dirs st.
Proof.
  intros (e & st' & He)%analyze_each_missing. exists e, st'.
  split; [|by eapply analyze_each_files].
  unfold run_analysis. by erewrite bind_Raise.
Qed.

(** *** The keys of [self.results] stay distinct *)

Lemma dict_set_keys {V} (d : list (str * V)) (k : str) (v : V) :
  (dict_set d k v).*1 = if decide (k ∈ d.*1) then d.*1 else d.*1 ++ [k].
Proof.
  induction d as [|[k' v'] d IH]; csimpl; [done |].
  destruct (decide (k' = k)) as [->|Hne]; csimpl.
  - by rewrite decide_True by left.
  - rewrite IH. destruct (decide (k ∈ d.*1)).
    + by rewrite decide_True by by right.
    + rewrite decide_False; [done |]. intros [?|?]%elem_of_cons; done.
Qed.

Lemma dict_set_NoDup {V} (d : list (str * V)) (k : str) (v : V) :
  NoDup d.*1 → NoDup (dict_set d k v).*1.
Proof.
  intros Hnd. rewrite dict_set_keys. case_decide; [done |].
  apply NoDup_app. split_and!; [done | | apply NoDup_singleton].
  by intros k' Hk' ->%list_elem_of_singleton.
Qed.

Lemma analyze_each_NoDup (gospels : list (str * path))
    (st st' : state) (r : result ()) :
  analyze_each base_path gospels st = (r, st') →
  NoDup (results st).*1 → NoDup (results st').*1.
Proof.
  revert st. induction gospels as [|[name filename] gospels IH]; intros st; simpl.
  { by intros [= _ <-]. }
  pose proof (analyze_gospel_state name filename st) as Hst.
  intros [(doc & st1 & Hdoc & Hrest) | (e & Hdoc & _)]%bind_inv Hnd.
  - rewrite Hdoc in Hst. simpl in Hst. subst st1.
    unfold get_results, set_results, mbind, M_bind in Hrest. simpl in Hrest.
    apply IH in Hrest; [done |]. simpl. by apply dict_set_NoDup.
  - rewrite Hdoc in Hst. simpl in Hst. by subst.
Qed.

Lemma find_overlapping_words_state (st : state) :
  (find_overlapping_words st).2 = st.
Proof.
  unfold find_overlapping_words, get_results, lift, mbind, M_bind, mret, M_ret.
  repeat (destruct (all_words_of _ _); [|done]). done.
Qed.

Lemma delete_all_words_NoDup (names : list str) (st st' : state)
    (r : result ()) :
  delete_all_words names st = (r, st') →
  NoDup (results st).*1 → NoDup (results st').*1.
Proof.
  revert st. induction names as [|name names IH]; intros st; simpl.
  { by intros [= _ <-]. }
  unfold get_results, set_results, lift, mbind, M_bind. simpl.
  destruct (dict_get (results st) name) as [doc|e]; [|by intros [= _ <-]].
  destruct (all_words doc); [|by intros [= _ <-]].
  intros Hrest Hnd. apply IH in Hrest; [done |]. simpl. by apply dict_set_NoDup.
Qed.

(** The report of a run that returns. *)
Lemma run_analysis_Ok (st st' : state) (report : AnalysisReport) :
  run_analysis base_path st = (Ok report, st') →
  gospels report = results st' ∧
  total_overlapping_words (metadata report)
  = Z.of_nat (length (overlapping_words report)) ∧
  (NoDup (results st).*1 → NoDup (results st').*1).
Proof.
  unfold run_analysis.
  intros [(u1 & st1 & Hea & Hrest) | (e & _ & ?)]%bind_inv; [|done].
  apply bind_inv in Hrest as [(ow & st2 & Hfo & Hrest) | (e & _ & ?)]; [|done].
  pose proof (find_overlapping_words_state st1) as Hst2.
  rewrite Hfo in Hst2. simpl in Hst2. subst st2.
  apply bind_inv in Hrest as [(rs & st3 & Hget & Hrest) | (e & _ & ?)];
    [|done].
  unfold get_results in Hget. injection Hget as ? ?. subst rs st3.
  apply bind_inv in Hrest as [(u2 & st4 & Hdel & Hrest) | (e & _ & ?)]; [|done].
  unfold get_results, mbind, M_bind, mret, M_ret in Hrest.
  injection Hrest as <- <-. simpl. split_and!; [done | done |].
  intros Hnd. eapply delete_all_words_NoDup; [done |].
  by eapply analyze_each_NoDup.
Qed.

End Runs.

(** ** The report as JSON *)

Section Json.
Context {F : Floats}.

Lemma forallb_fmap_true {A} (f : A → json) (l : list A) :
  (∀ x, json_wf (f x) = true) → forallb json_wf (f <$> l) = true.
Proof.
  intros Hf. induction l as [|x l IH]; csimpl; [done |]. by rewrite Hf, IH.
Qed.

Lemma forallb_object_true {A} (f : A → json) (l : list (str * A)) :
  (∀ x, json_wf (f x) = true) →
  forallb (λ kv, json_wf kv.2) (prod_map id f <$> l) = true.
Proof.
  intros Hf. induction l as [|[k x] l IH]; csimpl; [done |]. by rewrite Hf, IH.
Qed.

Lemma freq_json_wf (e : Freq.entry) : json_wf (freq_json e) = true.
Proof. done. Qed.

Lemma overlap_json_wf (e : Overlap.entry) : json_wf (overlap_json e) = true.
Proof. done. Qed.

Lemma number_json_wf (x : number) : json_wf (number_json x) = true.
Proof. by destruct x. Qed.

Lemma document_json_wf (d : Document) : json_wf (document_json d) = true.
Proof.
  unfold document_json.
  destruct (all_words d) as [words|]; cbn -[freq_json py].
  - rewrite !number_json_wf, !forallb_fmap_true by (done || apply freq_json_wf).
    by vm_compute.
  - rewrite !number_json_wf, !forallb_fmap_true by apply freq_json_wf.
    by vm_compute.
Qed.

Lemma report_json_wf (r : AnalysisReport) :
  NoDup (gospels r).*1 → json_wf (report_json r) = true.
Proof.
  intros Hnd. unfold report_json. cbn -[overlap_json document_json py].
  rewrite forallb_fmap_true by apply overlap_json_wf.
  assert ((prod_map id document_json <$> gospels r).*1 = (gospels r).*1) as ->.
  { rewrite <-list_fmap_compose. apply list_fmap_ext. by intros _ [??] _. }
  rewrite (bool_decide_eq_true_2 _ Hnd).
  rewrite forallb_object_true by apply document_json_wf.
  by vm_compute.
Qed.

End Json.

(** A path is not among the directories above it. *)
Lemma not_elem_of_ancestors_parent (p : path) :
  p ≠ [] → p ∉ ancestors (parent p).
Proof.
  intros Hp (n & Heq & _)%list_elem_of_fmap.
  assert (length p = length (take n (parent p))) as Hlen by by rewrite <-Heq.
  rewrite length_take in Hlen. unfold parent in Hlen.
  rewrite length_take in Hlen. destruct p; [done | simpl in Hlen; lia].
Qed.

(** C7.  When one of the three input files cannot be read, [save_results]
    raises, and it leaves every file as it was: nothing is written at the
    output path.  The only change are directories: those the analyzer had
    are kept, and a new one is the parent of the output path or a
    directory above it, never the output path itself. *)
Theorem save_results_aborts {F : Floats} {U : Unicode} {B : TextBlob}
    {SW : Stopwords} {SO : SetOrder} {E : JsonEncoder}
    (base_path output_path : path) (st : state) :
  Exists (λ g, files st !! (base_path ++ g.2) = None) gospel_files →
  ∃ e st',
    save_results base_path output_path st = (Raise e, st') ∧
    files st' = files st ∧
    dirs st ⊆ dirs st' ∧
    dirs st'
    ⊆ dirs st ∪ list_to_set (ancestors (parent (base_path ++ output_path))) ∧
    (base_path ++ output_path ∈ dirs st' →
     base_path ++ output_path ∈ dirs st ∨ base_path ++ output_path = []).
Proof.
  intros Hex.
  assert (∃ e st',
            save_results base_path output_path st = (Raise e, st') ∧
            files st' = files st ∧
            dirs st ⊆ dirs st' ∧
            dirs st'
            ⊆ dirs st
              ∪ list_to_set (ancestors (parent (base_path ++ output_path))))
    as (e & st' & Hsave & Hfiles & Hlow & Hup).
  { unfold save_results.
    unfold mkdir_parents at 1, mbind at 1, M_bind at 1.
    case_decide as Hdir.
    - exists FileExistsError, st. split_and!; [done | done | done |].
      apply union_subseteq_l.
    - set (st1 := {| files := files st; dirs := _; results := results st |}).
      destruct (run_analysis_missing base_path st1 Hex)
        as (e & st' & Hrun & Hf & Hd).
      exists e, st'. split_and!.
      + by erewrite bind_Raise.
      + by rewrite Hf.
      + rewrite Hd. simpl. apply union_subseteq_l.
      + by rewrite Hd. }
  exists e, st'. split_and!; [done | done | done | done |].
  intros Hin. apply Hup in Hin.
  apply elem_of_union in Hin as [Hin|Hin%elem_of_list_to_set]; [by left |].
  right. destruct (decide (base_path ++ output_path = [])) as [|Hne]; [done |].
  by apply not_elem_of_ancestors_parent in Hin.
Qed.

Lemma save_results_aborts_witness :
  ∃ e st',
    save_results [py "home"] default_output_path (fresh missing_files)
    = (Raise e, st') ∧
    files st' = files (fresh missing_files) ∧
    dirs (fresh missing_files) ⊆ dirs st' ∧
    dirs st'
    ⊆ dirs (fresh missing_files)
      ∪ list_to_set (ancestors (parent ([py "home"] ++ default_output_path))) ∧
    ([py "home"] ++ default_output_path ∈ dirs st' →
     [py "home"] ++ default_output_path ∈ dirs (fresh missing_files) ∨
     [py "home"] ++ default_output_path = []).
Proof.
  apply (save_results_aborts [py "home"] default_output_path
           (fresh missing_files)).
  apply Exists_cons_tl, Exists_cons_hd. vm_compute. reflexivity.
Defined.

(** ** The parser reads what the encoder writes *)

Lemma skip_ws_start (c : char) (s : str) :
  is_ws c = false → skip_ws (c :: s) = c :: s.
Proof. intros Hc. simpl. by rewrite Hc. Qed.

Lemma skip_ws_newline_indent (level : nat) (s : str) :
  skip_ws (newline_indent level ++ s) = skip_ws s.
Proof.
  unfold newline_indent. generalize (2 * level)%nat. intros n.
  change (skip_ws (replicate n 32%N ++ s) = skip_ws s).
  induction n as [|n IH]; [done |]. exact IH.
Qed.

Lemma to_string_py (s : string) : to_string (py s) = s.
Proof.
  unfold to_string, py. rewrite <-list_fmap_compose.
  rewrite (list_fmap_ext _ id); [| intros _ a _; apply Ascii.ascii_N_embedding].
  rewrite list_fmap_id. apply String.string_of_list_ascii_of_string.
Qed.

Lemma digits_string_of_uint (d : Decimal.uint) :
  Forall (λ c, ascii_isdecimal c = true) (py (NilEmpty.string_of_uint d)).
Proof. induction d; simpl; by constructor. Qed.

(** The digits of a positive number. *)
Lemma digits_to_uint (p : positive) :
  ∃ c ds, py (NilZero.string_of_uint (Pos.to_uint p)) = c :: ds ∧
          Forall (λ c, ascii_isdecimal c = true) (c :: ds).
Proof.
  pose proof (DecimalPos.Unsigned.to_uint_nonnil p) as Hnil.
  pose proof (digits_string_of_uint (Pos.to_uint p)) as Hd.
  destruct (Pos.to_uint p) as [|d|d|d|d|d|d|d|d|d|d]; [done | ..];
    by eexists _, _.
Qed.

(** [str(z)]: a sign or none, and digits that [int] reads back. *)
Lemma str_of_int_digits (z : Z) :
  ∃ c ds, str_of_int z = (if decide (z < 0) then [MINUS] else []) ++ c :: ds ∧
          Forall (λ c, ascii_isdecimal c = true) (c :: ds) ∧
          int_of_digits (str_of_int z) = Some z.
Proof.
  assert (int_of_digits (str_of_int z) = Some z) as Hint.
  { unfold int_of_digits, str_of_int. rewrite to_string_py.
    rewrite NilZero.isi.
    - simpl. by rewrite DecimalZ.of_to.
    - destruct z; simpl; [done | | done].
      intros [= Hp]. by apply DecimalPos.Unsigned.to_uint_nonnil in Hp.
    - destruct z; simpl; [done | done |].
      intros [= Hp]. by apply DecimalPos.Unsigned.to_uint_nonnil in Hp. }
  unfold str_of_int in *. destruct z as [|p|p].
  - exists 48%N, []. split_and!; [done | by repeat constructor | done].
  - destruct (digits_to_uint p) as (c & ds & Heq & Hd).
    exists c, ds. rewrite decide_False by lia. by split_and!.
  - destruct (digits_to_uint p) as (c & ds & Heq & Hd).
    exists c, ds. rewrite decide_True by lia. split_and!; [| done | done].
    change (Z.to_int (Z.neg p)) with (Decimal.Neg (Pos.to_uint p)).
    unfold NilZero.string_of_int. unfold py in *. simpl. by rewrite <-Heq.
Qed.

Lemma span_digits_app (ds rest : str) :
  Forall (λ c, ascii_isdecimal c = true) ds →
  (∀ c t, rest = c :: t → ascii_isdecimal c = false) →
  span_digits (ds ++ rest) = (ds, rest).
Proof.
  intros Hds Hrest. induction Hds as [|c ds Hc Hds IH]; simpl.
  - destruct rest as [|c rest]; [done |]. simpl.
    by rewrite (Hrest c rest eq_refl).
  - by rewrite Hc, IH.
Qed.

Lemma delimited_no_digit (rest : str) :
  delimited rest → ∀ c t, rest = c :: t → ascii_isdecimal c = false.
Proof. by intros Hrest c t ->; destruct Hrest. Qed.

Lemma digit_cases (c : char) :
  ascii_isdecimal c = true →
  c ∈ [48; 49; 50; 51; 52; 53; 54; 55; 56; 57]%N.
Proof.
  unfold ascii_isdecimal. rewrite andb_true_iff, !N.leb_le. intros [Hl Hu].
  rewrite !elem_of_cons. lia.
Qed.

(** A text that starts with a digit, after a sign or none, is none of the
    three constants. *)
Lemma parse_number_digit (c : char) (t : str) :
  ascii_isdecimal c = true →
  parse_number (c :: t) = parse_decimal false (c :: t) ∧
  parse_number (MINUS :: c :: t) = parse_decimal true (c :: t).
Proof.
  intros Hc%digit_cases.
  repeat (apply elem_of_cons in Hc as [->|Hc]; [by split |]).
  by apply elem_of_nil in Hc.
Qed.

Lemma uint_of_string_digits (ds : str) :
  Forall (λ c, ascii_isdecimal c = true) ds →
  is_Some (NilEmpty.uint_of_string (to_string ds)).
Proof.
  intros Hds. induction Hds as [|c ds Hc Hds [d IH]]; [by eexists |].
  change (to_string (c :: ds))
    with (String (Ascii.ascii_of_N c) (to_string ds)).
  cbn [NilEmpty.uint_of_string]. rewrite IH. apply digit_cases in Hc.
  repeat (apply elem_of_cons in Hc as [->|Hc]; [by eexists |]).
  by apply elem_of_nil in Hc.
Qed.

(** [int] reads every text of digits. *)
Lemma int_of_digits_total (c : char) (ds : str) :
  Forall (λ c, ascii_isdecimal c = true) (c :: ds) →
  is_Some (int_of_digits (c :: ds)).
Proof.
  intros Hds. destruct (uint_of_string_digits _ Hds) as [d Hd].
  apply Forall_cons in Hds as [Hc _]. unfold int_of_digits.
  change (to_string (c :: ds))
    with (String (Ascii.ascii_of_N c) (to_string ds)) in *.
  unfold NilZero.int_of_string, NilZero.uint_of_string. rewrite Hd.
  apply digit_cases in Hc.
  repeat (apply elem_of_cons in Hc as [->|Hc]; [by eexists |]).
  by apply elem_of_nil in Hc.
Qed.

Lemma parse_number_integer (z : Z) (rest : str) :
  delimited rest →
  parse_number (str_of_int z ++ rest) = Some (JInt z, rest).
Proof.
  intros Hrest.
  destruct (str_of_int_digits z) as (c & ds & Heq & Hds & Hint).
  pose proof Hds as Hc. apply Forall_cons in Hc as [Hc _].
  destruct (parse_number_digit c (ds ++ rest) Hc) as [Hpos Hneg].
  assert (span_digits ((c :: ds) ++ rest) = (c :: ds, rest)) as Hspan
    by by apply span_digits_app, delimited_no_digit.
  rewrite Heq in *. case_decide.
  - change (([MINUS] ++ c :: ds) ++ rest) with (MINUS :: c :: ds ++ rest).
    rewrite Hneg. unfold parse_decimal.
    change (c :: ds ++ rest) with ((c :: ds) ++ rest). rewrite Hspan, Hint.
    destruct rest as [|c' rest]; [done |]. destruct Hrest as [_ Hdot].
    by rewrite (proj2 (N.eqb_neq c' DOT) Hdot).
  - change (([] ++ c :: ds) ++ rest) with (c :: ds ++ rest).
    rewrite Hpos. unfold parse_decimal.
    change (c :: ds ++ rest) with ((c :: ds) ++ rest). rewrite Hspan.
    change ([] ++ c :: ds) with (c :: ds) in *. rewrite Hint.
    destruct rest as [|c' rest]; [done |]. destruct Hrest as [_ Hdot].
    by rewrite (proj2 (N.eqb_neq c' DOT) Hdot).
Qed.

(** A sign or none, digits, a point and digits are read as a float. *)
Lemma parse_number_fraction (negative : bool) (c f : char)
    (whole fraction rest : str) :
  Forall (λ c, ascii_isdecimal c = true) (c :: whole) →
  Forall (λ c, ascii_isdecimal c = true) (f :: fraction) →
  delimited rest →
  ∃ x, parse_number ((if negative then [MINUS] else []) ++ (c :: whole)
                     ++ DOT :: (f :: fraction) ++ rest)
       = Some (JFloat x, rest).
Proof.
  intros Hwhole Hfraction Hrest.
  pose proof Hwhole as Hc. apply Forall_cons in Hc as [Hc _].
  destruct (parse_number_digit c (whole ++ DOT :: (f :: fraction) ++ rest) Hc)
    as [Hpos Hneg].
  assert (span_digits ((c :: whole) ++ DOT :: (f :: fraction) ++ rest)
          = (c :: whole, DOT :: (f :: fraction) ++ rest)) as Hspan.
  { apply span_digits_app; [done |]. by intros ? ? [= <- _]. }
  assert (span_digits ((f :: fraction) ++ rest) = (f :: fraction, rest))
    as Hspan' by by apply span_digits_app, delimited_no_digit.
  destruct (int_of_digits_total _ _ Hwhole) as [i Hi].
  destruct (int_of_digits_total _ _ Hfraction) as [j Hj].
  assert (∃ x, parse_decimal negative
                 ((c :: whole) ++ DOT :: (f :: fraction) ++ rest)
               = Some (JFloat x, rest)) as [x Hx].
  { unfold parse_decimal. rewrite Hspan. rewrite N.eqb_refl, Hspan'.
    unfold float_of_digits. rewrite Hi, Hj. simpl. by eexists. }
  exists x. destruct negative.
  - change ([MINUS] ++ (c :: whole) ++ DOT :: (f :: fraction) ++ rest)
      with (MINUS :: c :: whole ++ DOT :: (f :: fraction) ++ rest).
    by rewrite Hneg.
  - change ([] ++ (c :: whole) ++ DOT :: (f :: fraction) ++ rest)
      with (c :: whole ++ DOT :: (f :: fraction) ++ rest).
    by rewrite Hpos.
Qed.

Lemma div_half_even_nonneg (n d : Z) :
  0 ≤ n → 0 < d → 0 ≤ div_half_even n d.
Proof.
  intros Hn Hd. unfold div_half_even.
  pose proof (Z.div_pos n d Hn Hd). repeat case_decide; try lia.
  destruct (Z.even (n / d)); lia.
Qed.

Lemma strip_zeros_digits (ds : str) :
  Forall (λ c, ascii_isdecimal c = true) ds →
  Forall (λ c, ascii_isdecimal c = true) (strip_zeros ds).
Proof.
  intros Hds. induction Hds as [|c ds Hc Hds IH]; [done |]. simpl.
  destruct (strip_zeros ds) as [|d rest].
  - destruct (c =? 48)%N; by repeat constructor.
  - by constructor.
Qed.

(** The digits of [str(z)] for a [z] that is not negative. *)
Lemma str_of_int_nonneg (z : Z) :
  0 ≤ z →
  ∃ c ds, str_of_int z = c :: ds ∧
          Forall (λ c, ascii_isdecimal c = true) (c :: ds).
Proof.
  intros Hz. destruct (str_of_int_digits z) as (c & ds & Heq & Hds & _).
  rewrite decide_False in Heq by lia. by exists c, ds.
Qed.

(** What [repr] writes for a float: one of the three constants, or a sign
    or none, digits, a point and digits. *)
Lemma repr_rounded_shape (x : PrimFloat.float) :
  repr_rounded x ∈ [py "NaN"; py "Infinity"; py "-Infinity"] ∨
  ∃ (negative : bool) c whole f fraction,
    repr_rounded x
    = (if negative then [MINUS] else []) ++ (c :: whole)
      ++ DOT :: f :: fraction ∧
    Forall (λ c, ascii_isdecimal c = true) (c :: whole) ∧
    Forall (λ c, ascii_isdecimal c = true) (f :: fraction).
Proof.
  unfold repr_rounded.
  destruct (FloatOps.Prim2SF x) as [s|s| |s m e].
  - right. exists s, 48%N, ([] : str), 48%N, ([] : str).
    split_and!; [by destruct s | by repeat constructor ..].
  - left. destruct s; rewrite !elem_of_cons; tauto.
  - left. by left.
  - right.
    set (k := if decide (0 ≤ e) then Z.pos m * 2 ^ e * 10000
              else div_half_even (Z.pos m * 10000) (2 ^ (- e))).
    assert (0 ≤ k) as Hk.
    { unfold k. case_decide.
      - assert (0 ≤ 2 ^ e) by by apply Z.pow_nonneg. nia.
      - apply div_half_even_nonneg; [lia |]. apply Z.pow_pos_nonneg; lia. }
    destruct (str_of_int_nonneg (k / 10000)) as (c & whole & -> & Hwhole).
    { apply Z.div_pos; lia. }
    destruct (str_of_int_nonneg (10000 + k mod 10000)) as (c' & ds & -> & Hds).
    { pose proof (Z.mod_pos_bound k 10000). lia. }
    cbn [drop]. rewrite drop_0. apply Forall_cons in Hds as [_ Hds].
    apply strip_zeros_digits in Hds.
    assert (∃ f fraction,
              match strip_zeros ds with [] => py "0" | d :: t => d :: t end
              = f :: fraction ∧
              Forall (λ c, ascii_isdecimal c = true) (f :: fraction))
      as (f & fraction & -> & Hfraction).
    { destruct (strip_zeros ds) as [|d t]; [|by exists d, t].
      exists 48%N, []. split; [done | by repeat constructor]. }
    exists s, c, whole, f, fraction. split_and!; [| done | done].
    by destruct s.
Qed.

(** The parser reads what [repr] writes for a float as a float. *)
Lemma parse_number_float (x : PrimFloat.float) (rest : str) :
  delimited rest →
  ∃ y, parse_number (repr_rounded x ++ rest) = Some (JFloat y, rest).
Proof.
  intros Hrest.
  destruct (repr_rounded_shape x)
    as [Hx|(negative & c & whole & f & fraction & -> & Hwhole & Hfraction)].
  - rewrite !elem_of_cons, elem_of_nil in Hx.
    destruct Hx as [->|[->|[->|[]]]]; by eexists.
  - destruct (parse_number_fraction negative c f whole fraction rest)
      as [y Hy]; [done | done | done |].
    exists y. rewrite <-Hy. by rewrite <-!app_assoc.
Qed.

Lemma unhex_hex_digit (d : N) : (d < 16)%N → unhex (hex_digit d) = Some d.
Proof.
  intros Hd.
  assert (d ∈ [0; 1; 2; 3; 4; 5; 6; 7; 8; 9; 10; 11; 12; 13; 14; 15]%N) as Hin
    by (rewrite !elem_of_cons; lia).
  repeat (apply elem_of_cons in Hin as [->|Hin]; [done |]).
  by apply elem_of_nil in Hin.
Qed.

(** The parser reads a string that the encoder wrote, up to the closing
    quote, as the string it was. *)
Lemma parse_string_quote (s rest : str) :
  parse_string ((s ≫= escape_char) ++ QUOTE :: rest) = Some (s, rest).
Proof.
  induction s as [|c s IH]; [done |].
  rewrite bind_cons, <-app_assoc.
  set (tail := (s ≫= escape_char) ++ QUOTE :: rest) in *.
  unfold escape_char.
  destruct (c =? 34)%N eqn:E1;
    [apply N.eqb_eq in E1 as ->; cbn; by rewrite IH |].
  destruct (c =? BACKSLASH)%N eqn:E2;
    [apply N.eqb_eq in E2 as ->; cbn; by rewrite IH |].
  destruct (c =? 8)%N eqn:E3;
    [apply N.eqb_eq in E3 as ->; cbn; by rewrite IH |].
  destruct (c =? 12)%N eqn:E4;
    [apply N.eqb_eq in E4 as ->; cbn; by rewrite IH |].
  destruct (c =? 10)%N eqn:E5;
    [apply N.eqb_eq in E5 as ->; cbn; by rewrite IH |].
  destruct (c =? 13)%N eqn:E6;
    [apply N.eqb_eq in E6 as ->; cbn; by rewrite IH |].
  destruct (c =? 9)%N eqn:E7;
    [apply N.eqb_eq in E7 as ->; cbn; by rewrite IH |].
  destruct (c <? 32)%N eqn:E8.
  - apply N.ltb_lt in E8.
    change ((BACKSLASH :: py "u00" ++ [hex_digit (c / 16); hex_digit (c mod 16)])
            ++ tail)
      with (BACKSLASH :: 117%N :: 48%N :: 48%N :: hex_digit (c / 16)
            :: hex_digit (c mod 16) :: tail).
    cbn [parse_string].
    change (BACKSLASH =? QUOTE)%N with false.
    change (BACKSLASH =? BACKSLASH)%N with true.
    change (117 =? 117)%N with true. cbn beta iota.
    change (unhex 48) with (Some 0%N).
    rewrite !unhex_hex_digit, IH.
    + simpl. do 3 f_equal. pose proof (N.div_mod' c 16). lia.
    + apply N.Div0.div_lt_upper_bound. lia.
    + apply N.mod_lt. lia.
  - change ([c] ++ tail) with (c :: tail). cbn [parse_string].
    change (c =? QUOTE)%N with (c =? 34)%N. by rewrite E1, E2, E8, IH.
Qed.

(** Induction on a JSON value and the values in it. *)
Lemma json_nested_ind `{Floats} (P : json → Prop) :
  (∀ z, P (JInt z)) → (∀ x, P (JFloat x)) → (∀ s, P (JStr s)) →
  (∀ l, Forall P l → P (JList l)) →
  (∀ o, Forall (λ kv, P kv.2) o → P (JObject o)) →
  ∀ v, P v.
Proof.
  intros Hint Hfloat Hstr Hlist Hobject. fix IH 1. intros [z|x|s|l|o].
  - apply Hint.
  - apply Hfloat.
  - apply Hstr.
  - apply Hlist. induction l as [|v l IHl]; constructor; [apply IH | apply IHl].
  - apply Hobject. induction o as [|[k v] o IHo]; constructor;
      [apply IH | apply IHo].
Qed.


Lemma encode_list_cons (level : nat) (v : json) (l : list json) :
  encode level (JList (v :: l))
  = LBRACKET :: newline_indent (S level)
    ++ join (COMMA :: newline_indent (S level)) (encode (S level) <$> v :: l)
    ++ newline_indent level ++ [RBRACKET].
Proof. reflexivity. Qed.

Lemma encode_object_cons (level : nat) (kv : str * json)
    (o : list (str * json)) :
  encode level (JObject (kv :: o))
  = LBRACE :: newline_indent (S level)
    ++ join (COMMA :: newline_indent (S level))
         (encode_member (S level) <$> kv :: o)
    ++ newline_indent level ++ [RBRACE].
Proof.
  cbn [encode].
  rewrite (list_fmap_ext _ (encode_member (S level))); [reflexivity |].
  intros _ [k w] _. unfold quote, encode_member. simpl.
  by rewrite <-!app_assoc.
Qed.

Lemma starts_value_cases (c : char) :
  starts_value c = true →
  c ∈ [48; 49; 50; 51; 52; 53; 54; 55; 56; 57; QUOTE; LBRACKET; LBRACE; MINUS;
       78; 73]%N.
Proof.
  unfold starts_value.
  change [48; 49; 50; 51; 52; 53; 54; 55; 56; 57; QUOTE; LBRACKET; LBRACE;
          MINUS; 78; 73]%N
    with ([48; 49; 50; 51; 52; 53; 54; 55; 56; 57]%N
          ++ [QUOTE; LBRACKET; LBRACE; MINUS; 78; 73]%N).
  intros [Hc%digit_cases|Hc%bool_decide_eq_true]%orb_true_iff;
    apply elem_of_app; [by left | by right].
Qed.

(** A value does not start with white space, nor with what ends a list or
    an object. *)
Lemma starts_value_token (c : char) :
  starts_value c = true →
  is_ws c = false ∧ (c =? RBRACKET)%N = false ∧ (c =? RBRACE)%N = false ∧
  (c =? COMMA)%N = false.
Proof.
  intros Hc%starts_value_cases.
  repeat (apply elem_of_cons in Hc as [->|Hc]; [done |]).
  by apply elem_of_nil in Hc.
Qed.

Lemma skip_ws_starts_value (c : char) (s : str) :
  starts_value c = true → skip_ws (c :: s) = c :: s.
Proof. intros Hc. apply skip_ws_start. by apply starts_value_token. Qed.

Lemma str_of_int_starts (z : Z) :
  ∃ c t, str_of_int z = c :: t ∧ starts_value c = true ∧
         c ≠ QUOTE ∧ c ≠ LBRACKET ∧ c ≠ LBRACE.
Proof.
  destruct (str_of_int_digits z) as (c & ds & -> & Hds & _).
  apply Forall_cons in Hds as [Hc _]. case_decide.
  - exists MINUS, (c :: ds). by split_and!.
  - exists c, ds. split; [done |]. unfold starts_value. rewrite Hc.
    split; [done |]. apply digit_cases in Hc.
    repeat (apply elem_of_cons in Hc as [->|Hc]; [done |]).
    by apply elem_of_nil in Hc.
Qed.

Lemma repr_rounded_starts (x : PrimFloat.float) :
  ∃ c t, repr_rounded x = c :: t ∧ starts_value c = true ∧
         c ≠ QUOTE ∧ c ≠ LBRACKET ∧ c ≠ LBRACE.
Proof.
  destruct (repr_rounded_shape x)
    as [Hx|(negative & c & whole & f & fraction & -> & Hwhole & _)].
  - rewrite !elem_of_cons, elem_of_nil in Hx.
    destruct Hx as [->|[->|[->|[]]]]; by eexists _, _.
  - apply Forall_cons in Hwhole as [Hc _]. destruct negative.
    + eexists MINUS, _. by split_and!.
    + eexists c, _. split; [done |]. unfold starts_value. rewrite Hc.
      split; [done |]. apply digit_cases in Hc.
      repeat (apply elem_of_cons in Hc as [->|Hc]; [done |]).
      by apply elem_of_nil in Hc.
Qed.

(** What is no string, list or object is read as a number. *)
Lemma parse_value_number (fuel : nat) (c : char) (t : str) :
  c ≠ QUOTE → c ≠ LBRACKET → c ≠ LBRACE →
  parse_value (S fuel) (c :: t) = parse_number (c :: t).
Proof.
  intros Hq Hl Hb. cbn [parse_value].
  by rewrite (proj2 (N.eqb_neq _ _) Hq), (proj2 (N.eqb_neq _ _) Hl),
    (proj2 (N.eqb_neq _ _) Hb).
Qed.

Lemma encode_starts (level : nat) (v : json) :
  ∃ c t, encode level v = c :: t ∧ starts_value c = true.
Proof.
  destruct v as [z|x|s|[|v l]|[|kv o]].
  - destruct (str_of_int_starts z) as (c & t & Heq & Hc & _). by exists c, t.
  - destruct (repr_rounded_starts x) as (c & t & Heq & Hc & _). by exists c, t.
  - by eexists _, _.
  - by eexists _, _.
  - rewrite encode_list_cons. by eexists _, _.
  - by eexists _, _.
  - rewrite encode_object_cons. by eexists _, _.
Qed.

Lemma dict_set_fresh {V} (d : list (str * V)) (k : str) (v : V) :
  k ∉ d.*1 → dict_set d k v = d ++ [(k, v)].
Proof.
  induction d as [|[k' v'] d IH]; [done |].
  rewrite fmap_cons. intros [Hne Hk]%not_elem_of_cons. simpl.
  rewrite decide_False by done. by rewrite IH.
Qed.

(** With no key twice the pairs make the dict they list. *)
Lemma dict_of_NoDup {V} (pairs : list (str * V)) :
  NoDup pairs.*1 → dict_of pairs = pairs.
Proof.
  unfold dict_of.
  assert (∀ d, NoDup (d.*1 ++ pairs.*1) →
               foldl (λ d kv, dict_set d kv.1 kv.2) d pairs = d ++ pairs)
    as Hfold.
  { induction pairs as [|[k v] pairs IH]; intros d Hnd.
    - by rewrite app_nil_r.
    - simpl. rewrite fmap_cons in Hnd. rewrite dict_set_fresh.
      + rewrite IH; [by rewrite <-app_assoc |].
        rewrite fmap_app, <-app_assoc. by simpl.
      + apply NoDup_app in Hnd as (_ & Hnd & _). intros Hin.
        apply (Hnd k Hin). by left. }
  intros Hnd. by apply (Hfold []).
Qed.

Lemma delimited_newline_indent (level : nat) (s : str) :
  delimited (newline_indent level ++ s).
Proof. done. Qed.

Lemma delimited_comma (s : str) : delimited (COMMA :: s).
Proof. done. Qed.

Lemma length_newline_indent (level : nat) :
  (1 ≤ length (newline_indent level))%nat.
Proof. unfold newline_indent. simpl. lia. Qed.

Lemma join_starts (level : nat) (sep : str) (v : json) (l : list json)
    (s : str) :
  ∃ c t, join sep (encode level <$> v :: l) ++ s = c :: t ∧
         starts_value c = true.
Proof.
  destruct (encode_starts level v) as (c & t & Heq & Hc).
  change (encode level <$> v :: l) with (encode level v :: (encode level <$> l)).
  destruct l as [|v2 l].
  - exists c, (t ++ s). split; [|done]. simpl. by rewrite Heq.
  - exists c, (t ++ sep ++ join sep (encode level <$> v2 :: l) ++ s).
    split; [|done]. rewrite join_cons by done. rewrite Heq.
    by rewrite <-!app_assoc.
Qed.

(** The items of a list that is not empty, up to the closing bracket. *)
Lemma parse_items_encode (level : nat) (l : list json) (v : json) :
  Forall parses_back (v :: l) → forallb json_wf (v :: l) = true →
  ∀ fuel rest,
    let text :=
      join (COMMA :: newline_indent (S level)) (encode (S level) <$> v :: l)
      ++ newline_indent level ++ RBRACKET :: rest in
    (2 * length text + 1 < fuel)%nat →
    ∃ l', parse_items fuel text = Some (l', rest) ∧
          Forall2 json_alike (v :: l) l'.
Proof.
  revert v. induction l as [|v2 l IH]; intros v Hall Hwf fuel rest text Hfuel;
    apply Forall_cons in Hall as [Hv Hall];
    cbn [forallb] in Hwf; apply andb_true_iff in Hwf as [Hwfv Hwf];
    (destruct fuel as [|fuel]; [lia |]); subst text.
  - change (join (COMMA :: newline_indent (S level)) (encode (S level) <$> [v]))
      with (encode (S level) v) in *.
    destruct (Hv Hwfv (S level) fuel (newline_indent level ++ RBRACKET :: rest))
      as (v' & Hparse & Hlike); [done | lia |].
    exists [v']. split; [|by repeat constructor].
    cbn [parse_items]. rewrite Hparse. cbn [mbind option_bind].
    rewrite skip_ws_newline_indent. by rewrite skip_ws_start.
  - change (encode (S level) <$> v :: v2 :: l)
      with (encode (S level) v :: (encode (S level) <$> v2 :: l)) in *.
    rewrite join_cons in Hfuel |- * by done.
    rewrite <-!app_assoc in Hfuel |- *.
    change ((COMMA :: newline_indent (S level)) ++ ?x)
      with (COMMA :: newline_indent (S level) ++ x) in *.
    set (tail := join (COMMA :: newline_indent (S level))
                   (encode (S level) <$> v2 :: l)
                 ++ newline_indent level ++ RBRACKET :: rest) in *.
    rewrite length_app in Hfuel. cbn [length] in Hfuel.
    rewrite length_app in Hfuel.
    destruct (Hv Hwfv (S level) fuel
                (COMMA :: newline_indent (S level) ++ tail))
      as (v' & Hparse & Hlike);
      [done | rewrite length_app; cbn [length]; rewrite length_app; lia |].
    destruct (IH v2 Hall Hwf fuel rest) as (l' & Hitems & Hlikes);
      [fold tail; lia |].
    fold tail in Hitems.
    exists (v' :: l'). split; [|by constructor].
    cbn [parse_items]. rewrite Hparse. cbn [mbind option_bind].
    rewrite skip_ws_start by done. rewrite N.eqb_refl.
    rewrite skip_ws_newline_indent.
    destruct (join_starts (S level) (COMMA :: newline_indent (S level)) v2 l
                (newline_indent level ++ RBRACKET :: rest))
      as (c & t & Heq & Hc).
    fold tail in Heq. rewrite Heq, skip_ws_starts_value, <-Heq by done.
    by rewrite Hitems.
Qed.

Lemma members_start (level : nat) (sep : str) (kv : str * json)
    (o : list (str * json)) (s : str) :
  ∃ t, join sep (encode_member level <$> kv :: o) ++ s = QUOTE :: t.
Proof.
  change (encode_member level <$> kv :: o)
    with (encode_member level kv :: (encode_member level <$> o)).
  destruct o as [|kv2 o]; [by eexists |].
  rewrite join_cons by done. by eexists.
Qed.

(** One key and its value, before a rest that no digit starts. *)
Lemma parse_member (level fuel : nat) (k : str) (v : json) (rest : str) :
  parses_back v → json_wf v = true → delimited rest →
  (2 * length (encode_member level (k, v) ++ rest) < fuel)%nat →
  ∃ v', parse_string (drop 1 (encode_member level (k, v) ++ rest))
        = Some (k, COLON :: 32%N :: encode level v ++ rest) ∧
        parse_value fuel (skip_ws (32%N :: encode level v ++ rest))
        = Some (v', rest) ∧
        json_alike v v'.
Proof.
  intros Hv Hwf Hrest Hfuel. unfold encode_member in *. cbn [fst snd] in *.
  cbn [app drop] in *. rewrite drop_0.
  rewrite <-app_assoc. cbn [app].
  rewrite <-app_assoc in Hfuel. cbn [app length] in Hfuel.
  rewrite length_app in Hfuel. cbn [length] in Hfuel.
  destruct (Hv Hwf level fuel rest) as (v' & Hparse & Hlike); [done | lia |].
  exists v'. split_and!; [apply parse_string_quote | | done].
  destruct (encode_starts level v) as (c & t & Heq & Hc).
  change (skip_ws (32%N :: ?x)) with (skip_ws x).
  rewrite Heq in Hparse |- *. cbn [app] in *.
  by rewrite skip_ws_starts_value.
Qed.

(** The members of an object that is not empty, up to the closing brace. *)
Lemma parse_members_encode (level : nat) (o : list (str * json))
    (kv : str * json) :
  Forall (λ kv, parses_back kv.2) (kv :: o) →
  forallb (λ kv, json_wf kv.2) (kv :: o) = true →
  ∀ fuel rest,
    let text :=
      join (COMMA :: newline_indent (S level))
        (encode_member (S level) <$> kv :: o)
      ++ newline_indent level ++ RBRACE :: rest in
    (2 * length text + 1 < fuel)%nat →
    ∃ o', parse_members fuel text = Some (o', rest) ∧
          Forall2 (λ a b, a.1 = b.1 ∧ json_alike a.2 b.2) (kv :: o) o'.
Proof.
  revert kv. induction o as [|kv2 o IH];
    intros [k v] Hall Hwf fuel rest text Hfuel;
    apply Forall_cons in Hall as [Hv Hall];
    cbn [forallb] in Hwf; apply andb_true_iff in Hwf as [Hwfv Hwf];
    cbn [snd] in Hv, Hwfv;
    (destruct fuel as [|fuel]; [lia |]); subst text.
  - change (join (COMMA :: newline_indent (S level))
              (encode_member (S level) <$> [(k, v)]))
      with (encode_member (S level) (k, v)) in *.
    destruct (parse_member (S level) fuel k v
                (newline_indent level ++ RBRACE :: rest))
      as (v' & Hkey & Hparse & Hlike); [done | done | done | lia |].
    exists [(k, v')]. split; [|by repeat constructor].
    change (encode_member (S level) (k, v) ++ ?x)
      with (QUOTE :: drop 1 (encode_member (S level) (k, v) ++ x)).
    cbn [parse_members]. rewrite N.eqb_refl, Hkey. cbn [mbind option_bind].
    rewrite skip_ws_start by done. rewrite N.eqb_refl, Hparse.
    cbn [mbind option_bind].
    rewrite skip_ws_newline_indent. by rewrite skip_ws_start.
  - change (encode_member (S level) <$> (k, v) :: kv2 :: o)
      with (encode_member (S level) (k, v)
            :: (encode_member (S level) <$> kv2 :: o)) in *.
    rewrite join_cons in Hfuel |- * by done.
    rewrite <-!app_assoc in Hfuel |- *.
    change ((COMMA :: newline_indent (S level)) ++ ?x)
      with (COMMA :: newline_indent (S level) ++ x) in *.
    set (tail := join (COMMA :: newline_indent (S level))
                   (encode_member (S level) <$> kv2 :: o)
                 ++ newline_indent level ++ RBRACE :: rest) in *.
    destruct (parse_member (S level) fuel k v
                (COMMA :: newline_indent (S level) ++ tail))
      as (v' & Hkey & Hparse & Hlike); [done | done | done | lia |].
    rewrite length_app in Hfuel. cbn [length] in Hfuel.
    rewrite length_app in Hfuel.
    destruct (IH kv2 Hall Hwf fuel rest) as (o' & Hmembers & Hlikes);
      [fold tail; lia |].
    fold tail in Hmembers.
    exists ((k, v') :: o'). split; [|by constructor].
    change (encode_member (S level) (k, v) ++ ?x)
      with (QUOTE :: drop 1 (encode_member (S level) (k, v) ++ x)).
    cbn [parse_members]. rewrite N.eqb_refl, Hkey. cbn [mbind option_bind].
    rewrite skip_ws_start by done. rewrite N.eqb_refl, Hparse.
    cbn [mbind option_bind].
    rewrite skip_ws_start by done. rewrite N.eqb_refl.
    rewrite skip_ws_newline_indent.
    destruct (members_start (S level) (COMMA :: newline_indent (S level)) kv2 o
                (newline_indent level ++ RBRACE :: rest)) as (t & Heq).
    fold tail in Heq. rewrite Heq, skip_ws_start, <-Heq by done.
    by rewrite Hmembers.
Qed.

Lemma alike_keys `{Floats} (o p : list (str * json)) :
  Forall2 (λ a b, a.1 = b.1 ∧ json_alike a.2 b.2) o p → p.*1 = o.*1.
Proof.
  induction 1 as [|a b o p [Hk _] _ IH]; [done |].
  rewrite !fmap_cons. by rewrite Hk, IH.
Qed.

(** The parser reads every value that the encoder wrote. *)
Lemma parse_value_encode (v : json) : parses_back v.
Proof.
  induction v as [z|x|s|l IH|o IH] using (json_nested_ind (H:=binary64));
    intros Hwf level fuel rest Hrest Hfuel;
    (destruct fuel as [|fuel]; [lia |]).
  - exists (JInt z). split; [|constructor]. cbn [encode].
    destruct (str_of_int_starts z) as (c & t & Heq & _ & Hq & Hl & Hb).
    rewrite Heq. cbn [app]. rewrite parse_value_number by done.
    change (c :: t ++ rest) with ((c :: t) ++ rest). rewrite <-Heq.
    by apply parse_number_integer.
  - destruct (parse_number_float x rest Hrest) as [y Hy].
    exists (JFloat y). split; [|constructor]. cbn [encode].
    destruct (repr_rounded_starts x) as (c & t & Heq & _ & Hq & Hl & Hb).
    rewrite Heq in Hy |- *. cbn [app] in *. by rewrite parse_value_number.
  - exists (JStr s). split; [|constructor]. cbn [encode]. unfold quote.
    cbn [app]. rewrite <-app_assoc. cbn [app parse_value].
    rewrite N.eqb_refl. by rewrite parse_string_quote.
  - destruct l as [|v l].
    { exists (JList []). split; [done | by repeat constructor]. }
    rewrite encode_list_cons in Hfuel |- *.
    cbn [app] in Hfuel |- *. rewrite <-!app_assoc in Hfuel |- *.
    cbn [app] in Hfuel |- *.
    set (text := join (COMMA :: newline_indent (S level))
                   (encode (S level) <$> v :: l)
                 ++ newline_indent level ++ RBRACKET :: rest) in *.
    cbn [length] in Hfuel. rewrite length_app in Hfuel.
    destruct (parse_items_encode level l v IH Hwf fuel rest)
      as (l' & Hitems & Hlike); [fold text; lia |].
    fold text in Hitems.
    exists (JList l'). split; [|by constructor].
    cbn [parse_value]. change (LBRACKET =? QUOTE)%N with false.
    rewrite N.eqb_refl. cbn beta iota. rewrite skip_ws_newline_indent.
    destruct (join_starts (S level) (COMMA :: newline_indent (S level)) v l
                (newline_indent level ++ RBRACKET :: rest))
      as (c & t & Heq & Hc).
    fold text in Heq. rewrite Heq, skip_ws_starts_value by done.
    destruct (starts_value_token c Hc) as (_ & -> & _). rewrite <-Heq.
    by rewrite Hitems.
  - destruct o as [|kv o].
    { exists (JObject []). split; [done | by repeat constructor]. }
    cbn [json_wf] in Hwf. apply andb_true_iff in Hwf as [Hnd Hwf].
    apply bool_decide_eq_true in Hnd.
    rewrite encode_object_cons in Hfuel |- *.
    cbn [app] in Hfuel |- *. rewrite <-!app_assoc in Hfuel |- *.
    cbn [app] in Hfuel |- *.
    set (text := join (COMMA :: newline_indent (S level))
                   (encode_member (S level) <$> kv :: o)
                 ++ newline_indent level ++ RBRACE :: rest) in *.
    cbn [length] in Hfuel. rewrite length_app in Hfuel.
    destruct (parse_members_encode level o kv IH Hwf fuel rest)
      as (o' & Hmembers & Hlike); [fold text; lia |].
    fold text in Hmembers.
    exists (JObject o'). split; [|by constructor].
    cbn [parse_value]. change (LBRACE =? QUOTE)%N with false.
    change (LBRACE =? LBRACKET)%N with false.
    rewrite N.eqb_refl. cbn beta iota. rewrite skip_ws_newline_indent.
    destruct (members_start (S level) (COMMA :: newline_indent (S level)) kv o
                (newline_indent level ++ RBRACE :: rest)) as (t & Heq).
    fold text in Heq. rewrite Heq, skip_ws_start by done.
    change (QUOTE =? RBRACE)%N with false. cbn beta iota. rewrite <-Heq.
    rewrite Hmembers. cbn [mbind option_bind].
    rewrite dict_of_NoDup; [done |].
    by rewrite (alike_keys _ _ Hlike).
Qed.

(** Reading what was written gives a value that is the value written, but
    for the floats in it. *)
Lemma json_load_dump (v : json) :
  json_wf v = true →
  ∃ v', json_load (encode 0 v) = Some v' ∧ json_alike v v'.
Proof.
  intros Hwf. unfold json_load.
  destruct (encode_starts 0 v) as (c & t & Heq & Hc).
  destruct (parse_value_encode v Hwf 0%nat (2 * length (encode 0 v) + 2)%nat [])
    as (v' & Hparse & Hlike); [done | rewrite app_nil_r; lia |].
  rewrite app_nil_r in Hparse.
  exists v'. split; [|done].
  rewrite Heq, skip_ws_starts_value, <-Heq by done. by rewrite Hparse.
Qed.

Lemma python_json_round_trips : round_trips python_json.
Proof. intros v Hwf. by apply json_load_dump. Qed.

Section ReportRead.
Context {F : Floats}.

(** What is like an [int] is that [int], and what is like a list is a list
    of the same length. *)
Lemma json_alike_int (z : Z) (v : json) : json_alike (JInt z) v → v = JInt z.
Proof. by inversion 1. Qed.

Lemma json_alike_list (l : list json) (v : json) :
  json_alike (JList l) v → ∃ k, v = JList k ∧ length k = length l.
Proof.
  inversion 1 as [| | |? k Hlk|]; subst. exists k. split; [done |].
  symmetry. by eapply Forall2_length.
Qed.

(** Written and parsed again, a report with distinct names of gospels is
    a JSON value in which the number under
    [metadata.total_overlapping_words] and the length of the list under
    [overlapping_words] are those of the report. *)
Lemma report_round_trip (codec : JsonCodec) (report : AnalysisReport) :
  round_trips codec → NoDup (gospels report).*1 →
  ∃ parsed items,
    reload codec (report_json report) = Some parsed ∧
    json_get parsed (py "metadata")
      ≫= (λ m, json_get m (py "total_overlapping_words"))
    = Some (JInt (total_overlapping_words (metadata report))) ∧
    json_get parsed (py "overlapping_words") = Some (JList items) ∧
    length items = length (overlapping_words report).
Proof.
  intros Hcodec Hnd.
  destruct (Hcodec (report_json report)) as (parsed & Hload & Hlike);
    [by apply report_json_wf |].
  unfold report_json, metadata_json in Hlike.
  inversion Hlike as [| | | |? p Hp]; subst. clear Hlike.
  repeat match goal with
         | H : Forall2 _ (_ :: _) _ |- _ =>
             apply Forall2_cons_inv_l in H as ([? ?] & ? & [? ?] & ? & ->)
         | H : Forall2 _ [] _ |- _ => apply Forall2_nil_inv_l in H as ->
         end.
  simpl in *. subst.
  match goal with H : json_alike (JList _) _ |- _ =>
    apply json_alike_list in H as (items & -> & Hlen) end.
  match goal with H : json_alike (JObject (_ :: _)) _ |- _ =>
    inversion H as [| | | |? q Hq]; subst; clear H end.
  repeat match goal with
         | H : Forall2 _ (_ :: _) _ |- _ =>
             apply Forall2_cons_inv_l in H as ([? ?] & ? & [? ?] & ? & ->)
         | H : Forall2 _ [] _ |- _ => apply Forall2_nil_inv_l in H as ->
         end.
  simpl in *. subst.
  repeat match goal with H : json_alike (JInt _) _ |- _ =>
    apply json_alike_int in H as -> end.
  eexists _, items. split; [exact Hload |].
  split_and!; [done | done |]. by rewrite Hlen, length_fmap.
Qed.

End ReportRead.

(** C8.  In a report that [run_analysis] returns,
    [total_overlapping_words] is the length of [overlapping_words]; and
    with every encoder and parser of JSON such that parsing what was
    written gives the value back, the report written and parsed again has
    under [metadata.total_overlapping_words] the length of the list under
    [overlapping_words].  The encoder and the parser of the [json] module
    are such a pair ([python_json_round_trips]). *)
Theorem run_analysis_overlap_count {F : Floats} {U : Unicode} {B : TextBlob}
    {SW : Stopwords} {SO : SetOrder}
    (base_path : path) (st st' : state) (report : AnalysisReport) :
  NoDup (results st).*1 →
  run_analysis base_path st = (Ok report, st') →
  total_overlapping_words (metadata report)
  = Z.of_nat (length (overlapping_words report)) ∧
  ∀ codec : JsonCodec, round_trips codec →
    ∃ parsed count items,
      reload codec (report_json report) = Some parsed ∧
      json_get parsed (py "metadata")
        ≫= (λ m, json_get m (py "total_overlapping_words"))
      = Some (JInt count) ∧
      json_get parsed (py "overlapping_words") = Some (JList items) ∧
      count = Z.of_nat (length items).
Proof.
  intros Hnd (Hg & Htotal & Hkeys)%run_analysis_Ok. split; [done |].
  intros codec Hcodec.
  destruct (report_round_trip codec report Hcodec)
    as (parsed & items & Hload & Hcount & Hitems & Hlen).
  { rewrite Hg. by apply Hkeys. }
  exists parsed, (total_overlapping_words (metadata report)), items.
  split_and!; [done | done | done |]. by rewrite Hlen.
Qed.

Lemma run_analysis_overlap_count_witness :
  ∃ report st',
    run_analysis [py "home"] (fresh sample_files) = (Ok report, st') ∧
    total_overlapping_words (metadata report)
    = Z.of_nat (length (overlapping_words report)) ∧
    ∃ parsed count items,
      reload python_json (report_json report) = Some parsed ∧
      json_get parsed (py "metadata")
        ≫= (λ m, json_get m (py "total_overlapping_words"))
      = Some (JInt count) ∧
      json_get parsed (py "overlapping_words") = Some (JList items) ∧
      count = Z.of_nat (length items).
Proof.
  assert (run_analysis [py "home"] (fresh sample_files) = sample_run) as Hrun
    by reflexivity.
  unfold sample_run in Hrun.
  match type of Hrun with _ = (Ok ?report, ?st') => exists report, st' end.
  split; [exact Hrun |].
  destruct (run_analysis_overlap_count [py "home"] (fresh sample_files) _ _
              (NoDup_nil_2 : NoDup []) Hrun) as [Htotal Hcodec].
  split; [exact Htotal |].
  exact (Hcodec python_json python_json_round_trips).
Defined.

(** The parser on some texts: values, texts that are no JSON, a key that
    comes twice, and the report of the sample files, which comes back as
    it was written. *)
Example json_load_values :
  json_load (py "[1, -2.5, [], {}, NaN]")
  = Some (JList [JInt 1; JFloat (-2.5)%float; JList []; JObject [];
                 JFloat PrimFloat.nan]).
Proof. reflexivity. Qed.

Example json_load_rejects :
  json_load (py "[1,]") = None ∧ json_load (py "[1] 2") = None.
Proof. split; reflexivity. Qed.

Example json_load_last_key :
  json_load (py "{" ++ quote (py "a") ++ py ": 1, " ++ quote (py "a")
             ++ py ": 2}")
  = Some (JObject [(py "a", JInt 2)]).
Proof. reflexivity. Qed.

Example sample_report_read :
  match sample_run.1 with
  | Ok report =>
      reload python_json (report_json report) = Some (report_json report)
  | Raise _ => False
  end.
Proof. reflexivity. Qed.

(** ** The file written *)

Section Written.
Context {F : Floats} {U : Unicode} {B : TextBlob} {SW : Stopwords}
  {SO : SetOrder}.
Variable base_path : path.

Lemma delete_all_words_files (names : list str) (st st' : state)
    (r : result ()) :
  delete_all_words names st = (r, st') →
  files st' = files st ∧ dirs st' = dirs st.
Proof.
  revert st. induction names as [|name names IH]; intros st; simpl.
  { by intros [= _ <-]. }
  unfold get_results, set_results, lift, mbind, M_bind. simpl.
  destruct (dict_get (results st) name) as [doc|e]; [|by intros [= _ <-]].
  destruct (all_words doc); [|by intros [= _ <-]].
  intros Hrest. by apply IH in Hrest.
Qed.

(** [run_analysis] writes to [self.results] only. *)
Lemma run_analysis_files (st st' : state) (r : result AnalysisReport) :
  run_analysis base_path st = (r, st') →
  files st' = files st ∧ dirs st' = dirs st.
Proof.
  unfold run_analysis.
  intros [(u1 & st1 & Hea & Hrest) | (e & Hea & _)]%bind_inv;
    [|by eapply analyze_each_files].
  apply analyze_each_files in Hea as [<- <-].
  pose proof (find_overlapping_words_state st1) as Hst2.
  apply bind_inv in Hrest as [(ow & st2 & Hfo & Hrest) | (e & Hfo & _)];
    rewrite Hfo in Hst2; simpl in Hst2; subst; [|done].
  apply bind_inv in Hrest as [(rs & st3 & Hget & Hrest) | (e & ? & _)];
    [|done].
  unfold get_results in Hget. injection Hget as ? ?. subst rs st3.
  apply bind_inv in Hrest as [(u2 & st4 & Hdel & Hrest) | (e & Hdel & _)];
    [|by eapply delete_all_words_files].
  apply delete_all_words_files in Hdel as [<- <-].
  unfold get_results, mbind, M_bind, mret, M_ret in Hrest.
  by injection Hrest as _ <-.
Qed.

(** A call of [save_results] that returns has written the report, and
    nothing else, at the output path. *)
Lemma save_results_written {E : JsonEncoder} (output_path : path)
    (st st' : state) (report : AnalysisReport) :
  save_results base_path output_path st = (Ok report, st') →
  files st' = <[base_path ++ output_path := dump (report_json report)]> (files st) ∧
  ∃ st1 st2, files st1 = files st ∧ results st1 = results st ∧
             run_analysis base_path st1 = (Ok report, st2).
Proof.
  unfold save_results.
  intros [(u1 & st1 & Hmk & Hrest) | (e & _ & ?)]%bind_inv; [|done].
  unfold mkdir_parents in Hmk. case_decide; [done |].
  injection Hmk as _ <-.
  apply bind_inv in Hrest as [(rep & st2 & Hrun & Hrest) | (e & _ & ?)]; [|done].
  pose proof (run_analysis_files _ _ _ Hrun) as [Hf Hd]. simpl in Hf, Hd.
  apply bind_inv in Hrest as [(u2 & st3 & Hwr & Hrest) | (e & _ & ?)]; [|done].
  unfold write_text in Hwr. case_decide; [done |].
  injection Hwr as _ <-. unfold mret, M_ret in Hrest.
  injection Hrest as <- <-. simpl. rewrite Hf. split; [done |].
  eexists _, st2. split_and!; [| | exact Hrun]; done.
Qed.

End Written.

Lemma div_half_even_nearest (n d : Z) :
  0 < d → 2 * Z.abs (div_half_even n d * d - n) ≤ d.
Proof.
  intros Hd. unfold div_half_even.
  pose proof (Z.div_mod n d) as Hdm. pose proof (Z.mod_pos_bound n d Hd).
  repeat case_decide; try destruct (Z.even _); nia.
Qed.

(** The file that [save_results] has written, parsed again, has under
    [metadata.total_overlapping_words] the length of the list under
    [overlapping_words]. *)
Lemma save_results_round_trip {F : Floats} {U : Unicode} {B : TextBlob}
    {SW : Stopwords} {SO : SetOrder} (codec : JsonCodec)
    (base_path output_path : path) (st st' : state) (report : AnalysisReport) :
  round_trips codec →
  NoDup (results st).*1 →
  save_results (E:=codec_encoder) base_path output_path st = (Ok report, st') →
  ∃ text parsed count items,
    files st' !! (base_path ++ output_path) = Some text ∧
    load text = Some parsed ∧
    json_get parsed (py "metadata")
      ≫= (λ m, json_get m (py "total_overlapping_words")) = Some (JInt count) ∧
    json_get parsed (py "overlapping_words") = Some (JList items) ∧
    count = Z.of_nat (length items).
Proof.
  intros Hcodec Hnd (Hfiles & st1 & st2 & _ & Hres & Hrun)%save_results_written.
  apply run_analysis_Ok in Hrun as (Hg & Htotal & Hkeys).
  destruct (report_round_trip codec report Hcodec)
    as (parsed & items & Hload & Hcount & Hitems & Hlen).
  { rewrite Hg. apply Hkeys. by rewrite Hres. }
  exists (dump (report_json report)), parsed,
    (total_overlapping_words (metadata report)), items.
  split_and!; [| done | done | done | by rewrite Hlen].
  rewrite Hfiles. apply lookup_insert_eq.
Qed.

(** ** Examples *)

(** The scenario of the specification, one verse to a line. *)
Example scenario_tokens :
  tokenize_and_clean
    (py "001:001 The cat sat on the mat.
001:002 The cat ran far away.")
  = py <$> ["cat"; "sat"; "mat"; "cat"; "ran"; "far"; "away"]%string.
Proof. by vm_compute. Qed.

Example scenario_metrics :
  calculate_style_metrics (clean_gospel sample_text) [] = Ok sample_metrics.
Proof. reflexivity. Qed.

Example scenario_top_word :
  get_top_words matthew_tokens 1
  = [ {| Freq.word := py "cat"; Freq.count := 2 |} ].
Proof. by vm_compute. Qed.

(** A negative count asks for nothing. *)
Example top_words_negative : get_top_words matthew_tokens (-1) = [].
Proof. by vm_compute. Qed.

(** An underscore and a digit are word characters, a hyphen is not. *)
Example words_of_identifiers :
  lower_words (py "foo_bar x1 The-END") = [py "the"; py "end"].
Proof. by vm_compute. Qed.

(** The end marker is looked up before the text is cut at the start
    marker, and its offset is used after: the cut comes later in the text
    by the length of what precedes the start marker. *)
Example markers_offset :
  clean_gospel (py "preface *** START OF
001:001 a
*** END OF
001:002 b")
  = py "001:001 a
*** END ".
Proof. by vm_compute. Qed.

(** Rounding looks at the exact value of the float: 1/20000 is stored
    slightly above 0.00005. *)
Example round_above_tie :
  repr_rounded (round (truediv 1 20000) 4) = py "0.0001".
Proof. by vm_compute. Qed.

Example round_lexical_diversity :
  repr_rounded (round (truediv 8 11) 4) = py "0.7273".
Proof. by vm_compute. Qed.

(** * Further properties of the analyzer *)

(** ** The verse count *)

Section Verses.
Context `{Unicode}.

Lemma isdecimal_NEWLINE : isdecimal NEWLINE = false.
Proof. by rewrite isdecimal_ascii. Qed.

(** With [re.MULTILINE] the pattern is the one of [re.match], tried at the
    start of every line. *)
Lemma verse_re_multiline (prev : option char) (s : str) :
  verse_re true prev s
  = if at_line_start true prev then verse_re false None s else None.
Proof. unfold verse_re. simpl. by destruct (at_line_start true prev). Qed.

(** A verse marker has seven characters. *)
Lemma verse_re_length (multiline : bool) (prev : option char) (s : str)
    (j : nat) :
  verse_re multiline prev s = Some j → j = 7%nat.
Proof.
  unfold verse_re. destruct (at_line_start _ _); [|done].
  destruct s as [|d1 [|d2 [|d3 [|c [|d4 [|d5 [|d6 rest]]]]]]]; try done.
  by destruct (_ && _); intros [= <-].
Qed.

(** A verse marker holds no newline. *)
Lemma verse_line_no_newline (s : str) :
  verse_line s → Forall (λ c, c ≠ NEWLINE) (take 7 s).
Proof.
  intros (d1 & d2 & d3 & d4 & d5 & d6 & rest & -> & Hd)%verse_line_spec.
  rewrite !Forall_cons in Hd. destruct Hd as (? & ? & ? & ? & ? & ? & _).
  assert (∀ d, isdecimal d = true → d ≠ NEWLINE) as Hne.
  { intros d Hd Heq. subst d. by rewrite isdecimal_NEWLINE in Hd. }
  cbn [take].
  repeat (constructor; [first [by apply Hne | discriminate] |]). constructor.
Qed.

(** While it passes the rest of a match the scan meets no newline, and
    then its matches are the verse lines that begin after the position. *)
Lemma scan_verse_re_count (s : str) (skip : nat) (prev : option char) :
  Forall (λ c, c ≠ NEWLINE) (take skip s) →
  length (scan (verse_re true) skip prev s)
  = count_verses (bool_decide (skip = 0%nat) && at_line_start true prev) s.
Proof.
  revert skip prev. induction s as [|c s IH]; intros skip prev Hskip.
  { destruct skip; simpl; [|done].
    rewrite verse_re_multiline. by destruct (at_line_start true prev). }
  destruct skip as [|skip].
  - cbn [scan]. rewrite verse_re_multiline. cbn [bool_decide decide_rel].
    rewrite bool_decide_eq_true_2 by done. rewrite andb_true_l.
    cbn [count_verses].
    destruct (at_line_start true prev) eqn:Hstart.
    + rewrite andb_true_l.
      destruct (verse_re false None (c :: s)) as [j|] eqn:Hm.
      * pose proof (verse_re_length _ _ _ _ Hm) as ->.
        assert (verse_line (c :: s)) as Hv.
        { unfold verse_line, re_match. rewrite Hm. by eexists. }
        rewrite (bool_decide_eq_true_2 _ Hv).
        pose proof (verse_line_no_newline _ Hv) as Hnl.
        cbn [take] in Hnl. apply Forall_cons in Hnl as [Hc Hnl].
        cbn [length Nat.pred]. rewrite IH by done.
        cbn [bool_decide]. rewrite bool_decide_eq_false_2 by done.
        rewrite andb_false_l.
        by rewrite (proj2 (N.eqb_neq c NEWLINE) Hc).
      * assert (¬ verse_line (c :: s)) as Hv.
        { unfold verse_line, re_match. rewrite Hm. by intros [? ?]. }
        rewrite (bool_decide_eq_false_2 _ Hv). rewrite IH by constructor.
        rewrite bool_decide_eq_true_2 by done. by rewrite andb_true_l.
    + rewrite andb_false_l. rewrite IH by constructor.
      rewrite bool_decide_eq_true_2 by done. by rewrite andb_true_l.
  - cbn [scan count_verses]. rewrite bool_decide_eq_false_2 by done.
    rewrite !andb_false_l. cbn [take] in Hskip.
    apply Forall_cons in Hskip as [Hc Hskip]. rewrite IH by done.
    rewrite (proj2 (N.eqb_neq c NEWLINE) Hc). cbn [at_line_start].
    rewrite (proj2 (N.eqb_neq c NEWLINE) Hc). by rewrite andb_false_r.
Qed.

Lemma verse_line_short (l t : str) :
  (length l < 7)%nat → ¬ verse_line (l ++ NEWLINE :: t).
Proof.
  intros Hlen Hv. apply verse_line_no_newline in Hv.
  rewrite Forall_forall in Hv. apply (Hv NEWLINE); [|done].
  rewrite take_app_ge by lia. apply elem_of_app. right.
  destruct (7 - length l)%nat as [|n] eqn:Hn; [lia |]. by left.
Qed.

(** Whether a text starts with a verse marker is decided within its first
    line. *)
Lemma verse_line_first_line (l t : str) :
  verse_line (l ++ NEWLINE :: t) ↔ verse_line l.
Proof.
  destruct (decide (length l < 7)%nat) as [Hlt|Hge].
  - split; intros Hv.
    + by apply verse_line_short in Hv.
    + apply verse_line_spec in Hv as (? & ? & ? & ? & ? & ? & ? & -> & _).
      simpl in Hlt. lia.
  - destruct l as [|d1 [|d2 [|d3 [|c [|d4 [|d5 [|d6 rest]]]]]]];
      simpl in Hge; try lia.
    unfold verse_line, re_match, verse_re. simpl.
    match goal with |- context [if ?b then Some _ else None] =>
      destruct b end; simpl; split; intros [x Hx];
      first [discriminate | eexists; reflexivity].
Qed.

Lemma verse_line_nil : ¬ verse_line [].
Proof. by intros [? ?]. Qed.

Lemma verse_line_newline (s : str) : ¬ verse_line (NEWLINE :: s).
Proof. apply (verse_line_short [] s). simpl. lia. Qed.

(** The verse lines from a position on are the verse lines among the
    lines that follow, and the line at the position when it begins
    there. *)
Lemma count_verses_lines (s : str) (start : bool) :
  ∃ first rest,
    split NEWLINE s = first :: rest ∧
    count_verses start s
    = ((if start && bool_decide (verse_line first) then 1 else 0)
       + length (filter verse_line rest))%nat.
Proof.
  revert start. induction s as [|c s IH]; intros start.
  { exists [], []. split; [done |].
    rewrite (bool_decide_eq_false_2 _ verse_line_nil). by rewrite andb_false_r. }
  cbn [count_verses split].
  destruct (c =? NEWLINE)%N eqn:Hc.
  - apply N.eqb_eq in Hc as ->.
    destruct (IH true) as (first & rest & Hsplit & Hcount).
    exists [], (first :: rest). split; [by rewrite Hsplit |].
    rewrite (bool_decide_eq_false_2 _ (verse_line_newline s)).
    rewrite (bool_decide_eq_false_2 _ verse_line_nil), !andb_false_r.
    rewrite Hcount, filter_cons, andb_true_l.
    destruct (decide (verse_line first)) as [Hv|Hv].
    + by rewrite (bool_decide_eq_true_2 _ Hv).
    + by rewrite (bool_decide_eq_false_2 _ Hv).
  - destruct (IH false) as (first & rest & Hsplit & Hcount).
    exists (c :: first), rest. rewrite Hsplit. split; [done |].
    rewrite Hcount. simpl. f_equal.
    assert (verse_line (c :: s) ↔ verse_line (c :: first)) as Hiff.
    { pose proof (join_split NEWLINE s) as Hjoin. rewrite Hsplit in Hjoin.
      destruct rest as [|l rest]; simpl in Hjoin.
      - by rewrite Hjoin.
      - rewrite <-Hjoin. apply (verse_line_first_line (c :: first)). }
    by rewrite (bool_decide_ext _ _ Hiff).
Qed.

(** [re.findall(r'^\d{3}:\d{3}', text, re.MULTILINE)] finds one match in
    every line of the text that starts with a verse marker. *)
Lemma findall_verse_re_lines (text : str) :
  length (findall (verse_re true) text)
  = length (filter verse_line (split NEWLINE text)).
Proof.
  unfold findall. rewrite scan_verse_re_count by constructor.
  change (bool_decide (0 = 0)%nat && at_line_start true None) with true.
  destruct (count_verses_lines text true) as (first & rest & -> & ->).
  rewrite filter_cons, andb_true_l.
  destruct (decide (verse_line first)) as [Hv|Hv].
  - by rewrite (bool_decide_eq_true_2 _ Hv).
  - by rewrite (bool_decide_eq_false_2 _ Hv).
Qed.

End Verses.

(** The record of [calculate_style_metrics], field by field. *)
Lemma calculate_style_metrics_Ok `{Unicode} `{Floats}
    (text : str) (filtered_words : list str) :
  ∃ m, calculate_style_metrics text filtered_words = Ok m ∧
       total_words m = Z.of_nat (length (lower_words text)) ∧
       unique_words m
       = Z.of_nat (size (list_to_set (lower_words text) : gset str)) ∧
       verse_count m = Z.of_nat (length (findall (verse_re true) text)) ∧
       (lexical_diversity m = Int 0 ↔ total_words m = 0) ∧
       (avg_words_per_verse m = Int 0 ↔ verse_count m = 0).
Proof.
  unfold calculate_style_metrics, int_truediv.
  repeat case_decide; try lia; simpl; eexists; (split; [done |]); simpl;
    split_and!; try done; split; first [done | lia].
Qed.

(** X1.  [verse_count] is the number of lines of the text, as
    [text.split('\n')] cuts them, that start with a verse marker: what
    [re.findall] with [re.MULTILINE] counts in the whole text is what
    [re.match] accepts line by line.  So [avg_words_per_verse] is the [int]
    0 exactly when no line starts with a verse marker. *)
Theorem verse_count_lines `{Unicode} `{Floats}
    (text : str) (filtered_words : list str) :
  ∃ m, calculate_style_metrics text filtered_words = Ok m ∧
       verse_count m
       = Z.of_nat (length (filter verse_line (split NEWLINE text))) ∧
       (avg_words_per_verse m = Int 0 ↔
        Forall (λ line, ¬ verse_line line) (split NEWLINE text)).
Proof.
  destruct (calculate_style_metrics_Ok text filtered_words)
    as (m & Hm & _ & _ & Hverses & _ & Havg).
  exists m. rewrite findall_verse_re_lines in Hverses.
  split_and!; [done | done |].
  rewrite Havg, Hverses.
  assert (∀ n : nat, Z.of_nat n = 0 ↔ n = 0%nat) as -> by lia.
  rewrite length_zero_iff_nil.
  generalize (split NEWLINE text). intros lines.
  split.
  - intros Hnil. apply Forall_forall. intros line Hline Hv.
    assert (line ∈ filter verse_line lines) as Hin
      by by apply list_elem_of_filter.
    rewrite Hnil in Hin. by apply not_elem_of_nil in Hin.
  - intros Hall. induction Hall as [|l ls Hl _ IH]; [done |].
    by rewrite filter_cons_False.
Qed.

(** ** The loader on any text *)

Lemma find_from_range (sub s : str) (i : Z) :
  find_from sub s i = -1 ∨ i ≤ find_from sub s i ≤ i + Z.of_nat (length s).
Proof.
  revert i. induction s as [|c s IH]; intros i; cbn [find_from length];
    destruct (startswith sub _); try lia.
  destruct (IH (i + 1)); lia.
Qed.

(** Where [find] is not [-1] the text goes on with what was looked for. *)
Lemma find_from_found (sub s : str) (i : Z) (k : nat) :
  0 ≤ i → find_from sub s i = i + Z.of_nat k →
  startswith sub (drop k s) = true ∧ (k ≤ length s)%nat.
Proof.
  revert i k. induction s as [|c s IH]; intros i k Hi; cbn [find_from].
  - destruct (startswith sub []) eqn:Hsub; [|lia].
    intros Hk. assert (k = 0%nat) as -> by lia. by rewrite drop_0.
  - destruct (startswith sub (c :: s)) eqn:Hsub.
    + intros Hk. assert (k = 0%nat) as -> by lia. rewrite drop_0.
      split; [done | simpl; lia].
    + intros Hk. pose proof (find_from_range sub s (i + 1)) as Hrange.
      destruct k as [|k]; [lia |].
      destruct (IH (i + 1) k) as [Hfound Hlen]; [lia | lia |].
      split; [done | simpl; lia].
Qed.

Lemma find_found (s sub : str) (k : nat) :
  find s sub = Z.of_nat k →
  startswith sub (drop k s) = true ∧ (k ≤ length s)%nat.
Proof. intros Hk. by apply (find_from_found sub s 0 k). Qed.

Lemma find_range (s sub : str) :
  find s sub = -1 ∨ ∃ k : nat, find s sub = Z.of_nat k.
Proof.
  destruct (find_from_range sub s 0) as [?|?]; [by left | right].
  exists (Z.to_nat (find s sub)). unfold find in *. lia.
Qed.

Lemma join_app (sep : str) (ls1 ls2 : list str) :
  ls1 ≠ [] → ls2 ≠ [] →
  join sep (ls1 ++ ls2) = join sep ls1 ++ sep ++ join sep ls2.
Proof.
  intros H1 H2. induction ls1 as [|l [|l' ls1] IH]; [done | |].
  - by apply join_cons.
  - change ((l :: l' :: ls1) ++ ls2) with (l :: (l' :: ls1) ++ ls2).
    rewrite !join_cons by done. rewrite IH by done. by rewrite <-!app_assoc.
Qed.

Section Loader.
Context `{Unicode}.

Lemma clean_gospel_cut (text : str) :
  clean_gospel text
  = join [NEWLINE] (drop_header (split NEWLINE (cut_at_markers text))).
Proof.
  unfold clean_gospel, cut_at_markers.
  rewrite <-foldl_header_step_skipping.
  by destruct (foldl header_step _ _).
Qed.

(** The text from the first verse line on is empty or starts with a verse
    marker, and it ends the text. *)
Lemma join_drop_header (s : str) :
  let kept := join [NEWLINE] (drop_header (split NEWLINE s)) in
  (∃ skipped, s = skipped ++ kept) ∧
  (kept = [] ∨ verse_line kept) ∧
  (kept = [] ↔ Forall (λ l, ¬ verse_line l) (split NEWLINE s)).
Proof.
  intros kept. subst kept.
  destruct (drop_header_split (split NEWLINE s)) as (header & Hlines & Hh & Hb).
  pose proof (join_split NEWLINE s) as Hjoin.
  destruct (drop_header (split NEWLINE s)) as [|line body] eqn:Hbody.
  - split_and!; [exists s; by rewrite app_nil_r | by left |].
    split; [|done]. intros _. rewrite Hlines. by rewrite app_nil_r.
  - assert (verse_line (join [NEWLINE] (line :: body))) as Hv.
    { destruct body as [|l body]; [done |].
      rewrite join_cons by done. by apply verse_line_first_line. }
    split_and!.
    + destruct header as [|h header].
      * exists []. by rewrite <-Hjoin, Hlines.
      * exists (join [NEWLINE] (h :: header) ++ [NEWLINE]).
        rewrite <-Hjoin at 1. rewrite Hlines, join_app by done.
        by rewrite <-app_assoc.
    + by right.
    + split.
      * intros Hnil. rewrite Hnil in Hv. by apply verse_line_nil in Hv.
      * rewrite Hlines. intros [_ Hall]%Forall_app.
        by apply Forall_cons in Hall as [? _].
Qed.

Lemma occurs_cut_at_markers (text : str) : occurs (cut_at_markers text) text.
Proof.
  unfold cut_at_markers, slice_from, slice_to.
  assert (∀ i j, occurs (take i (drop j text)) text) as Hocc.
  { intros i j. exists (take j text), (drop i (drop j text)).
    by rewrite take_drop, take_drop. }
  assert (∀ j, occurs (drop j text) text) as Hdrop.
  { intros j. exists (take j text), []. by rewrite app_nil_r, take_drop. }
  repeat case_decide; try done.
  - apply (Hocc _ 0%nat).
  - exists [], []. by rewrite app_nil_r.
Qed.

End Loader.

(** X2.  On every file that can be read, [load_gospel] returns, without
    touching the analyzer or the files, the end of what the cut at the
    markers leaves: a part of the file's text that is empty or starts with
    a verse marker.  It is empty exactly when no line of the cut text
    starts with a verse marker. *)
Theorem load_gospel_from_first_verse `{Unicode} `{Floats}
    (base_path filename : path) (text : str) (st : state) :
  files st !! (base_path ++ filename) = Some text →
  ∃ skipped kept,
    load_gospel base_path filename st = (Ok kept, st) ∧
    cut_at_markers text = skipped ++ kept ∧
    occurs kept text ∧
    (kept = [] ∨ verse_line kept) ∧
    (kept = [] ↔
     Forall (λ l, ¬ verse_line l) (split NEWLINE (cut_at_markers text))).
Proof.
  intros Hfile.
  destruct (join_drop_header (cut_at_markers text))
    as ((skipped & Hcut) & Hkept & Hnil).
  exists skipped, (clean_gospel text). rewrite clean_gospel_cut.
  split_and!; [| done | | done | done].
  - unfold load_gospel, read_text, mbind, M_bind, mret, M_ret.
    rewrite Hfile. by rewrite clean_gospel_cut.
  - destruct (occurs_cut_at_markers text) as (a & b & Htext).
    exists (a ++ skipped), b. rewrite Htext at 1. rewrite Hcut at 1.
    by rewrite <-!app_assoc.
Qed.

Lemma load_gospel_from_first_verse_witness :
  ∃ skipped kept,
    load_gospel [py "home"] [py "pg8830.txt"]
      (fresh [([py "home"; py "pg8830.txt"], gutenberg_text)])
    = (Ok kept, fresh [([py "home"; py "pg8830.txt"], gutenberg_text)]) ∧
    cut_at_markers gutenberg_text = skipped ++ kept ∧
    occurs kept gutenberg_text ∧
    (kept = [] ∨ verse_line kept) ∧
    (kept = [] ↔
     Forall (λ l, ¬ verse_line l)
       (split NEWLINE (cut_at_markers gutenberg_text))).
Proof.
  apply (load_gospel_from_first_verse [py "home"] [py "pg8830.txt"]
           gutenberg_text).
  vm_compute. reflexivity.
Defined.

(** X3.  With the start marker found after a preamble, [load_gospel] cuts
    at the end marker too late by the length of the preamble: [end_idx] is
    an offset in the whole text, and it is used in the text that has lost
    the preamble.  What is kept runs on past the start of the end marker
    for as many characters as the preamble has. *)
Theorem load_gospel_end_marker_drift `{Unicode} `{Floats}
    (base_path filename : path) (pre body post : str) (st : state) :
  let text := pre ++ body ++ end_marker ++ post in
  let cut := body ++ take (length pre) (end_marker ++ post) in
  files st !! (base_path ++ filename) = Some text →
  find text start_marker = Z.of_nat (length pre) →
  find text end_marker = Z.of_nat (length (pre ++ body)) →
  cut_at_markers text = cut ∧
  load_gospel base_path filename st
  = (Ok (join [NEWLINE] (drop_header (split NEWLINE cut))), st).
Proof.
  intros text cut Hfile Hstart Hend.
  assert (cut_at_markers text = cut) as Hcut.
  { unfold cut_at_markers, slice_from, slice_to. rewrite Hstart, Hend.
    rewrite !decide_True by lia. rewrite !Nat2Z.id.
    unfold text, cut. rewrite drop_app_length.
    rewrite length_app, Nat.add_comm. by rewrite take_app_add'. }
  split; [done |].
  unfold load_gospel, read_text, mbind, M_bind, mret, M_ret.
  rewrite Hfile. by rewrite clean_gospel_cut, Hcut.
Qed.

Lemma load_gospel_end_marker_drift_witness :
  let st := fresh [([py "home"; py "pg8830.txt"], gutenberg_text)] in
  let cut :=
    gutenberg_body
    ++ take (length gutenberg_preamble) (end_marker ++ gutenberg_licence) in
  cut_at_markers gutenberg_text = cut ∧
  load_gospel [py "home"] [py "pg8830.txt"] st
  = (Ok (join [NEWLINE] (drop_header (split NEWLINE cut))), st).
Proof.
  apply (load_gospel_end_marker_drift [py "home"] [py "pg8830.txt"]
           gutenberg_preamble gutenberg_body gutenberg_licence).
  - vm_compute. reflexivity.
  - vm_compute. reflexivity.
  - vm_compute. reflexivity.
Defined.

Example gutenberg_loaded :
  clean_gospel gutenberg_text = py "001:001 The cat sat.
*** END OF T".
Proof. by vm_compute. Qed.

Section NoVerse.
Context `{Unicode}.

Lemma verse_line_app (s t : str) : verse_line s → verse_line (s ++ t).
Proof.
  intros (d1 & d2 & d3 & d4 & d5 & d6 & rest & -> & Hd)%verse_line_spec.
  apply verse_line_spec. by exists d1, d2, d3, d4, d5, d6, (rest ++ t).
Qed.

Lemma verse_line_take (s : str) (n : nat) :
  verse_line (take n s) → verse_line s.
Proof.
  intros Hv. rewrite <-(take_drop n s). by apply verse_line_app.
Qed.

Lemma count_verses_has_verse (s : str) (start : bool) :
  count_verses start s ≠ 0%nat ↔
  (start = true ∧ verse_line s) ∨
  ∃ i, s !! i = Some NEWLINE ∧ verse_line (drop (S i) s).
Proof.
  revert start. induction s as [|c s IH]; intros start.
  { simpl. split; [done |]. intros [[_ Hv]|(i & Hi & _)]; [|done].
    by apply verse_line_nil in Hv. }
  cbn [count_verses].
  assert (∀ a b : nat, (a + b)%nat ≠ 0%nat ↔ a ≠ 0%nat ∨ b ≠ 0%nat) as ->
    by lia.
  rewrite IH. split.
  - intros [Hhere|[[Hc Hv]|(i & Hi & Hv)]].
    + left. destruct start; [|done]. rewrite andb_true_l in Hhere.
      split; [done |]. by destruct (decide (verse_line (c :: s)));
        [|rewrite bool_decide_eq_false_2 in Hhere].
    + right. exists 0%nat. by apply N.eqb_eq in Hc as ->.
    + right. by exists (S i).
  - intros [[-> Hv]|(i & Hi & Hv)].
    + left. by rewrite bool_decide_eq_true_2.
    + right. destruct i as [|i].
      * left. simpl in Hi. injection Hi as ->. by rewrite N.eqb_refl.
      * right. by exists i.
Qed.

(** A line of the text starts with a verse marker. *)
Lemma Exists_verse_line (s : str) :
  Exists verse_line (split NEWLINE s) ↔ has_verse s.
Proof.
  unfold has_verse.
  destruct (count_verses_lines s true) as (first & rest & -> & Hcount).
  pose proof (count_verses_has_verse s true) as Hpos.
  rewrite Hcount, andb_true_l in Hpos.
  assert (verse_line s ∨
          (∃ i, s !! i = Some NEWLINE ∧ verse_line (drop (S i) s))
          ↔ (true = true ∧ verse_line s) ∨
            (∃ i, s !! i = Some NEWLINE ∧ verse_line (drop (S i) s))) as ->
    by tauto.
  rewrite <-Hpos, Exists_cons.
  assert (∀ a b : nat, (a + b)%nat ≠ 0%nat ↔ a ≠ 0%nat ∨ b ≠ 0%nat) as ->
    by lia.
  assert (Exists verse_line rest ↔ length (filter verse_line rest) ≠ 0%nat)
    as ->.
  { rewrite length_zero_iff_nil. clear. induction rest as [|l rest IH].
    - split; [by intros ?%Exists_nil | done].
    - rewrite Exists_cons, filter_cons. case_decide; [|tauto].
      split; [done | by intros _; left]. }
  destruct (decide (verse_line first)) as [Hv|Hv].
  - rewrite (bool_decide_eq_true_2 _ Hv). split; [intros _; by left | intros _; by left].
  - rewrite (bool_decide_eq_false_2 _ Hv). tauto.
Qed.

Lemma has_verse_take (s : str) (n : nat) :
  has_verse (take n s) → has_verse s.
Proof.
  intros [Hv|(i & Hi & Hv)].
  - left. by apply verse_line_take in Hv.
  - right. exists i. apply lookup_take_Some in Hi as [Hi _].
    split; [done |]. rewrite skipn_firstn_comm in Hv.
    by apply verse_line_take in Hv.
Qed.

Lemma has_verse_drop (s : str) (n : nat) :
  has_verse (drop n s) → verse_line (drop n s) ∨ has_verse s.
Proof.
  intros [Hv|(i & Hi & Hv)]; [by left |].
  right. right. exists (n + i)%nat. rewrite lookup_drop in Hi.
  split; [done |]. rewrite drop_drop in Hv.
  by replace (S (n + i)) with (n + S i)%nat by lia.
Qed.

Lemma start_marker_no_verse (s : str) :
  startswith start_marker s = true → ¬ verse_line s.
Proof.
  intros [rest ->]%startswith_prefix
    (d1 & d2 & d3 & d4 & d5 & d6 & rest' & Heq & Hd)%verse_line_spec.
  injection Heq as <- _. apply Forall_cons in Hd as [Hd _].
  by rewrite isdecimal_ascii in Hd.
Qed.

(** The cut at the markers brings no verse marker to the start of a
    line. *)
Lemma has_verse_cut_at_markers (text : str) :
  has_verse (cut_at_markers text) → has_verse text.
Proof.
  unfold cut_at_markers, slice_from, slice_to.
  assert (has_verse
            (if decide (find text start_marker ≠ -1)
             then drop (Z.to_nat (find text start_marker)) text else text) →
          has_verse text) as Hstart.
  { case_decide as Hfound; [|done].
    intros [Hv|Hv]%has_verse_drop; [|done].
    destruct (find_range text start_marker) as [?|[k Hk]]; [done |].
    rewrite Hk, Nat2Z.id in Hv. apply find_found in Hk as [Hk _].
    by apply start_marker_no_verse in Hk. }
  destruct (decide (find text end_marker ≠ -1)); [|by apply Hstart].
  intros Hv%has_verse_take. by apply Hstart.
Qed.

Lemma clean_gospel_no_verse (text : str) :
  Forall (λ l, ¬ verse_line l) (split NEWLINE text) → clean_gospel text = [].
Proof.
  intros Hall. rewrite clean_gospel_cut.
  apply join_drop_header. apply Forall_Exists_neg.
  rewrite Exists_verse_line. intros Hv%has_verse_cut_at_markers.
  apply Exists_verse_line in Hv. by apply Forall_Exists_neg in Hall.
Qed.

End NoVerse.

(** ** One document *)

Section Document.
Context {F : Floats} {U : Unicode} {B : TextBlob} {SW : Stopwords}.

Lemma lower_words_nil : lower_words [] = [].
Proof. unfold lower_words. by rewrite lower_ascii. Qed.

Lemma tokenize_and_clean_nil : tokenize_and_clean [] = [].
Proof. unfold tokenize_and_clean. by rewrite lower_words_nil. Qed.

Lemma tokenize_and_clean_length (text : str) :
  (length (tokenize_and_clean text) ≤ length (lower_words text))%nat.
Proof. apply length_filter. Qed.

(** A shorter ranking is the start of a longer one. *)
Lemma get_top_words_take (words : list str) (n m : Z) :
  n ≤ m →
  get_top_words words n = take (Z.to_nat n) (get_top_words words m).
Proof.
  intros Hnm. unfold get_top_words, most_common.
  rewrite <-fmap_take, take_take. do 2 f_equal. lia.
Qed.

(** [analyze_gospel] on a file that can be read. *)
Lemma analyze_gospel_Ok (base_path : path) (name : str)
    (filename : path) (text : str) (st : state) :
  files st !! (base_path ++ filename) = Some text →
  let text' := clean_gospel text in
  let filtered_words := tokenize_and_clean text' in
  ∃ m, calculate_style_metrics text' filtered_words = Ok m ∧
       analyze_gospel base_path name filename st
       = (Ok {| name := name;
                sentiment := analyze_sentiment text';
                style_metrics := m;
                top_words := get_top_words filtered_words 20;
                word_cloud := get_top_words filtered_words 50;
                all_words := Some filtered_words |}, st).
Proof.
  intros Hfile text' filtered_words.
  destruct (calculate_style_metrics_Ok text' filtered_words) as (m & Hm & _).
  exists m. split; [done |].
  unfold analyze_gospel, load_gospel, read_text, lift, mbind, M_bind, mret,
    M_ret.
  rewrite Hfile. fold text'. fold filtered_words. by rewrite Hm.
Qed.

End Document.

(** X4.  [analyze_gospel] never fails on a file that can be read: no
    division by zero is met.  It leaves the analyzer and the files as they
    were.  In the document, [top_words] is the first 20 entries of
    [word_cloud], which has at most 50; [all_words] holds the filtered
    tokens of the loaded text, no more than [total_words]; and there is a
    verse as soon as there is a word. *)
Theorem analyze_gospel_document {F : Floats} {U : Unicode} {B : TextBlob}
    {SW : Stopwords} (base_path : path) (name : str)
    (filename : path) (text : str) (st : state) :
  files st !! (base_path ++ filename) = Some text →
  ∃ doc tokens,
    analyze_gospel base_path name filename st = (Ok doc, st) ∧
    calculate_style_metrics (clean_gospel text) tokens
    = Ok (style_metrics doc) ∧
    tokens = tokenize_and_clean (clean_gospel text) ∧
    all_words doc = Some tokens ∧
    top_words doc = take 20 (word_cloud doc) ∧
    (length (word_cloud doc) ≤ 50)%nat ∧
    Z.of_nat (length tokens) ≤ total_words (style_metrics doc) ∧
    (verse_count (style_metrics doc) = 0 →
     total_words (style_metrics doc) = 0).
Proof.
  intros Hfile.
  destruct (analyze_gospel_Ok base_path name filename text st Hfile)
    as (m & Hm & Hdoc).
  eexists _, _. split; [exact Hdoc |]. cbn [style_metrics all_words top_words
    word_cloud].
  destruct (calculate_style_metrics_Ok (clean_gospel text)
              (tokenize_and_clean (clean_gospel text)))
    as (m' & Hm' & Htotal & _ & Hverses & _).
  assert (m' = m) as -> by congruence.
  split_and!; [done | done | done | | | |].
  - by apply (get_top_words_take _ 20 50).
  - unfold get_top_words, most_common. rewrite length_fmap, length_take. lia.
  - rewrite Htotal. apply inj_le, tokenize_and_clean_length.
  - rewrite Hverses, Htotal, findall_verse_re_lines.
    destruct (join_drop_header (cut_at_markers text)) as (_ & Hkept & _).
    rewrite <-clean_gospel_cut in Hkept.
    destruct Hkept as [->|Hv]; [by rewrite lower_words_nil |].
    intros Hnone.
    assert (Exists verse_line (split NEWLINE (clean_gospel text))) as Hex
      by (apply Exists_verse_line; by left).
    apply Exists_exists in Hex as (line & Hin & Hline).
    assert (line ∈ filter verse_line (split NEWLINE (clean_gospel text)))
      as Hin' by by apply list_elem_of_filter.
    destruct (filter verse_line _); [by apply not_elem_of_nil in Hin' | done].
Qed.

Lemma analyze_gospel_document_witness :
  ∃ doc tokens,
    analyze_gospel [py "home"] (py "Matthew") [py "pg8828.txt"]
      (fresh sample_files)
    = (Ok doc, fresh sample_files) ∧
    calculate_style_metrics (clean_gospel sample_text) tokens
    = Ok (style_metrics doc) ∧
    tokens = tokenize_and_clean (clean_gospel sample_text) ∧
    all_words doc = Some tokens ∧
    top_words doc = take 20 (word_cloud doc) ∧
    (length (word_cloud doc) ≤ 50)%nat ∧
    Z.of_nat (length tokens) ≤ total_words (style_metrics doc) ∧
    (verse_count (style_metrics doc) = 0 →
     total_words (style_metrics doc) = 0).
Proof.
  apply (analyze_gospel_document [py "home"] (py "Matthew") [py "pg8828.txt"]
           sample_text (fresh sample_files)).
  vm_compute. reflexivity.
Defined.

(** X5.  A file in which no line starts with a verse marker is analyzed
    without any error, as the empty text: every count is 0, both ratios
    are the [int] 0, and there is no token and no top word. *)
Theorem analyze_gospel_no_verse {F : Floats} {U : Unicode} {B : TextBlob}
    {SW : Stopwords} (base_path : path) (name : str)
    (filename : path) (text : str) (st : state) :
  files st !! (base_path ++ filename) = Some text →
  Forall (λ line, ¬ verse_line line) (split NEWLINE text) →
  analyze_gospel base_path name filename st
  = (Ok {| name := name;
           sentiment := analyze_sentiment [];
           style_metrics :=
             {| total_words := 0;
                unique_words := 0;
                lexical_diversity := Int 0;
                vocabulary_size := 0;
                verse_count := 0;
                avg_words_per_verse := Int 0 |};
           top_words := [];
           word_cloud := [];
           all_words := Some [] |}, st).
Proof.
  intros Hfile Hnone.
  destruct (analyze_gospel_Ok base_path name filename text st Hfile)
    as (m & Hm & ->).
  rewrite (clean_gospel_no_verse text Hnone) in *.
  rewrite tokenize_and_clean_nil in *.
  unfold calculate_style_metrics in Hm. rewrite lower_words_nil in Hm.
  simpl in Hm. injection Hm as <-. done.
Qed.

Lemma analyze_gospel_no_verse_witness :
  let st := fresh [([py "home"; py "pg8830.txt"], preface_text)] in
  analyze_gospel [py "home"] (py "Luke") [py "pg8830.txt"] st
  = (Ok {| name := py "Luke";
           sentiment := analyze_sentiment [];
           style_metrics :=
             {| total_words := 0;
                unique_words := 0;
                lexical_diversity := Int 0;
                vocabulary_size := 0;
                verse_count := 0;
                avg_words_per_verse := Int 0 |};
           top_words := [];
           word_cloud := [];
           all_words := Some [] |}, st).
Proof.
  apply (analyze_gospel_no_verse [py "home"] (py "Luke") [py "pg8830.txt"]
           preface_text).
  - vm_compute. reflexivity.
  - apply (bool_decide_unpack _). vm_compute. exact I.
Defined.

(** ** A whole run *)

Lemma dict_get_set {V} (d : list (str * V)) (k : str) (v : V) :
  dict_get (dict_set d k v) k = Ok v.
Proof.
  induction d as [|[k' v'] d IH]; simpl.
  - by rewrite decide_True.
  - case_decide; simpl; [by rewrite decide_True | by rewrite decide_False].
Qed.

Lemma dict_get_set_ne {V} (d : list (str * V)) (k k' : str) (v : V) :
  k ≠ k' → dict_get (dict_set d k v) k' = dict_get d k'.
Proof.
  intros Hne. induction d as [|[k0 v0] d IH]; simpl.
  - by rewrite decide_False.
  - destruct (decide (k0 = k)) as [->|Hk0]; simpl.
    + by rewrite !decide_False.
    + by rewrite IH.
Qed.

(** Three assignments to a dict whose keys are among the first of the
    three keys, in their order. *)
Lemma dict_set_three {V} (d : list (str * V)) (a b c : str) (x y z : V) :
  a ≠ b → a ≠ c → b ≠ c →
  d.*1 `prefix_of` [a; b; c] →
  dict_set (dict_set (dict_set d a x) b y) c z = [(a, x); (b, y); (c, z)].
Proof.
  intros Hab Hac Hbc [k Hk].
  destruct d as [|[k1 v1] [|[k2 v2] [|[k3 v3] [|[k4 v4] d]]]];
    simplify_eq/=; repeat (rewrite ?decide_True by done;
                           rewrite ?decide_False by done; simpl); done.
Qed.

Lemma gospel_names_distinct :
  py "Matthew" ≠ py "Mark" ∧ py "Matthew" ≠ py "Luke" ∧
  py "Mark" ≠ py "Luke".
Proof. split_and!; by vm_compute. Qed.

(** The tests on the keys of a dict, when the context tells which keys
    are equal. *)
Ltac decide_keys :=
  repeat match goal with
         | |- context [decide (?a = ?b)] =>
             first [ rewrite (decide_True (P:=a = b)) by done
                   | rewrite (decide_False (P:=a = b)) by done ]
         end.

Section Run.
Context {F : Floats} {U : Unicode} {B : TextBlob} {SW : Stopwords}
  {SO : SetOrder}.
Variable base_path : path.

(** What [analyze_gospel] returns is a matter of the files only. *)
Lemma analyze_gospel_files (name : str) (filename : path) (st : state) :
  is_Some (files st !! (base_path ++ filename)) →
  ∃ doc tokens,
    all_words doc = Some tokens ∧
    ∀ st0, files st0 = files st →
           analyze_gospel base_path name filename st0 = (Ok doc, st0).
Proof.
  intros [text Hfile].
  destruct (analyze_gospel_Ok base_path name filename text st Hfile)
    as (m & Hm & Hdoc).
  match type of Hdoc with _ = (Ok ?d, _) =>
    exists d, (tokenize_and_clean (clean_gospel text)) end.
  split; [reflexivity |]. intros st0 Hfiles.
  rewrite <-Hfiles in Hfile.
  destruct (analyze_gospel_Ok base_path name filename text st0 Hfile)
    as (m' & Hm' & Hdoc').
  assert (m' = m) as -> by congruence. exact Hdoc'.
Qed.

(** [run_analysis] when the three files can be read, on an analyzer that
    is new or has run before. *)
Lemma run_analysis_report (st : state) :
  (results st).*1 `prefix_of` gospel_files.*1 →
  Forall (λ g, is_Some (files st !! (base_path ++ g.2))) gospel_files →
  ∃ matthew mark luke matthew_words mark_words luke_words,
    (∀ st0, files st0 = files st →
       analyze_gospel base_path (py "Matthew") [py "pg8828.txt"] st0
       = (Ok matthew, st0)) ∧
    (∀ st0, files st0 = files st →
       analyze_gospel base_path (py "Mark") [py "pg8829.txt"] st0
       = (Ok mark, st0)) ∧
    (∀ st0, files st0 = files st →
       analyze_gospel base_path (py "Luke") [py "pg8830.txt"] st0
       = (Ok luke, st0)) ∧
    all_words matthew = Some matthew_words ∧
    all_words mark = Some mark_words ∧
    all_words luke = Some luke_words ∧
    let report :=
      {| gospels := [ (py "Matthew", without_all_words matthew);
                      (py "Mark", without_all_words mark);
                      (py "Luke", without_all_words luke) ];
         overlapping_words := overlap matthew_words mark_words luke_words;
         metadata :=
           {| total_overlapping_words :=
                Z.of_nat (length (overlap matthew_words mark_words luke_words));
              analysis_type := py "whole_gospel_level";
              sentiment_tool := py "TextBlob";
              source := py "Weymouth New Testament in Modern Speech (1913)" |}
      |} in
    run_analysis base_path st
    = (Ok report, {| files := files st; dirs := dirs st;
                     results := gospels report |}).
Proof.
  intros Hkeys Hfiles.
  destruct gospel_names_distinct as (Hab & Hac & Hbc).
  unfold gospel_files in Hfiles.
  apply Forall_cons in Hfiles as [HM Hfiles].
  apply Forall_cons in Hfiles as [HMk Hfiles].
  apply Forall_cons in Hfiles as [HL _].
  destruct (analyze_gospel_files (py "Matthew") _ st HM) as (dM & tM & HtM & HdM).
  destruct (analyze_gospel_files (py "Mark") _ st HMk) as (dMk & tMk & HtMk & HdMk).
  destruct (analyze_gospel_files (py "Luke") _ st HL) as (dL & tL & HtL & HdL).
  exists dM, dMk, dL, tM, tMk, tL.
  split_and!; [done | done | done | done | done | done |].
  intros report.
  unfold run_analysis, gospel_files. cbn [analyze_each].
  unfold mbind, M_bind, get_results, set_results, mret, M_ret.
  rewrite HdM by done. cbn [results files dirs].
  rewrite HdMk by done. cbn [results files dirs].
  rewrite HdL by done. cbn [results files dirs].
  rewrite (dict_set_three (results st)) by done.
  assert (py "Mark" ≠ py "Matthew" ∧ py "Luke" ≠ py "Matthew" ∧
          py "Luke" ≠ py "Mark") as (Hba & Hca & Hcb) by by split_and!.
  unfold find_overlapping_words, all_words_of, lift, mbind, M_bind, get_results,
    mret, M_ret, result_bind.
  cbn [results files dirs dict_get]. decide_keys.
  rewrite HtM, HtMk, HtL.
  cbn [results files dirs].
  rewrite !fmap_cons, fmap_nil. cbn [fst delete_all_words].
  unfold mbind, M_bind, get_results, set_results, lift, mret, M_ret.
  cbn [results files dirs dict_get dict_set]. decide_keys.
  rewrite HtM. cbn [results files dirs dict_get dict_set]. decide_keys.
  rewrite HtMk. cbn [results files dirs dict_get dict_set]. decide_keys.
  rewrite HtL. cbn [results files dirs dict_get dict_set]. decide_keys.
  reflexivity.
Qed.


End Run.

(** X6.  On an analyzer that is new, or that has run before, and with the
    three files readable, [run_analysis] succeeds.  The report holds the
    documents of Matthew, Mark and Luke in this order, each as
    [analyze_gospel] returns it but without its [all_words]; the
    overlapping words are those of the three token lists; the analyzer
    keeps the documents of the report, and no file or directory has
    changed. *)
Theorem run_analysis_succeeds {F : Floats} {U : Unicode} {B : TextBlob}
    {SW : Stopwords} {SO : SetOrder} (base_path : path) (st : state) :
  (results st).*1 `prefix_of` gospel_files.*1 →
  Forall (λ g, is_Some (files st !! (base_path ++ g.2))) gospel_files →
  ∃ report st' matthew mark luke matthew_words mark_words luke_words,
    run_analysis base_path st = (Ok report, st') ∧
    files st' = files st ∧ dirs st' = dirs st ∧
    results st' = gospels report ∧
    analyze_gospel base_path (py "Matthew") [py "pg8828.txt"] st
    = (Ok matthew, st) ∧
    analyze_gospel base_path (py "Mark") [py "pg8829.txt"] st
    = (Ok mark, st) ∧
    analyze_gospel base_path (py "Luke") [py "pg8830.txt"] st
    = (Ok luke, st) ∧
    gospels report = [ (py "Matthew", without_all_words matthew);
                       (py "Mark", without_all_words mark);
                       (py "Luke", without_all_words luke) ] ∧
    all_words matthew = Some matthew_words ∧
    all_words mark = Some mark_words ∧
    all_words luke = Some luke_words ∧
    overlapping_words report = overlap matthew_words mark_words luke_words.
Proof.
  intros Hkeys Hfiles.
  destruct (run_analysis_report base_path st Hkeys Hfiles)
    as (dM & dMk & dL & tM & tMk & tL & HdM & HdMk & HdL & HtM & HtMk & HtL
        & Hrun).
  eexists _, _, dM, dMk, dL, tM, tMk, tL.
  split; [exact Hrun |].
  split_and!; try done; [by apply HdM | by apply HdMk | by apply HdL].
Qed.

Lemma run_analysis_succeeds_witness :
  ∃ report st' matthew mark luke matthew_words mark_words luke_words,
    run_analysis [py "home"] (fresh sample_files) = (Ok report, st') ∧
    files st' = files (fresh sample_files) ∧
    dirs st' = dirs (fresh sample_files) ∧
    results st' = gospels report ∧
    analyze_gospel [py "home"] (py "Matthew") [py "pg8828.txt"]
      (fresh sample_files)
    = (Ok matthew, fresh sample_files) ∧
    analyze_gospel [py "home"] (py "Mark") [py "pg8829.txt"]
      (fresh sample_files)
    = (Ok mark, fresh sample_files) ∧
    analyze_gospel [py "home"] (py "Luke") [py "pg8830.txt"]
      (fresh sample_files)
    = (Ok luke, fresh sample_files) ∧
    gospels report = [ (py "Matthew", without_all_words matthew);
                       (py "Mark", without_all_words mark);
                       (py "Luke", without_all_words luke) ] ∧
    all_words matthew = Some matthew_words ∧
    all_words mark = Some mark_words ∧
    all_words luke = Some luke_words ∧
    overlapping_words report = overlap matthew_words mark_words luke_words.
Proof.
  apply (run_analysis_succeeds [py "home"] (fresh sample_files)).
  - by exists gospel_files.*1.
  - apply (bool_decide_unpack _). vm_compute. exact I.
Defined.



(** ** The report on disk *)

(** X8.  [save_results] succeeds when no file stands in the way of the
    directory of the output, the output path is not a directory, the three
    files can be read and the analyzer is new or has run before.  It
    returns the report of [run_analysis]; it has created the directories
    above the output path, and the files are as before except at the
    output path, which holds the encoded report. *)
Theorem save_results_succeeds {F : Floats} {U : Unicode} {B : TextBlob}
    {SW : Stopwords} {SO : SetOrder} {E : JsonEncoder}
    (base_path output_path : path) (st : state) :
  let output_file := base_path ++ output_path in
  ¬ Exists (λ q, is_Some (files st !! q)) (ancestors (parent output_file)) →
  output_file ≠ [] → output_file ∉ dirs st →
  (results st).*1 `prefix_of` gospel_files.*1 →
  Forall (λ g, is_Some (files st !! (base_path ++ g.2))) gospel_files →
  ∃ report st1 st',
    save_results base_path output_path st = (Ok report, st') ∧
    run_analysis base_path st = (Ok report, st1) ∧
    files st' = <[output_file := dump (report_json report)]> (files st) ∧
    dirs st' = dirs st ∪ list_to_set (ancestors (parent output_file)) ∧
    results st' = gospels report.
Proof.
  intros output_file Hmkdir Hroot Hdir Hkeys Hfiles.
  set (st0 := {| files := files st;
                 dirs := dirs st ∪ list_to_set (ancestors (parent output_file));
                 results := results st |}).
  destruct (run_analysis_report base_path st0 Hkeys Hfiles)
    as (dM' & dMk' & dL' & tM' & tMk' & tL' & HdM' & HdMk' & HdL'
        & HtM' & HtMk' & HtL' & Hrun0).
  destruct (run_analysis_report base_path st Hkeys Hfiles)
    as (dM & dMk & dL & tM & tMk & tL & HdM & HdMk & HdL & HtM & HtMk & HtL
        & Hrun).
  cbv zeta in Hrun, Hrun0.
  specialize (HdM st eq_refl). specialize (HdMk st eq_refl).
  specialize (HdL st eq_refl).
  specialize (HdM' st eq_refl). specialize (HdMk' st eq_refl).
  specialize (HdL' st eq_refl).
  assert (dM' = dM) as -> by congruence.
  assert (dMk' = dMk) as -> by congruence.
  assert (dL' = dL) as -> by congruence.
  assert (tM' = tM) as -> by congruence.
  assert (tMk' = tMk) as -> by congruence.
  assert (tL' = tL) as -> by congruence.
  eexists _, _, _. split; [|split; [exact Hrun |]].
  - unfold save_results, mkdir_parents, write_text, mbind, M_bind, mret, M_ret.
    fold output_file. rewrite decide_False by done. fold st0. rewrite Hrun0.
    cbn [dirs files results].
    rewrite decide_False; [reflexivity |].
    intros Hin. unfold st0 in Hin. cbn [dirs] in Hin.
    apply elem_of_union in Hin as [?|Hin%elem_of_list_to_set]; [done |].
    by apply not_elem_of_ancestors_parent in Hin.
  - done.
Qed.

Lemma save_results_succeeds_witness :
  let output_file := [py "home"] ++ default_output_path in
  ∃ report st1 st',
    save_results [py "home"] default_output_path (fresh sample_files)
    = (Ok report, st') ∧
    run_analysis [py "home"] (fresh sample_files) = (Ok report, st1) ∧
    files st'
    = <[output_file := dump (report_json report)]>
        (files (fresh sample_files)) ∧
    dirs st'
    = dirs (fresh sample_files)
      ∪ list_to_set (ancestors (parent output_file)) ∧
    results st' = gospels report.
Proof.
  apply (save_results_succeeds [py "home"] default_output_path
           (fresh sample_files)).
  - apply (bool_decide_unpack _). vm_compute. exact I.
  - vm_compute. discriminate.
  - apply not_elem_of_empty.
  - by exists gospel_files.*1.
  - apply (bool_decide_unpack _). vm_compute. exact I.
Defined.

(** ** The token lists stay out of the report *)

Lemma dict_get_Ok_keys {V} (d : list (str * V)) (k : str) (v : V) :
  dict_get d k = Ok v → k ∈ d.*1.
Proof.
  induction d as [|[k' v'] d IH]; simpl; [done |].
  case_decide as Hk; [intros _; subst; by left | intros ?; right; by apply IH].
Qed.

Lemma dict_get_elem_of {V} (d : list (str * V)) (k : str) (v : V) :
  NoDup d.*1 → (k, v) ∈ d → dict_get d k = Ok v.
Proof.
  induction d as [|[k' v'] d IH]; simpl; [by intros _ ?%elem_of_nil |].
  intros [Hk' Hnd]%NoDup_cons [Heq|Hin]%elem_of_cons.
  - injection Heq as -> ->. by rewrite decide_True.
  - rewrite decide_False; [by apply IH |].
    intros ->. apply Hk'. apply list_elem_of_fmap. by exists (k, v).
Qed.

Section Deleted.
Context {F : Floats}.

(** The loop that deletes [all_words] keeps the keys, and the documents
    under the names it is not given. *)
Lemma delete_all_words_keys (names : list str) (st st' : state)
    (r : result ()) :
  delete_all_words names st = (r, st') →
  (results st').*1 = (results st).*1 ∧
  ∀ name, name ∉ names →
          dict_get (results st') name = dict_get (results st) name.
Proof.
  revert st. induction names as [|name names IH]; intros st; simpl.
  { by intros [= _ <-]. }
  unfold get_results, set_results, lift, mbind, M_bind. simpl.
  destruct (dict_get (results st) name) as [doc|e] eqn:Hdoc;
    [|by intros [= _ <-]].
  destruct (all_words doc); [|by intros [= _ <-]].
  intros [Hkeys Hother]%IH. simpl in Hkeys, Hother. split.
  - rewrite Hkeys, dict_set_keys. apply dict_get_Ok_keys in Hdoc.
    by rewrite decide_True.
  - intros name' [Hne Hnotin]%not_elem_of_cons.
    rewrite Hother by done. by apply dict_get_set_ne.
Qed.

(** When the loop ends, no document under one of the names has
    [all_words]. *)
Lemma delete_all_words_None (names : list str) (st st' : state) (u : ())
    (name : str) (doc : Document) :
  delete_all_words names st = (Ok u, st') →
  name ∈ names → dict_get (results st') name = Ok doc →
  all_words doc = None.
Proof.
  revert st. induction names as [|name' names IH]; intros st; simpl.
  { by intros _ ?%elem_of_nil. }
  unfold get_results, set_results, lift, mbind, M_bind. simpl.
  destruct (dict_get (results st) name') as [doc'|e] eqn:Hdoc'; [|done].
  destruct (all_words doc'); [|done].
  intros Hrest Hin Hdoc.
  destruct (decide (name ∈ names)) as [Hnames|Hnames]; [by eapply IH |].
  apply elem_of_cons in Hin as [->|?]; [|done].
  apply delete_all_words_keys in Hrest as [_ Hother].
  rewrite Hother in Hdoc by done. simpl in Hdoc.
  rewrite dict_get_set in Hdoc. by injection Hdoc as <-.
Qed.

End Deleted.

(** X9.  In a report that [run_analysis] returns, whatever the analyzer
    held before, no document has [all_words]: the object written for it
    has the five keys [name], [sentiment], [style_metrics], [top_words] and
    [word_cloud], and no other. *)
Theorem run_analysis_drops_all_words {F : Floats} {U : Unicode}
    {B : TextBlob} {SW : Stopwords} {SO : SetOrder}
    (base_path : path) (st st' : state) (report : AnalysisReport) :
  NoDup (results st).*1 →
  run_analysis base_path st = (Ok report, st') →
  Forall (λ kv,
    all_words kv.2 = None ∧
    ∃ o, document_json kv.2 = JObject o ∧
         o.*1 = py <$> [ "name"; "sentiment"; "style_metrics"; "top_words";
                         "word_cloud" ]%string)
    (gospels report).
Proof.
  intros Hnd Hrun.
  assert (Forall (λ kv, all_words kv.2 = None) (gospels report)) as Hnone.
  { destruct (run_analysis_Ok base_path st st' report Hrun)
      as (Hgospels & _ & Hnd').
    specialize (Hnd' Hnd). revert Hrun. unfold run_analysis.
    intros [(u1 & st1 & Hea & Hrest) | (e & _ & ?)]%bind_inv; [|done].
    apply bind_inv in Hrest as [(ow & st2 & Hfo & Hrest) | (e & _ & ?)];
      [|done].
    pose proof (find_overlapping_words_state st1) as Hst2.
    rewrite Hfo in Hst2. simpl in Hst2. subst st2.
    apply bind_inv in Hrest as [(rs & st3 & Hget & Hrest) | (e & _ & ?)];
      [|done].
    unfold get_results in Hget. injection Hget as ? ?. subst rs st3.
    apply bind_inv in Hrest as [(u2 & st4 & Hdel & Hrest) | (e & _ & ?)];
      [|done].
    unfold get_results, mbind, M_bind, mret, M_ret in Hrest.
    injection Hrest as <- <-. simpl.
    apply Forall_forall. intros [name doc] Hin. simpl.
    destruct (delete_all_words_keys _ _ _ _ Hdel) as [Hkeys _].
    apply (delete_all_words_None _ _ _ _ name doc Hdel).
    - rewrite <-Hkeys. apply list_elem_of_fmap. by exists (name, doc).
    - by apply dict_get_elem_of. }
  eapply Forall_impl; [exact Hnone |].
  intros [name doc] Hdoc. simpl in *. split; [done |].
  unfold document_json. rewrite Hdoc. by eexists.
Qed.

Lemma run_analysis_drops_all_words_witness :
  ∃ report st',
    run_analysis [py "home"] (fresh sample_files) = (Ok report, st') ∧
    Forall (λ kv,
      all_words kv.2 = None ∧
      ∃ o, document_json kv.2 = JObject o ∧
           o.*1 = py <$> [ "name"; "sentiment"; "style_metrics"; "top_words";
                           "word_cloud" ]%string)
      (gospels report).
Proof.
  assert (run_analysis [py "home"] (fresh sample_files) = sample_run) as Hrun
    by reflexivity.
  unfold sample_run in Hrun.
  match type of Hrun with _ = (Ok ?report, ?st') => exists report, st' end.
  split; [exact Hrun |].
  apply (run_analysis_drops_all_words [py "home"] (fresh sample_files) _ _
           (NoDup_nil_2 : NoDup []) Hrun).
Defined.

(** ** The counts of a ranking *)

Lemma list_count_nonneg (k : str) (ws : list str) : 0 ≤ list_count k ws.
Proof. unfold list_count. lia. Qed.

Lemma list_count_pos (k : str) (ws : list str) :
  k ∈ ws → 1 ≤ list_count k ws.
Proof.
  intros Hin. unfold list_count.
  assert (k ∈ filter (k =.) ws) as Hf by by apply list_elem_of_filter.
  destruct (filter (k =.) ws); [by apply elem_of_nil in Hf | simpl; lia].
Qed.

(** A word and the other words make up the list. *)
Lemma list_count_split (k : str) (ws : list str) :
  Z.of_nat (length ws)
  = list_count k ws + Z.of_nat (length (filter (λ w, w ≠ k) ws)).
Proof.
  unfold list_count. induction ws as [|w ws IH]; [done |].
  rewrite !filter_cons. destruct (decide (k = w)) as [->|Hne].
  - rewrite decide_False by (by intros ?). simpl. lia.
  - rewrite decide_True by (by intros ->). simpl. lia.
Qed.

(** The counts of the distinct words add up to the length of the list. *)
Lemma sum_list_count (ks ws : list str) :
  NoDup ks → (∀ k, k ∈ ks ↔ k ∈ ws) →
  foldr (λ k acc, list_count k ws + acc) 0 ks = Z.of_nat (length ws).
Proof.
  revert ws. induction ks as [|k ks IH]; intros ws Hnd Hks.
  { destruct ws as [|w ws]; [done |].
    assert (w ∈ []) as Hw by (apply Hks; by left). by apply elem_of_nil in Hw. }
  apply NoDup_cons in Hnd as [Hk Hnd]. simpl.
  rewrite (list_count_split k ws). f_equal.
  rewrite <-(IH (filter (λ w, w ≠ k) ws)); [| done |].
  - clear IH Hnd Hks. induction ks as [|k' ks IH]; [done |].
    apply not_elem_of_cons in Hk as [Hne Hk]. simpl.
    rewrite IH by done. f_equal.
    symmetry. apply (list_count_filter (λ w, w ≠ k)). by intros ->.
  - intros k'. rewrite list_elem_of_filter, <-Hks, elem_of_cons.
    split; [intros Hin; split; [by intros -> | by right] |].
    by intros [Hne [->|Hin]].
Qed.

Section Sums.
Context {A : Type} (key : A → Z).

Lemma foldr_key_perm (l1 l2 : list A) :
  l1 ≡ₚ l2 →
  foldr (λ x acc, key x + acc) 0 l1 = foldr (λ x acc, key x + acc) 0 l2.
Proof. induction 1; simpl; lia. Qed.

Lemma foldr_key_take (l : list A) (n : nat) :
  Forall (λ x, 0 ≤ key x) l →
  0 ≤ foldr (λ x acc, key x + acc) 0 (take n l)
  ≤ foldr (λ x acc, key x + acc) 0 l.
Proof.
  intros Hl. revert n. induction Hl as [|x l Hx Hl IH]; intros [|n]; simpl;
    try lia.
  - assert (0 ≤ foldr (λ x acc, key x + acc) 0 l) by (specialize (IH 0%nat);
      rewrite take_0 in IH; simpl in IH; lia).
    lia.
  - specialize (IH n). lia.
Qed.

End Sums.

(** X10.  Every entry that [get_top_words] returns counts at least one
    occurrence, and the counts add up to no more than the number of words
    ranked: to that number exactly when [n] is no smaller than the number
    of distinct words. *)
Theorem get_top_words_counts (words : list str) (n : Z) :
  Forall (λ e, 1 ≤ Freq.count e) (get_top_words words n) ∧
  total_count (get_top_words words n) ≤ Z.of_nat (length words) ∧
  (Z.of_nat (size (list_to_set words : gset str)) ≤ n →
   total_count (get_top_words words n) = Z.of_nat (length words)).
Proof.
  destruct (Counter_counts_of words) as (Hc & Hnd & Hks & _).
  pose proof (sorted_desc_perm snd (Counter words)) as Hperm.
  assert (Forall (λ kv, 1 ≤ kv.2) (Counter words)) as Hpos.
  { rewrite Hc. apply Forall_fmap, Forall_forall. intros k Hk. simpl.
    by apply list_count_pos, Hks. }
  assert (foldr (λ kv acc, kv.2 + acc) 0 (Counter words)
          = Z.of_nat (length words)) as Hsum.
  { rewrite <-(sum_list_count (Counter words).*1 words) by done.
    rewrite Hc at 1. generalize (Counter words).*1. intros ks.
    induction ks as [|k ks IH]; [done |]. simpl. by rewrite <-IH. }
  assert (∀ l, total_count
                 ((λ '(word, count),
                    {| Freq.word := word; Freq.count := count |}) <$> l)
               = foldr (λ kv acc, kv.2 + acc) 0 l) as Htotal.
  { intros l. induction l as [|[k v] l IH]; [done |].
    rewrite fmap_cons. simpl. by rewrite <-IH. }
  unfold get_top_words, most_common. rewrite Htotal.
  rewrite <-Hperm in Hpos.
  rewrite <-(foldr_key_perm snd _ _ Hperm) in Hsum.
  split_and!.
  - apply Forall_fmap. eapply Forall_impl;
      [by apply Forall_take, Hpos | by intros [k v]].
  - rewrite <-Hsum. apply foldr_key_take.
    eapply Forall_impl; [exact Hpos |]. intros kv ?. simpl in *. lia.
  - intros Hn. rewrite take_ge; [done |].
    rewrite Hperm. rewrite <-(length_fmap fst).
    rewrite (size_list_to_set_NoDup _ words Hnd Hks). lia.
Qed.

(** ** The overlap *)

Lemma dict_get_KeyError {V} (d : list (str * V)) (k : str) (e : exn) :
  dict_get d k = Raise e → e = KeyError.
Proof.
  induction d as [|[k' v'] d IH]; simpl; [by intros [= <-] |].
  by case_decide.
Qed.

Section Counts.
Context {SO : SetOrder}.

(** The entries of the overlap are those of the common words. *)
Lemma elem_of_overlap (matthew mark luke : list str) (e : Overlap.entry) :
  e ∈ overlap matthew mark luke →
  e = overlap_entry matthew mark luke (Overlap.word e) ∧
  Overlap.word e ∈ matthew ∧ Overlap.word e ∈ mark ∧ Overlap.word e ∈ luke.
Proof.
  unfold overlap. rewrite sorted_desc_perm.
  intros (w & -> & Hw)%list_elem_of_fmap. split; [done |].
  apply elem_of_iter in Hw. simpl.
  apply elem_of_intersection in Hw as [Hw Hl].
  apply elem_of_intersection in Hw as [Hm Hk].
  by rewrite !elem_of_list_to_set in Hm, Hk, Hl.
Qed.

Lemma length_overlap (matthew mark luke : list str) :
  length (overlap matthew mark luke)
  = size (list_to_set matthew ∩ list_to_set mark ∩ list_to_set luke
          : gset str).
Proof.
  unfold overlap. rewrite sorted_desc_perm, length_fmap.
  by rewrite iter_elements.
Qed.

End Counts.

(** X11.  Every entry that [find_overlapping_words] returns counts at
    least one occurrence in each of the three token lists, so its total is
    at least 3.  There are no more entries than any of the lists has
    distinct tokens: none at all when one of the lists is empty. *)
Theorem find_overlapping_words_counts {SO : SetOrder} {F : Floats}
    (st : state) (matthew mark luke : list str) :
  all_words_of (results st) (py "Matthew") = Ok matthew →
  all_words_of (results st) (py "Mark") = Ok mark →
  all_words_of (results st) (py "Luke") = Ok luke →
  ∃ overlap_data,
    find_overlapping_words st = (Ok overlap_data, st) ∧
    Forall (λ e, 1 ≤ Overlap.matthew e ∧ 1 ≤ Overlap.mark e ∧
                 1 ≤ Overlap.luke e ∧ 3 ≤ Overlap.total e) overlap_data ∧
    (length overlap_data ≤ size (list_to_set matthew : gset str))%nat ∧
    (length overlap_data ≤ size (list_to_set mark : gset str))%nat ∧
    (length overlap_data ≤ size (list_to_set luke : gset str))%nat ∧
    (matthew = [] ∨ mark = [] ∨ luke = [] → overlap_data = []).
Proof.
  intros HM HMk HL. exists (overlap matthew mark luke).
  split; [by apply find_overlapping_words_overlap |].
  assert ((length (overlap matthew mark luke)
           ≤ size (list_to_set matthew : gset str))%nat ∧
          (length (overlap matthew mark luke)
           ≤ size (list_to_set mark : gset str))%nat ∧
          (length (overlap matthew mark luke)
           ≤ size (list_to_set luke : gset str))%nat) as (Hm & Hk & Hl).
  { rewrite length_overlap. split_and!; apply subseteq_size.
    - etrans; apply intersection_subseteq_l.
    - etrans; [apply intersection_subseteq_l | apply intersection_subseteq_r].
    - apply intersection_subseteq_r. }
  split_and!; [| done | done | done |].
  - apply Forall_forall. intros e (Heq & Hem & Hek & Hel)%elem_of_overlap.
    apply list_count_pos in Hem, Hek, Hel. rewrite Heq. simpl. lia.
  - intros Hnil. apply length_zero_iff_nil.
    destruct Hnil as [Hnil|[Hnil|Hnil]]; subst;
      rewrite list_to_set_nil, size_empty in *; lia.
Qed.

Lemma find_overlapping_words_counts_witness :
  ∃ overlap_data,
    find_overlapping_words analyzed = (Ok overlap_data, analyzed) ∧
    Forall (λ e, 1 ≤ Overlap.matthew e ∧ 1 ≤ Overlap.mark e ∧
                 1 ≤ Overlap.luke e ∧ 3 ≤ Overlap.total e) overlap_data ∧
    (length overlap_data ≤ size (list_to_set matthew_tokens : gset str))%nat ∧
    (length overlap_data ≤ size (list_to_set mark_tokens : gset str))%nat ∧
    (length overlap_data ≤ size (list_to_set luke_tokens : gset str))%nat ∧
    (matthew_tokens = [] ∨ mark_tokens = [] ∨ luke_tokens = [] →
     overlap_data = []).
Proof.
  apply (find_overlapping_words_counts analyzed
           matthew_tokens mark_tokens luke_tokens).
  - vm_compute. reflexivity.
  - vm_compute. reflexivity.
  - vm_compute. reflexivity.
Defined.

(** X12.  [find_overlapping_words] never changes the analyzer, and the
    only exception it raises is [KeyError]: it does exactly when, for one
    of the three gospels, [self.results] has no document, or the document
    no [all_words]. *)
Theorem find_overlapping_words_KeyError {SO : SetOrder} {F : Floats}
    (st : state) :
  ((∃ overlap_data, find_overlapping_words st = (Ok overlap_data, st)) ∨
   find_overlapping_words st = (Raise KeyError, st)) ∧
  (find_overlapping_words st = (Raise KeyError, st) ↔
   Exists (λ name, ∀ doc, dict_get (results st) name = Ok doc →
                          all_words doc = None)
     [py "Matthew"; py "Mark"; py "Luke"]).
Proof.
  assert (∀ name,
            (∃ words, all_words_of (results st) name = Ok words ∧
                      ∃ doc, dict_get (results st) name = Ok doc ∧
                             all_words doc = Some words) ∨
            (all_words_of (results st) name = Raise KeyError ∧
             ∀ doc, dict_get (results st) name = Ok doc →
                    all_words doc = None)) as Hname.
  { intros name. unfold all_words_of.
    destruct (dict_get (results st) name) as [doc|e] eqn:Hdoc; simpl.
    - destruct (all_words doc) as [words|] eqn:Hwords.
      + left. exists words. split; [done |]. by exists doc.
      + right. split; [done |]. by intros ? [= <-].
    - right. apply dict_get_KeyError in Hdoc as ->. by split. }
  unfold find_overlapping_words, lift, mbind, M_bind, get_results, mret, M_ret.
  rewrite !Exists_cons, Exists_nil.
  destruct (Hname (py "Matthew")) as [(tM & -> & dM & HdM & HtM)|[-> HM]];
    [|split; [by right | by intuition]].
  destruct (Hname (py "Mark")) as [(tMk & -> & dMk & HdMk & HtMk)|[-> HMk]];
    [|split; [by right | by intuition]].
  destruct (Hname (py "Luke")) as [(tL & -> & dL & HdL & HtL)|[-> HL]];
    [|split; [by right | by intuition]].
  split; [left; by eexists |].
  split; [done |].
  intros [H|[H|[H|[]]]].
  - specialize (H _ HdM). congruence.
  - specialize (H _ HdMk). congruence.
  - specialize (H _ HdL). congruence.
Qed.

(** ** Tokens on both sides of a separator *)

Section Separator.
Context `{Unicode}.

Lemma is_word_not_az (c : char) : is_word c = false → is_az c = false.
Proof.
  intros Hc. destruct (is_az c) eqn:Haz; [|done].
  apply az_is_word in Haz. congruence.
Qed.

Lemma az_run_app (x y : str) (c : char) :
  is_az c = false → az_run (x ++ c :: y) = az_run x.
Proof.
  intros Hc. induction x as [|a x IH]; simpl; [by rewrite Hc |].
  by rewrite IH.
Qed.

(** A character that is no word character ends the text for the pattern. *)
Lemma word_re_app (prev : option char) (x y : str) (c : char) :
  is_word c = false → word_re prev (x ++ c :: y) = word_re prev x.
Proof.
  intros Hc. pose proof (is_word_not_az c Hc) as Haz.
  assert (∀ j, word_re prev (x ++ c :: y) = Some j ↔ word_re prev x = Some j)
    as Hiff.
  { assert (is_word_opt ((x ++ c :: y) !! az_run x)
            = is_word_opt (x !! az_run x)) as Hnext.
    { pose proof (az_run_length x) as Hlen.
      destruct (decide (az_run x < length x)%nat) as [Hlt|Hge].
      - by rewrite lookup_app_l.
      - assert (az_run x = length x) as -> by lia.
        rewrite list_lookup_middle by done.
        rewrite lookup_ge_None_2 by done. done. }
    intros j. rewrite !word_re_Some, az_run_app by done.
    split; intros (-> & ? & ? & Hend); split_and!; try done; congruence. }
  destruct (word_re prev x) as [j|].
  - by apply Hiff.
  - destruct (word_re prev (x ++ c :: y)) as [j|]; [|done].
    by destruct (proj1 (Hiff j) eq_refl).
Qed.

Lemma scan_word_re_prev (p1 p2 : option char) (s : str) :
  is_word_opt p1 = is_word_opt p2 →
  scan word_re 0 p1 s = scan word_re 0 p2 s.
Proof.
  intros Hp.
  assert (word_re p1 s = word_re p2 s) as Hre
    by (unfold word_re, word_boundary; by rewrite Hp).
  destruct s; simpl; by rewrite Hre.
Qed.

Lemma scan_word_re_app (x y : str) (c : char) (skip : nat)
    (prev : option char) :
  is_word c = false → (skip ≤ length x)%nat →
  scan word_re skip prev (x ++ c :: y)
  = scan word_re skip prev x ++ scan word_re 0 None y.
Proof.
  intros Hc. revert skip prev. induction x as [|a x IH]; intros skip prev Hskip.
  - assert (skip = 0%nat) as -> by (simpl in Hskip; lia).
    pose proof (word_re_app prev [] y c Hc) as Hre.
    rewrite word_re_nil in Hre. rewrite app_nil_l in Hre |- *.
    cbn [scan]. rewrite Hre, word_re_nil. by apply scan_word_re_prev.
  - destruct skip as [|skip].
    + change ((a :: x) ++ c :: y) with (a :: x ++ c :: y). cbn [scan].
      change (a :: x ++ c :: y) with ((a :: x) ++ c :: y).
      rewrite (word_re_app prev (a :: x) y c Hc).
      destruct (word_re prev (a :: x)) as [j|] eqn:Hj.
      * apply word_re_Some in Hj as (Hj & Hpos & _).
        pose proof (az_run_length (a :: x)) as Hlen. rewrite <-Hj in Hlen.
        simpl in Hlen. rewrite take_app_le by (simpl; lia).
        rewrite IH by lia. done.
      * by rewrite IH by lia.
    + simpl. apply IH. simpl in Hskip. lia.
Qed.

(** The words found in a text are those found before a separator, and then
    those found after it. *)
Lemma findall_word_re_app (x y : str) (c : char) :
  is_word c = false →
  findall word_re (x ++ c :: y) = findall word_re x ++ findall word_re y.
Proof. intros Hc. apply scan_word_re_app; [done | lia]. Qed.

Lemma lower_app_ascii (x y : str) (c : char) :
  Forall is_ascii (x ++ c :: y) → is_word c = false →
  lower (x ++ c :: y) = lower x ++ c :: lower y.
Proof.
  intros Hascii Hc. pose proof Hascii as Hparts.
  apply Forall_app in Hparts as [Hx Hy]. apply Forall_cons in Hy as [Hca Hy].
  rewrite !lower_ascii by done. unfold ascii_lower.
  rewrite fmap_app, fmap_cons. do 2 f_equal.
  unfold is_word in Hc. apply orb_false_iff in Hc as [Hc _].
  rewrite isalnum_ascii in Hc by done. unfold ascii_isalnum in Hc.
  apply orb_false_iff in Hc as [Hc _]. apply orb_false_iff in Hc as [_ Hc].
  by rewrite Hc.
Qed.

Lemma is_word_NEWLINE : is_word NEWLINE = false.
Proof. unfold is_word. by rewrite isalnum_ascii. Qed.

Lemma lower_words_app (x y : str) (c : char) :
  Forall is_ascii (x ++ c :: y) → is_word c = false →
  lower_words (x ++ c :: y) = lower_words x ++ lower_words y.
Proof.
  intros Hascii Hc. unfold lower_words. rewrite lower_app_ascii by done.
  by apply findall_word_re_app.
Qed.

(** No word goes over the end of a line. *)
Lemma lower_words_join (lines : list str) :
  Forall is_ascii (join [NEWLINE] lines) →
  lower_words (join [NEWLINE] lines) = concat (lower_words <$> lines).
Proof.
  induction lines as [|l [|l' lines] IH]; intros Hascii.
  - simpl. unfold lower_words. by rewrite lower_ascii.
  - simpl. by rewrite app_nil_r.
  - rewrite join_cons in Hascii |- * by done. cbn [app] in Hascii |- *.
    rewrite fmap_cons, concat_cons.
    rewrite lower_words_app by (done || apply is_word_NEWLINE).
    rewrite IH; [done |]. apply Forall_app in Hascii as [_ Hascii].
    by apply Forall_cons in Hascii as [_ Hascii].
Qed.

End Separator.

(** X13.  In a text of ASCII characters, a character that is no letter, no
    digit and no underscore separates the tokens: the candidate tokens of
    the text are those of the part before the character followed by those
    of the part after it, and so are the tokens [tokenize_and_clean]
    returns. *)
Theorem tokenize_and_clean_separator `{Unicode} `{Stopwords}
    (before after : str) (c : char) :
  Forall is_ascii (before ++ c :: after) → is_word c = false →
  lower_words (before ++ c :: after)
  = lower_words before ++ lower_words after ∧
  tokenize_and_clean (before ++ c :: after)
  = tokenize_and_clean before ++ tokenize_and_clean after.
Proof.
  intros Hascii Hc.
  pose proof (lower_words_app before after c Hascii Hc) as Hwords.
  split; [done |].
  unfold tokenize_and_clean. by rewrite Hwords, filter_app.
Qed.

Lemma tokenize_and_clean_separator_witness :
  lower_words (py "The cat sat" ++ NEWLINE :: py "on the mat")
  = lower_words (py "The cat sat") ++ lower_words (py "on the mat") ∧
  tokenize_and_clean (py "The cat sat" ++ NEWLINE :: py "on the mat")
  = tokenize_and_clean (py "The cat sat")
    ++ tokenize_and_clean (py "on the mat").
Proof.
  apply (tokenize_and_clean_separator (py "The cat sat") (py "on the mat")
           NEWLINE).
  - apply (bool_decide_unpack _). vm_compute. exact I.
  - vm_compute. reflexivity.
Defined.

(** X14.  In a text of ASCII characters no token goes over the end of a
    line: the candidate tokens of the text are those of its lines, one line
    after the other, and so are the tokens [tokenize_and_clean] returns.
    So the [total_words] of [calculate_style_metrics] is the sum over the
    lines of the number of their candidate tokens. *)
Theorem tokenize_and_clean_lines `{Unicode} `{Stopwords} `{Floats}
    (text : str) (filtered_words : list str) :
  Forall is_ascii text →
  lower_words text = concat (lower_words <$> split NEWLINE text) ∧
  tokenize_and_clean text
  = concat (tokenize_and_clean <$> split NEWLINE text) ∧
  ∃ m, calculate_style_metrics text filtered_words = Ok m ∧
       total_words m
       = Z.of_nat (sum_list_with (λ line, length (lower_words line))
                     (split NEWLINE text)).
Proof.
  intros Hascii.
  assert (lower_words text = concat (lower_words <$> split NEWLINE text))
    as Hwords.
  { rewrite <-(join_split NEWLINE text) at 1. apply lower_words_join.
    by rewrite join_split. }
  split_and!; [done | |].
  - unfold tokenize_and_clean at 1. rewrite Hwords.
    generalize (split NEWLINE text). intros lines.
    induction lines as [|l lines IH]; [done |].
    rewrite !fmap_cons, !concat_cons, filter_app. by rewrite IH.
  - destruct (calculate_style_metrics_Ok text filtered_words)
      as (m & Hm & Htotal & _).
    exists m. split; [done |]. rewrite Htotal, Hwords. f_equal.
    generalize (split NEWLINE text). intros lines.
    induction lines as [|l lines IH]; [done |].
    rewrite fmap_cons, concat_cons, length_app, IH. done.
Qed.

Lemma tokenize_and_clean_lines_witness :
  lower_words sample_text
  = concat (lower_words <$> split NEWLINE sample_text) ∧
  tokenize_and_clean sample_text
  = concat (tokenize_and_clean <$> split NEWLINE sample_text) ∧
  ∃ m, calculate_style_metrics sample_text [] = Ok m ∧
       total_words m
       = Z.of_nat (sum_list_with (λ line, length (lower_words line))
                     (split NEWLINE sample_text)).
Proof.
  apply (tokenize_and_clean_lines sample_text []).
  apply (bool_decide_unpack _). vm_compute. exact I.
Defined.

(** ** Texts the loader returns unchanged *)

(** X15.  A text without the two markers is returned by [load_gospel] as
    it is exactly when it is empty or starts with a verse marker. *)
Theorem load_gospel_fixed_point `{Unicode} `{Floats}
    (base_path filename : path) (text : str) (st : state) :
  files st !! (base_path ++ filename) = Some text →
  ¬ occurs start_marker text →
  ¬ occurs end_marker text →
  load_gospel base_path filename st = (Ok text, st) ↔
  text = [] ∨ verse_line text.
Proof.
  intros Hfile Hs He.
  assert (load_gospel base_path filename st = (Ok (clean_gospel text), st))
    as -> by (unfold load_gospel, read_text, mbind, M_bind, mret, M_ret;
              by rewrite Hfile).
  assert (cut_at_markers text = text) as Hcut.
  { unfold cut_at_markers. apply find_absent in Hs, He.
    rewrite Hs, He. by rewrite !decide_False by (by intros ?). }
  destruct (join_drop_header (cut_at_markers text))
    as ((skipped & Hskipped) & Hkept & Hnil).
  rewrite <-clean_gospel_cut, Hcut in *.
  split.
  - intros [= Heq]. by rewrite Heq in Hkept.
  - intros Htext. f_equal.
    rewrite clean_gospel_cut, Hcut.
    destruct Htext as [->|Hv]; [done |].
    pose proof (join_split NEWLINE text) as Hjoin.
    destruct (split NEWLINE text) as [|line lines] eqn:Hsplit;
      [by apply split_not_nil in Hsplit |].
    assert (verse_line line) as Hline.
    { destruct lines as [|l lines]; simpl in Hjoin; [by subst |].
      rewrite <-Hjoin in Hv. by apply verse_line_first_line in Hv. }
    cbn [drop_header]. rewrite bool_decide_eq_true_2 by done.
    by rewrite Hjoin.
Qed.

Lemma load_gospel_fixed_point_witness :
  let text := py "001:001 The cat sat." in
  let st := fresh [([py "home"; py "pg8828.txt"], text)] in
  load_gospel [py "home"] [py "pg8828.txt"] st = (Ok text, st) ↔
  text = [] ∨ verse_line text.
Proof.
  apply (load_gospel_fixed_point [py "home"] [py "pg8828.txt"]).
  - vm_compute. reflexivity.
  - apply find_absent. vm_compute. reflexivity.
  - apply find_absent. vm_compute. reflexivity.
Defined.

(** ** A run that stops at a file *)

Lemma Forall_dict_set {V} (P : str * V → Prop) (d : list (str * V))
    (k : str) (v : V) :
  Forall P d → P (k, v) → Forall P (dict_set d k v).
Proof.
  intros Hd Hv. induction Hd as [|[k' v'] d Hkv Hd IH]; simpl.
  - by constructor.
  - case_decide; constructor; done.
Qed.

Section Stops.
Context {F : Floats} {U : Unicode} {B : TextBlob} {SW : Stopwords}
  {SO : SetOrder}.
Variable base_path : path.

(** The loop over the gospels up to the first file that cannot be read. *)
Lemma analyze_each_stops (analyzed : list (str * path)) (g : str * path)
    (rest : list (str * path)) (st : state) :
  Forall (λ g, is_Some (files st !! (base_path ++ g.2))) analyzed →
  files st !! (base_path ++ g.2) = None →
  NoDup ((results st).*1 ++ analyzed.*1) →
  ∃ st',
    analyze_each base_path (analyzed ++ g :: rest) st
    = (Raise FileNotFoundError, st') ∧
    (results st').*1 = (results st).*1 ++ analyzed.*1 ∧
    (Forall (λ kv, is_Some (all_words kv.2)) (results st) →
     Forall (λ kv, is_Some (all_words kv.2)) (results st')).
Proof.
  revert st. induction analyzed as [|[name filename] analyzed IH];
    intros st Hread Hmissing Hnd.
  - exists st. destruct g as [name filename]. cbn [app analyze_each].
    rewrite (bind_Raise _ _ st st FileNotFoundError)
      by by apply analyze_gospel_missing.
    by rewrite app_nil_r.
  - apply Forall_cons in Hread as [Hfile Hread].
    destruct (analyze_gospel_files base_path name filename st Hfile)
      as (doc & tokens & Htokens & Hdoc).
    set (st1 := {| files := files st; dirs := dirs st;
                   results := dict_set (results st) name doc |}).
    assert ((results st1).*1 = (results st).*1 ++ [name]) as Hkeys1.
    { unfold st1. cbn [results]. rewrite dict_set_keys.
      rewrite decide_False; [done |]. intros Hin.
      apply NoDup_app in Hnd as (_ & Hnd & _).
      apply (Hnd name Hin). rewrite fmap_cons. by left. }
    destruct (IH st1) as (st' & Hrun & Hkeys & Hwords); [done | done | |].
    { rewrite Hkeys1, <-app_assoc. by rewrite fmap_cons in Hnd. }
    exists st'. split_and!.
    + change (((name, filename) :: analyzed) ++ g :: rest)
        with ((name, filename) :: analyzed ++ g :: rest).
      cbn [analyze_each].
      rewrite (bind_Ok _ _ st st doc) by by apply Hdoc.
      unfold get_results, set_results, mbind, M_bind. fold st1. exact Hrun.
    + rewrite Hkeys, Hkeys1, <-app_assoc. by rewrite fmap_cons.
    + intros Hall. apply Hwords. unfold st1. cbn [results].
      apply Forall_dict_set; [done |]. simpl. by rewrite Htokens.
Qed.

End Stops.

(** X16.  When one of the three files cannot be read, [run_analysis] on a
    new analyzer raises at that file: the analyzer holds the documents of
    the gospels that come before it, each one still with its [all_words],
    and none of the others.  The files and directories are as they
    were. *)
Theorem run_analysis_stops {F : Floats} {U : Unicode} {B : TextBlob}
    {SW : Stopwords} {SO : SetOrder} (base_path : path) (st : state)
    (analyzed rest : list (str * path)) (g : str * path) :
  results st = [] →
  gospel_files = analyzed ++ g :: rest →
  Forall (λ g, is_Some (files st !! (base_path ++ g.2))) analyzed →
  files st !! (base_path ++ g.2) = None →
  ∃ e st',
    run_analysis base_path st = (Raise e, st') ∧
    files st' = files st ∧ dirs st' = dirs st ∧
    (results st').*1 = analyzed.*1 ∧
    Forall (λ kv, is_Some (all_words kv.2)) (results st').
Proof.
  intros Hnew Hsplit Hread Hmissing.
  assert (NoDup gospel_files.*1) as Hnd.
  { destruct gospel_names_distinct as (? & ? & ?).
    unfold gospel_files. rewrite !fmap_cons, fmap_nil. cbn [fst].
    repeat (apply NoDup_cons; split;
            [rewrite ?elem_of_cons, elem_of_nil; by intuition |]).
    apply NoDup_nil_2. }
  rewrite Hsplit, fmap_app in Hnd. apply NoDup_app in Hnd as (Hnd & _ & _).
  destruct (analyze_each_stops base_path analyzed g rest st Hread Hmissing)
    as (st' & Hrun & Hkeys & Hwords); [by rewrite Hnew |].
  exists FileNotFoundError, st'.
  destruct (analyze_each_files base_path _ _ _ _ Hrun) as [Hfiles Hdirs].
  rewrite Hnew in Hkeys, Hwords.
  split_and!; [| done | done | done | by apply Hwords].
  unfold run_analysis. rewrite Hsplit.
  by rewrite (bind_Raise _ _ st st' FileNotFoundError).
Qed.

Lemma run_analysis_stops_witness :
  ∃ e st',
    run_analysis [py "home"] (fresh missing_files) = (Raise e, st') ∧
    files st' = files (fresh missing_files) ∧
    dirs st' = dirs (fresh missing_files) ∧
    (results st').*1 = [py "Matthew"] ∧
    Forall (λ kv, is_Some (all_words kv.2)) (results st').
Proof.
  apply (run_analysis_stops [py "home"] (fresh missing_files)
           [(py "Matthew", [py "pg8828.txt"])]
           [(py "Luke", [py "pg8830.txt"])]
           (py "Mark", [py "pg8829.txt"])).
  - reflexivity.
  - reflexivity.
  - apply (bool_decide_unpack _). vm_compute. exact I.
  - vm_compute. reflexivity.
Defined.
